(** * tf_utils: layer operators and the stack combinator

    A shallow embedding of [python_ops/conv_ops.py] and [python_ops/ops.py].
    Graph construction is modelled in a state-and-exception monad over the
    variable registry; tensors carry the static shape the graph declares and
    the array they evaluate to at run time. *)

From Stdlib Require Import ZArith List String Bool Lia QArith Qabs Sorted.
Import ListNotations.
Local Open Scope Z_scope.

(** ** Exceptions and the construction monad *)

Inductive exn : Type :=
| AssertionError (msg : string)
| ValueError
| IndexError
| TypeError.

Inductive result (A : Type) : Type :=
| OK (a : A)
| Raise (e : exn).
Arguments OK {A} a.
Arguments Raise {A} e.

Definition is_ok {A} (r : result A) : bool :=
  match r with OK _ => true | Raise _ => false end.

(** A variable of the registry: identity [(scope, name)] and a fixed shape. *)
Record Variable_ : Type := mkVar {
  v_scope : string;
  v_name : string;
  v_shape : list Z
}.

Definition Registry : Type := list Variable_.

(** Construction-time computations: they read and extend the registry and
    may raise.  A failure carries its exception only: what the registry held
    when it was raised is not recorded. *)
Definition M (A : Type) : Type := Registry -> result (A * Registry).

Definition ret {A} (a : A) : M A := fun reg => OK (a, reg).

Definition bind {A B} (m : M A) (k : A -> M B) : M B :=
  fun reg => match m reg with
             | OK (a, reg') => k a reg'
             | Raise e => Raise e
             end.

Definition raise {A} (e : exn) : M A := fun _ => Raise e.

Notation "x <- m ;; k" := (bind m (fun x => k))
  (at level 61, m at next level, right associativity).
Notation "' p <- m ;; k" := (bind m (fun x => match x with p => k end))
  (at level 61, p pattern, m at next level, right associativity).
Notation "m ;;; k" := (bind m (fun _ => k))
  (at level 61, right associativity).

(** [assert c, msg] *)
Definition assert_ (c : bool) (msg : string) : M unit :=
  if c then ret tt else raise (AssertionError msg).

(** ** Tensors *)

(** The array a tensor evaluates to: its run-time dimensions and its entries
    by index. *)
Record NDArray (R : Type) : Type := mkArr {
  dims : list nat;
  at_ : list nat -> R
}.
Arguments mkArr {R} dims at_.
Arguments dims {R} _.
Arguments at_ {R} _ _.

(** A static dimension is [None] when unknown at construction time. *)
Definition Dim : Type := option Z.

(** A graph tensor: the declared (static) shape and the run-time array. *)
Record Tensor (R : Type) : Type := mkTensor {
  get_shape : list Dim;
  run : NDArray R
}.
Arguments mkTensor {R} get_shape run.
Arguments get_shape {R} _.
Arguments run {R} _.

(** [tf.shape(X)]: the run-time shape, as an integer vector. *)
Definition tf_shape {R} (X : Tensor R) : list Z := map Z.of_nat (dims (run X)).

(** Python truth value of a static dimension: [None] and [0] are false. *)
Definition truthy (d : Dim) : bool :=
  match d with
  | Some n => negb (n =? 0)
  | None => false
  end.

(** [if d:] on a static dimension: the branch taken and, when it is the
    true branch, the value [d] holds there. *)
Definition if_dim (d : Dim) : option Z :=
  match d with
  | Some n => if n =? 0 then None else Some n
  | None => None
  end.

(** The run-time shape refines the static one. *)
Definition dim_compatible (d : Dim) (n : Z) : Prop :=
  match d with Some k => k = n | None => True end.

Definition shape_compatible {R} (X : Tensor R) : Prop :=
  Forall2 dim_compatible (get_shape X) (tf_shape X).

(** ** Layer specifications *)

Inductive pad_mode : Type := SAME | VALID | CONSTANT.

Definition pad_mode_eqb (a b : pad_mode) : bool :=
  match a, b with
  | SAME, SAME | VALID, VALID | CONSTANT, CONSTANT => true
  | _, _ => false
  end.

Definition Stride : Type := (Z * Z * Z * Z)%type.

Definition stride_eqb (s t : Stride) : bool :=
  let '(a, b, c, d) := s in
  let '(a', b', c', d') := t in
  (a =? a') && (b =? b') && (c =? c') && (d =? d').

(** The [param] dictionary of a layer.  ['kernel'] is required; ['stride'],
    ['pad'] may be absent; ['bias'] is read through [param.get]. *)
Record LayerSpec : Type := mkSpec {
  kernel : list Z;
  stride : option Stride;
  pad : option pad_mode;
  bias : bool
}.

(** ** Collaborators from [base] *)

(** Modelled from the spec: [_default_value] of [base], which is not part of
    the sources at hand.  "LayerSpec fields [stride] and [pad] have
    documented default values applied when absent". *)
Definition _default_value_stride (param : LayerSpec) (d : Stride) : LayerSpec :=
  match stride param with
  | Some _ => param
  | None => mkSpec (kernel param) (Some d) (pad param) (bias param)
  end.

Definition _default_value_pad (param : LayerSpec) (d : pad_mode) : LayerSpec :=
  match pad param with
  | Some _ => param
  | None => mkSpec (kernel param) (stride param) (Some d) (bias param)
  end.

(** [param['stride']] and [param['pad']]: a missing key raises (KeyError is
    folded into [ValueError]). *)
Definition get_stride (param : LayerSpec) : M Stride :=
  match stride param with Some s => ret s | None => raise ValueError end.

Definition get_pad (param : LayerSpec) : M pad_mode :=
  match pad param with Some s => ret s | None => raise ValueError end.

Definition find_variable (scope name : string) (reg : Registry) : option Variable_ :=
  find (fun v => String.eqb (v_scope v) scope && String.eqb (v_name v) name) reg.

(** Modelled from the spec: [scoped_variable] of [base], which is not part of
    the sources at hand.  "get_or_create(scope, name, shape, dtype,
    initializer) -> Parameter, reusing an existing parameter if the (scope,
    name) pair was already created in the current graph lifetime, and
    enforcing shape/dtype consistency across reuse". *)
Definition scoped_variable (name scope_name : string) (shape : list Z) : M Variable_ :=
  fun reg =>
    match find_variable scope_name name reg with
    | Some v =>
        if list_eq_dec Z.eq_dec (v_shape v) shape then OK (v, reg)
        else Raise ValueError
    | None =>
        let v := mkVar scope_name name shape in OK (v, v :: reg)
    end.

(** ** Tuple unpacking *)

Definition unpack3 (t : list Z) : M (Z * Z * Z) :=
  match t with
  | [a; b; c] => ret (a, b, c)
  | _ => raise ValueError
  end.

Definition unpack4 (t : list Z) : M (Z * Z * Z * Z) :=
  match t with
  | [a; b; c; d] => ret (a, b, c, d)
  | _ => raise ValueError
  end.

(** Python slice [t[i:j]] for [0 <= i <= j]. *)
Definition slice {A} (i j : nat) (t : list A) : list A :=
  firstn (j - i) (skipn i t).

(** Element-wise arithmetic on integer vectors of equal length. *)
Fixpoint vzip (f : Z -> Z -> Z) (u v : list Z) : list Z :=
  match u, v with
  | x :: u', y :: v' => f x y :: vzip f u' v'
  | _, _ => []
  end.

(** ** conv_ops.py: transposed convolution *)

(** Static shape of [tf.concat(3, [X, ones])]: the leading dimensions are
    those of [X], the channel dimension grows by one. *)
Definition concat_ones_shape (s : list Dim) : list Dim :=
  firstn 3 s ++ map (option_map Z.succ) (slice 3 4 s).

(** The call of [conv2d_transpose] that [deconv] makes: its arguments, and
    the shape [deconv] then passes to [set_shape] on the result, if it calls
    it.  What the engine makes of these arguments is the engine's; its own
    refusals (a pad mode it does not know, shapes that do not fit) are not
    part of the record, and the properties of [deconv] are stated for the
    calls that return. *)
Record DeconvNode : Type := mkDeconv {
  dc_kernel : Variable_;
  dc_in_shape : list Dim;
  dc_output_shape : list Z;
  dc_strides : Stride;
  dc_padding : pad_mode;
  dc_name : string;
  dc_set_shape : option (list Dim)
}.

(** The messages of the assertions; an assertion without a message is
    labelled by its condition. *)
Definition msg_disagree : string :=
  "Inferred and given numbers of input_channels do not agree.".
Definition msg_not_inferred : string :=
  "Number of input_channels was not given and could not be inferred.".
Definition msg_rank : string := "ndims == 4".

Section Deconv.
Context {R : Type}.

Definition deconv (X : Tensor R) (param : LayerSpec) (name scope_name : string)
  : M DeconvNode :=
  assert_ (Nat.eqb (List.length (get_shape X)) 4) msg_rank ;;;
  let param := _default_value_stride param (1, 1, 1, 1) in
  let param := _default_value_pad param SAME in
  let c_in := nth 3 (get_shape X) None in
  let ker_shape := kernel param in
  '(kw, kh, c_out, c_in) <-
    match if_dim c_in with
    | Some c_in =>
        if Nat.eqb (List.length ker_shape) 3 then
          '(kw, kh, c_out) <- unpack3 (kernel param) ;;
          ret (kw, kh, c_out, c_in)
        else
          '(kw, kh, c_in_, c_out) <- unpack4 (kernel param) ;;
          assert_ (c_in_ =? c_in) msg_disagree ;;;
          ret (kw, kh, c_out, c_in)
    | None =>
        if Nat.eqb (List.length ker_shape) 4 then
          '(kw, kh, c_out, c_in) <- unpack4 (kernel param) ;;
          ret (kw, kh, c_out, c_in)
        else
          raise (AssertionError msg_not_inferred)
    end ;;
  let '(c_in, X_shape, input_shape) :=
    if bias param then
      (c_in + 1, concat_ones_shape (get_shape X),
       firstn 3 (tf_shape X) ++ map Z.succ (slice 3 4 (tf_shape X)))
    else (c_in, get_shape X, tf_shape X) in
  let ker_shape := [kw; kh; c_out; c_in] in
  kernel_ <- scoped_variable ("kernel_" ++ name)%string scope_name ker_shape ;;
  pad_type <- get_pad param ;;
  '(b, w, h, _) <-
    match X_shape with
    | [b; w; h; c] => ret (b, w, h, c)
    | _ => raise ValueError
    end ;;
  strides <- get_stride param ;;
  let '(_, sw, sh, _) := strides in
  let known := truthy w && truthy h in
  let '(w, h) :=
    if known then
      let w := option_map (fun w => w * sw) w in
      let h := option_map (fun h => h * sh) h in
      if pad_mode_eqb pad_type VALID then
        (option_map (fun w => w + (kw - 1)) w,
         option_map (fun h => h + (kh - 1)) h)
      else (w, h)
    else (w, h) in
  let wh_dims := vzip Z.mul (slice 1 3 input_shape) [sw; sh] in
  let wh_dims :=
    if pad_mode_eqb pad_type VALID then
      map (fun d => d - 1) (vzip Z.add wh_dims (slice 0 2 (kernel param)))
    else wh_dims in
  let output_shape :=
    slice 0 1 input_shape ++ wh_dims ++ slice 2 3 (kernel param) in
  ret (mkDeconv kernel_ X_shape output_shape strides pad_type
         ("deconv_" ++ name)%string
         (if truthy w && truthy h then Some [b; w; h; Some c_out] else None)).

End Deconv.

(** ** The tensor engine

    The primitives of the execution engine that the operators call, on the
    arrays tensors evaluate to.  Shape errors are the engine's [ValueError]. *)

(** Engine computations outside graph construction. *)
Definition rbind {A B} (r : result A) (k : A -> result B) : result B :=
  match r with
  | OK a => k a
  | Raise e => Raise e
  end.

Notation "x <-r m ;; k" := (rbind m (fun x => k))
  (at level 61, m at next level, right associativity).
Notation "' p <-r m ;; k" := (rbind m (fun x => match x with p => k end))
  (at level 61, p pattern, m at next level, right associativity).

Definition lift {A} (r : result A) : M A :=
  fun reg => match r with OK a => OK (a, reg) | Raise e => Raise e end.

(** The scalar interface of the engine. *)
Class Scalar (R : Type) : Type := {
  r0 : R;
  r1 : R;
  radd : R -> R -> R;
  rsub : R -> R -> R;
  rmul : R -> R -> R;
  rdiv : R -> R -> R;
  rexp : R -> R;
  rpow : R -> R -> R;
  rabs : R -> R;
  rnat : nat -> R
}.

Fixpoint set_nth {A} (k : nat) (x : A) (l : list A) : list A :=
  match l, k with
  | [], _ => []
  | _ :: t, O => x :: t
  | a :: t, S k' => a :: set_nth k' x t
  end.

Fixpoint remove_nth {A} (k : nat) (l : list A) : list A :=
  match l, k with
  | [], _ => []
  | _ :: t, O => t
  | a :: t, S k' => a :: remove_nth k' t
  end.

Fixpoint insert_nth {A} (k : nat) (x : A) (l : list A) : list A :=
  match k, l with
  | O, _ => x :: l
  | S k', a :: t => a :: insert_nth k' x t
  | S _, [] => [x]
  end.

(** Valid indices of an array with dimensions [ds]. *)
Definition in_range (ds idx : list nat) : Prop := Forall2 lt idx ds.

(** Arrays are compared on their valid indices. *)
Definition arr_eq {R} (A B : NDArray R) : Prop :=
  dims A = dims B /\ forall idx, in_range (dims A) idx -> at_ A idx = at_ B idx.

Section Engine.
Context {R : Type} `{Scalar R}.

Definition rank (A : NDArray R) : nat := List.length (dims A).

Definition dim (k : nat) (A : NDArray R) : nat := nth k (dims A) 0%nat.

(** Element-wise application. *)
Definition amap (f : R -> R) (A : NDArray R) : NDArray R :=
  mkArr (dims A) (fun idx => f (at_ A idx)).

(** [A[..., :n, ...]] along axis [k]. *)
Definition take_first (k n : nat) (A : NDArray R) : NDArray R :=
  mkArr (set_nth k (Nat.min n (dim k A)) (dims A)) (at_ A).

(** [A[..., -n:, ...]] along axis [k]. *)
Definition take_last (k n : nat) (A : NDArray R) : NDArray R :=
  let m := Nat.min n (dim k A) in
  mkArr (set_nth k m (dims A))
        (fun idx => at_ A (set_nth k (nth k idx 0 + (dim k A - m))%nat idx)).

Fixpoint zip_with {A B C} (f : A -> B -> C) (u : list A) (v : list B) : list C :=
  match u, v with
  | x :: u', y :: v' => f x y :: zip_with f u' v'
  | _, _ => []
  end.

(** [tf.tile(A, multiples)], evaluated: a negative multiple, which the
    engine reports when the node is run, is reported here. *)
Definition tile (A : NDArray R) (multiples : list Z) : result (NDArray R) :=
  if negb (Nat.eqb (List.length multiples) (rank A)) then Raise ValueError
  else if existsb (fun m => m <? 0) multiples then Raise ValueError
  else OK (mkArr (zip_with (fun d m => (d * Z.to_nat m)%nat) (dims A) multiples)
                 (fun idx => at_ A (zip_with Nat.modulo idx (dims A)))).

(** Concatenation of two arrays along axis [k]. *)
Definition concat2 (k : nat) (A B : NDArray R) : result (NDArray R) :=
  if negb (Nat.ltb k (rank A)) then Raise ValueError
  else if negb (if list_eq_dec Nat.eq_dec (set_nth k 0%nat (dims A))
                                          (set_nth k 0%nat (dims B))
                then true else false) then Raise ValueError
  else OK (mkArr (set_nth k (dim k A + dim k B)%nat (dims A))
                 (fun idx =>
                    let i := nth k idx 0%nat in
                    if Nat.ltb i (dim k A) then at_ A idx
                    else at_ B (set_nth k (i - dim k A)%nat idx))).

(** [tf.concat(k, [A1; ...; An])]. *)
Fixpoint concat (k : nat) (l : list (NDArray R)) : result (NDArray R) :=
  match l with
  | [] => Raise ValueError
  | [A] => if Nat.ltb k (rank A) then OK A else Raise ValueError
  | A :: l' => B <-r concat k l' ;; concat2 k A B
  end.

(** The sum of a list of scalars, from the left. *)
Definition sum_list (l : list R) : R := fold_left radd l r0.

(** Sum of the entries along axis [k], keeping the axis with size one. *)
Definition reduce_axis (k : nat) (A : NDArray R) : NDArray R :=
  mkArr (set_nth k 1%nat (dims A))
        (fun idx => sum_list (map (fun j => at_ A (set_nth k j idx))
                                  (seq 0 (dim k A)))).

(** Dropping a size-one axis. *)
Definition squeeze_axis (k : nat) (A : NDArray R) : NDArray R :=
  mkArr (remove_nth k (dims A)) (fun idx => at_ A (insert_nth k 0%nat idx)).

(** The axes in decreasing order, without repetition. *)
Definition sort_desc (l : list nat) : list nat :=
  fold_right (fun k acc =>
                filter (fun j => Nat.ltb k j) acc ++ k ::
                filter (fun j => Nat.ltb j k) acc) [] l.

(** [tf.reduce_sum(A, axes, keep_dims)]; [axes = None] reduces every axis. *)
Definition reduce_sum (A : NDArray R) (axes : option (list nat)) (keep_dims : bool)
  : result (NDArray R) :=
  let axes := match axes with Some l => l | None => seq 0 (rank A) end in
  if negb (forallb (fun k => Nat.ltb k (rank A)) axes) then Raise ValueError
  else
    let summed := fold_left (fun acc k => reduce_axis k acc) axes A in
    OK (if keep_dims then summed
        else fold_left (fun acc k => squeeze_axis k acc) (sort_desc axes) summed).

(** Broadcast dimensions, on the reversed dimension lists. *)
Fixpoint bcast_rev (d1 d2 : list nat) : option (list nat) :=
  match d1, d2 with
  | [], d => Some d
  | d, [] => Some d
  | a :: d1', b :: d2' =>
      match bcast_rev d1' d2' with
      | None => None
      | Some d =>
          if Nat.eqb a b then Some (a :: d)
          else if Nat.eqb a 1 then Some (b :: d)
          else if Nat.eqb b 1 then Some (a :: d)
          else None
      end
  end.

Definition bcast_dims (d1 d2 : list nat) : option (list nat) :=
  option_map (@rev nat) (bcast_rev (rev d1) (rev d2)).

(** The index an operand of dimensions [ds] is read at, for the index
    [idx] of the broadcast result. *)
Definition bcast_index (ds idx : list nat) : list nat :=
  zip_with (fun i d => if Nat.eqb d 1 then 0%nat else i)
           (skipn (List.length idx - List.length ds) idx) ds.

(** Element-wise binary operation with broadcasting. *)
Definition broadcast2 (f : R -> R -> R) (A B : NDArray R) : result (NDArray R) :=
  match bcast_dims (dims A) (dims B) with
  | None => Raise ValueError
  | Some ds =>
      OK (mkArr ds (fun idx => f (at_ A (bcast_index (dims A) idx))
                                 (at_ B (bcast_index (dims B) idx))))
  end.

(** [tf.ones(dims)]. *)
Definition ones (ds : list nat) : NDArray R := mkArr ds (fun _ => r1).

(** [tf.linspace(start, stop, num)]. *)
Definition linspace (start stop : R) (num : nat) : list R :=
  match num with
  | O => []
  | S O => [start]
  | S n => map (fun i => radd start (rmul (rnat i) (rdiv (rsub stop start) (rnat n))))
               (seq 0 num)
  end.

(** Row-major position of the index [idx] in an array of dimensions [ds]. *)
Definition flat_index (ds idx : list nat) : nat :=
  fold_left (fun acc id => (acc * snd id + fst id)%nat) (combine idx ds) 0%nat.

(** [tf.reshape(v, ds)] of a vector. *)
Definition reshape_vec (v : list R) (ds : list nat) : result (NDArray R) :=
  if negb (Nat.eqb (fold_right Nat.mul 1%nat ds) (List.length v)) then Raise ValueError
  else OK (mkArr ds (fun idx => nth (flat_index ds idx) v r0)).

End Engine.

(** ** conv_ops.py: convolution *)

Definition msg_ker_len : string := "len(ker_shape) == 4".
Definition msg_stride : string := "param['stride'] == (1, 1, 1, 1)".

(** The call of [conv2d] that [conv] makes: its arguments.  The engine's
    own refusals of them (a kernel larger than the input under [VALID], an
    empty axis) are not part of the record, and the properties of [conv] are
    stated for the calls that return. *)
Record ConvNode (R : Type) : Type := mkConv {
  cv_input : Tensor R;
  cv_kernel : Variable_;
  cv_strides : Stride;
  cv_padding : pad_mode;
  cv_name : string
}.
Arguments mkConv {R} _ _ _ _ _.
Arguments cv_input {R} _.
Arguments cv_kernel {R} _.
Arguments cv_strides {R} _.
Arguments cv_padding {R} _.
Arguments cv_name {R} _.

Section Conv.
Context {R : Type} `{Scalar R}.

(** Static size of an axis padded by replicating its edge slices. *)
Definition pad_dim (d : Dim) (before after : Z) : Dim :=
  match d with
  | Some n => if n =? 0 then Some 0 else Some (before + n + after)
  | None => None
  end.

Definition _constant_pad (X : Tensor R) (ker_shape : list (option Z))
  : M (Tensor R) :=
  assert_ (Nat.eqb (List.length (get_shape X)) 4) msg_rank ;;;
  assert_ (Nat.eqb (List.length ker_shape) 4) msg_ker_len ;;;
  '(kw, kh) <-
    match firstn 2 ker_shape with
    | [Some kw; Some kh] => ret (kw, kh)
    | _ => raise TypeError
    end ;;
  let '(wb, wa) := (kw / 2, kw - kw / 2 - 1) in
  let '(hb, ha) := (kh / 2, kh - kh / 2 - 1) in
  let x := run X in
  X_ <- lift (t1 <-r tile (take_first 1 1 x) [1; wb; 1; 1] ;;
              t2 <-r tile (take_last 1 1 x) [1; wa; 1; 1] ;;
              concat 1 [t1; x; t2]) ;;
  X_pad <- lift (t1 <-r tile (take_first 2 1 X_) [1; 1; hb; 1] ;;
                 t2 <-r tile (take_last 2 1 X_) [1; 1; ha; 1] ;;
                 concat 2 [t1; X_; t2]) ;;
  ret (mkTensor
         match get_shape X with
         | [b; w; h; c] => [b; pad_dim w wb wa; pad_dim h hb ha; c]
         | s => s
         end
         X_pad).

(** [tf.concat(3, [X, tf.ones(tf.concat(0, [tf.shape(X)[:3], [1]]))])] *)
Definition concat_ones (X : Tensor R) : M (Tensor R) :=
  x <- lift (concat 3 [run X; ones (firstn 3 (dims (run X)) ++ [1%nat])]) ;;
  ret (mkTensor (concat_ones_shape (get_shape X)) x).

Definition conv (X : Tensor R) (param : LayerSpec) (name scope_name : string)
  : M (ConvNode R) :=
  assert_ (Nat.eqb (List.length (get_shape X)) 4) msg_rank ;;;
  let param := _default_value_stride param (1, 1, 1, 1) in
  let param := _default_value_pad param SAME in
  '(kw, kh, c_out) <- unpack3 (kernel param) ;;
  let c_in := nth 3 (get_shape X) None in
  '(c_in, X) <-
    (if bias param then
       match c_in with
       | Some c => X <- concat_ones X ;; ret (Some (c + 1), X)
       | None => raise TypeError
       end
     else ret (c_in, X)) ;;
  let ker_shape := [Some kw; Some kh; c_in; Some c_out] in
  pad_type <- get_pad param ;;
  strides <- get_stride param ;;
  '(X, pad_type) <-
    (if pad_mode_eqb pad_type CONSTANT then
       assert_ (stride_eqb strides (1, 1, 1, 1)) msg_stride ;;;
       X <- _constant_pad X ker_shape ;;
       ret (X, VALID)
     else ret (X, pad_type)) ;;
  kernel_ <-
    match c_in with
    | Some c => scoped_variable ("kernel_" ++ name)%string scope_name [kw; kh; c; c_out]
    | None => raise ValueError
    end ;;
  ret (mkConv X kernel_ strides pad_type ("conv_" ++ name)%string).

End Conv.

(** ** conv_ops.py: spatial softmax *)

Section SpatialSoftmax.
Context {R : Type} `{Scalar R}.

Definition spatial_softmax (X : Tensor R) : result (NDArray R) :=
  '(w, h) <-r
    match get_shape X with
    | [_; Some w; Some h; _] => OK (Z.to_nat w, Z.to_nat h)
    | [_; _; _; _] => Raise ValueError
    | _ => Raise ValueError
    end ;;
  let '(x_map, y_map) := (linspace r0 r1 w, linspace r0 r1 h) in
  x_map <-r reshape_vec x_map [1; w; 1]%nat ;;
  y_map <-r reshape_vec y_map [1; h; 1]%nat ;;
  let X := amap rexp (run X) in
  fx <-r reduce_sum X (Some [1%nat]) false ;;
  fy <-r reduce_sum X (Some [2%nat]) false ;;
  sx <-r reduce_sum fx (Some [1%nat]) true ;;
  fx <-r broadcast2 rdiv fx sx ;;
  sy <-r reduce_sum fy (Some [1%nat]) true ;;
  fy <-r broadcast2 rdiv fy sy ;;
  fx <-r (p <-r broadcast2 rmul fx x_map ;; reduce_sum p (Some [1%nat]) false) ;;
  fy <-r (p <-r broadcast2 rmul fy y_map ;; reduce_sum p (Some [1%nat]) false) ;;
  concat 1 [fx; fy].

End SpatialSoftmax.

(** ** ops.py: the stack combinator *)

(** The [nonlin] argument: one function, or a list with one per layer. *)
Inductive nonlin_arg (T : Type) : Type :=
| Single (f : T -> T)
| PerLayer (fs : list (T -> T)).
Arguments Single {T} f.
Arguments PerLayer {T} fs.

Section MakeStack.
Context {T P : Type}.
Variable func : T -> P -> nat -> string -> M T.

(** The body of [for i, param in enumerate(params)], from index [i] on;
    [n] is [len(params)]. *)
Fixpoint stack_loop (n : nat) (nonlin : list (T -> T)) (name : string)
         (raw_output : bool) (i : nat) (params : list P) (X : T) : M T :=
  match params with
  | [] => ret X
  | param :: rest =>
      X <- func X param i name ;;
      X <- (if negb raw_output || Nat.ltb (i + 1) n then
              match nth_error nonlin i with
              | Some f => ret (f X)
              | None => raise IndexError
              end
            else ret X) ;;
      stack_loop n nonlin name raw_output (S i) rest X
  end.

Definition generic_stack (X : T) (params : list P) (nonlin : nonlin_arg T)
           (name : string) (raw_output : bool) : M T :=
  let nonlin :=
    match nonlin with
    | PerLayer fs => fs
    | Single f => repeat f (List.length params)
    end in
  stack_loop (List.length params) nonlin name raw_output 0 params X.

Definition make_stack := generic_stack.

End MakeStack.

(** ** ops.py: norm and normalize *)

(** The [axis] argument: an int, a list of ints, or [None]. *)
Inductive axis_arg : Type :=
| AxisNone
| AxisInt (k : nat)
| AxisList (ks : list nat).

(** Modelled from the spec: [_validate_axes] of [base], which is not part of
    the sources at hand.  The axis is "an int, list(int), or None"; it is
    brought to the list form the engine's reductions take ([None] reduces
    over every axis). *)
Definition _validate_axes (axis : axis_arg) : option (list nat) :=
  match axis with
  | AxisNone => None
  | AxisInt k => Some [k]
  | AxisList ks => Some ks
  end.

Section NormOps.
Context {R : Type} `{Scalar R}.

Definition norm (X : NDArray R) (axis : axis_arg) (keep_dims : bool)
           (p : R) (root : bool) : result (NDArray R) :=
  let axis := _validate_axes axis in
  Y <-r reduce_sum (amap (fun x => rpow x p) X) axis keep_dims ;;
  if negb root then OK Y
  else OK (amap (fun y => rpow y (rdiv r1 p)) Y).

(** The p-norm as the specification words it:
    [(sum(|X|^p along axis))^(1/p)], or without the root. *)
Definition norm_spec (X : NDArray R) (axis : axis_arg) (keep_dims : bool)
           (p : R) (root : bool) : result (NDArray R) :=
  Y <-r reduce_sum (amap (fun x => rpow (rabs x) p) X) (_validate_axes axis) keep_dims ;;
  OK (if root then amap (fun y => rpow y (rdiv r1 p)) Y else Y).

Definition normalize (X : NDArray R) (axis : axis_arg) : result (NDArray R) :=
  let axis := _validate_axes axis in
  total <-r reduce_sum X axis true ;;
  broadcast2 rdiv X total.

End NormOps.

(** ** Scalars *)

(** Exact scalars: a rational, or [None] for a value outside the rationals
    (a division by zero, an irrational power or exponential).  There is no
    rounding and no overflow, and one [None] stands for every non-number. *)
Definition xq : Type := option Q.

Definition xq_lift2 (f : Q -> Q -> Q) (a b : xq) : xq :=
  match a, b with
  | Some x, Some y => Some (f x y)
  | _, _ => None
  end.

Definition xq_div (a b : xq) : xq :=
  match a, b with
  | Some x, Some y => if Qeq_bool y 0 then None else Some (Qdiv x y)
  | _, _ => None
  end.

Definition xq_exp (a : xq) : xq :=
  match a with
  | Some x => if Qeq_bool x 0 then Some 1%Q else None
  | None => None
  end.

(** [x ** e] for an integer exponent [e]; a power with another exponent
    is not computed and yields [None]. *)
Definition xq_pow (a e : xq) : xq :=
  match a, e with
  | Some x, Some y =>
      let y := Qred y in
      if negb (Pos.eqb (Qden y) 1) then None
      else if (Qnum y <? 0) && Qeq_bool x 0 then None
      else Some (Qpower x (Qnum y))
  | _, _ => None
  end.

#[global] Instance xq_scalar : Scalar xq := {
  r0 := Some 0%Q;
  r1 := Some 1%Q;
  radd := xq_lift2 Qplus;
  rsub := xq_lift2 Qminus;
  rmul := xq_lift2 Qmult;
  rdiv := xq_div;
  rexp := xq_exp;
  rpow := xq_pow;
  rabs := option_map Qabs;
  rnat := fun n => Some (inject_Z (Z.of_nat n))
}.

(** Equality of exact scalars, up to the representation of rationals. *)
Definition xq_eq (a b : xq) : Prop :=
  match a, b with
  | Some x, Some y => Qeq x y
  | None, None => True
  | _, _ => False
  end.

(** Symbolic scalars: the expression the engine evaluates, over the entries
    [EVar idx] of an input array. *)
Inductive expr : Type :=
| EVar (idx : list nat)
| ENat (n : nat)
| EAdd (a b : expr)
| ESub (a b : expr)
| EMul (a b : expr)
| EDiv (a b : expr)
| EExp (a : expr)
| EPow (a b : expr)
| EAbs (a : expr).

#[global] Instance expr_scalar : Scalar expr := {
  r0 := ENat 0;
  r1 := ENat 1;
  radd := EAdd;
  rsub := ESub;
  rmul := EMul;
  rdiv := EDiv;
  rexp := EExp;
  rpow := EPow;
  rabs := EAbs;
  rnat := ENat
}.

(** The input entries an expression reads. *)
Fixpoint vars (e : expr) : list (list nat) :=
  match e with
  | EVar idx => [idx]
  | ENat _ => []
  | EAdd a b | ESub a b | EMul a b | EDiv a b | EPow a b => vars a ++ vars b
  | EExp a | EAbs a => vars a
  end.

(** The channels (last index component) an expression reads. *)
Definition channels (e : expr) : list nat :=
  nodup Nat.eq_dec (map (fun idx => last idx 0%nat) (vars e)).

(** The array of the input entries themselves. *)
Definition symbolic (ds : list nat) : NDArray expr := mkArr ds EVar.

(** The entries of a rank-1 and of a rank-2 array, listed. *)
Definition to_list1 {R} (A : NDArray R) : list R :=
  map (fun i => at_ A [i]) (seq 0 (nth 0 (dims A) 0%nat)).

Definition to_list2 {R} (A : NDArray R) : list (list R) :=
  map (fun i => map (fun j => at_ A [i; j]) (seq 0 (nth 1 (dims A) 0%nat)))
      (seq 0 (nth 0 (dims A) 0%nat)).

(** A rank-1 array from its entries. *)
Definition of_list1 {R} (d : R) (l : list R) : NDArray R :=
  mkArr [List.length l] (fun idx => nth (nth 0 idx 0%nat) l d).

(** ** The specification's wording, for comparison with the code *)

(** "output spatial size = input_size * stride; if pad mode is VALID,
    additionally add (kernel_size - 1) per axis". *)
Definition deconv_size (pad_type : pad_mode) (input_size stride_ kernel_size : Z) : Z :=
  match pad_type with
  | VALID => input_size * stride_ + (kernel_size - 1)
  | _ => input_size * stride_
  end.

(** "replicate the edge slice of the input (the first/last row or column)
    before/after times along that axis": entry [i] of the padded axis is
    entry [i - before] of the input, brought back to the nearest edge. *)
Definition edge_pad {R} (k before after : nat) (A : NDArray R) : NDArray R :=
  let n := nth k (dims A) 0%nat in
  mkArr (set_nth k (if Nat.eqb n 0 then 0 else before + n + after)%nat (dims A))
        (fun idx => at_ A (set_nth k (Nat.min (nth k idx 0 - before) (n - 1))%nat idx)).

Section StackSpec.
Context {T P : Type}.
Variable func : T -> P -> nat -> string -> M T.

(** "applies the layers in order, applying the corresponding nonlinearity
    after each layer except, when raw_output is requested, it is skipped
    after the final layer". *)
Fixpoint stack_spec (name : string) (raw_output : bool) (i : nat)
         (layers : list (P * (T -> T))) (X : T) : M T :=
  match layers with
  | [] => ret X
  | (param, f) :: rest =>
      X <- func X param i name ;;
      match rest with
      | [] => ret (if raw_output then X else f X)
      | _ :: _ => stack_spec name raw_output (S i) rest (f X)
      end
  end.

(** The number of entries of a per-layer list that a stack reads. *)
Definition nonlin_needed (n : nat) (raw_output : bool) : nat :=
  if raw_output then (n - 1)%nat else n.

End StackSpec.

(** The stride and pad mode a layer runs with, once the defaults are
    filled in. *)
Definition default_stride (param : LayerSpec) : Stride :=
  match stride param with Some s => s | None => (1, 1, 1, 1) end.

Definition default_pad (param : LayerSpec) : pad_mode :=
  match pad param with Some s => s | None => SAME end.

Definition with_defaults (param : LayerSpec) : LayerSpec :=
  _default_value_pad (_default_value_stride param (1, 1, 1, 1)) SAME.

(** Sample tensors: a static shape, with run-time dimensions that agree. *)
Definition blank (s : list Dim) (ds : list nat) : Tensor unit :=
  mkTensor s (mkArr ds (fun _ => tt)).

(** The list of nonlinearities a [nonlin] argument stands for, over [n]
    layers, and the fit of a per-layer list to the layers. *)
Definition nonlin_list {T} (nonlin : nonlin_arg T) (n : nat) : list (T -> T) :=
  match nonlin with
  | PerLayer fs => fs
  | Single f => repeat f n
  end.

Definition nonlin_fits {T} (nonlin : nonlin_arg T) (n : nat) : Prop :=
  match nonlin with
  | PerLayer fs => List.length fs = n
  | Single _ => True
  end.

(** A sample operator and nonlinearity that log their application: layer
    [p] appends [p], the nonlinearity appends [0]. *)
Definition log_layer (X : list nat) (p : nat) (i : nat) (name : string) : M (list nat) :=
  ret (X ++ [p]).

Definition log_nonlin (X : list nat) : list nat := X ++ [0%nat].

(** What [CONSTANT] padding is to produce for a [kw x kh] kernel: edge
    replication by [k//2] before and [k - k//2 - 1] after, along the width
    axis and then along the height axis. *)
Definition padded {R} (kw kh : Z) (x : NDArray R) : NDArray R :=
  edge_pad 2 (Z.to_nat (kh / 2)) (Z.to_nat (kh - kh / 2 - 1))
    (edge_pad 1 (Z.to_nat (kw / 2)) (Z.to_nat (kw - kw / 2 - 1)) x).

(** A sample input whose entries name their own position. *)
Definition sample (s : list Dim) (ds : list nat) : Tensor expr :=
  mkTensor s (symbolic ds).

(** ** conv_ops.py: gated convolution *)

(** The graph an operator returns, where it is more than one node. *)
Inductive Graph (R : Type) : Type :=
| GConv (n : ConvNode R)
| GTanh (g : Graph R)
| GSigmoid (g : Graph R)
| GMul (a b : Graph R).
Arguments GConv {R} n.
Arguments GTanh {R} g.
Arguments GSigmoid {R} g.
Arguments GMul {R} a b.

Section Gated.
Context {R : Type} `{Scalar R}.

(** Both calls of [conv] get the same [param]; the defaults the first call
    fills in are the ones the second would fill in. *)
Definition gated_conv (X : Tensor R) (param : LayerSpec) (name scope_name : string)
  : M (Graph R) :=
  Xf <- conv X param (name ++ "_f")%string scope_name ;;
  Xg <- conv X param (name ++ "_g")%string scope_name ;;
  ret (GMul (GTanh (GConv Xf)) (GSigmoid (GConv Xg))).

End Gated.

(** ** ops.py: affine *)

Definition msg_rank2 : string := "ndims == 2".

(** The [xw_plus_b] node that [affine] builds. *)
Record AffineNode (R : Type) : Type := mkAffine {
  af_input : Tensor R;
  af_W : Variable_;
  af_b : Variable_;
  af_name : string
}.
Arguments mkAffine {R} _ _ _ _.
Arguments af_input {R} _.
Arguments af_W {R} _.
Arguments af_b {R} _.
Arguments af_name {R} _.

Section Affine.
Context {R : Type}.

Definition affine (X : Tensor R) (dim_out : Z) (name scope_name : string)
  : M (AffineNode R) :=
  assert_ (Nat.eqb (List.length (get_shape X)) 2) msg_rank2 ;;;
  let dim_in := nth 1 (get_shape X) None in
  W <- match dim_in with
       | Some d => scoped_variable ("w_" ++ name)%string scope_name [d; dim_out]
       | None => raise ValueError
       end ;;
  b <- scoped_variable ("b_" ++ name)%string scope_name [dim_out] ;;
  ret (mkAffine X W b ("affine_" ++ name)%string).

End Affine.

(** Arrays with the same entries at every index. *)
Definition arr_ext {R} (A B : NDArray R) : Prop :=
  dims A = dims B /\ forall idx, at_ A idx = at_ B idx.

(** The [nonlin] argument as the layers from index [k] on see it. *)
Definition nonlin_from {T} (k : nat) (nonlin : nonlin_arg T) : nonlin_arg T :=
  match nonlin with
  | Single f => Single f
  | PerLayer fs => PerLayer (skipn k fs)
  end.

(** * Properties *)

(** ** Transposed convolution *)

Lemma if_dim_truthy (d : Dim) : truthy d = match if_dim d with Some _ => true | None => false end.
Proof. destruct d as [n|]; simpl; [destruct (n =? 0)|]; reflexivity. Qed.

Lemma if_dim_some (d : Dim) (n : Z) : if_dim d = Some n <-> d = Some n /\ n <> 0.
Proof.
  destruct d as [m|]; simpl.
  - destruct (Z.eqb_spec m 0); split; intros E; try discriminate.
    + destruct E as [E ?]; congruence.
    + inversion E; subst; auto.
    + destruct E as [E ?]; congruence.
  - split; [discriminate | intros [E _]; discriminate].
Qed.

Lemma scoped_variable_shape name scope_name shape reg v reg' :
  scoped_variable name scope_name shape reg = OK (v, reg') -> v_shape v = shape.
Proof.
  unfold scoped_variable. destruct (find_variable scope_name name reg) as [v0|].
  - destruct (list_eq_dec Z.eq_dec (v_shape v0) shape); intros E; inversion E; subst; auto.
  - intros E; inversion E; reflexivity.
Qed.

Lemma scoped_variable_fresh name scope_name shape reg :
  find_variable scope_name name reg = None ->
  scoped_variable name scope_name shape reg
  = OK (mkVar scope_name name shape, mkVar scope_name name shape :: reg).
Proof. unfold scoped_variable; intros ->; reflexivity. Qed.

Lemma with_defaults_kernel param : kernel (with_defaults param) = kernel param.
Proof. destruct param as [k [s|] [p|] b]; reflexivity. Qed.

Lemma with_defaults_bias param : bias (with_defaults param) = bias param.
Proof. destruct param as [k [s|] [p|] b]; reflexivity. Qed.

Lemma with_defaults_pad param : get_pad (with_defaults param) = ret (default_pad param).
Proof. destruct param as [k [s|] [p|] b]; reflexivity. Qed.

Lemma with_defaults_stride param :
  get_stride (with_defaults param) = ret (default_stride param).
Proof. destruct param as [k [s|] [p|] b]; reflexivity. Qed.

Lemma deconv_inv {R} (X : Tensor R) param name scope reg node reg' B W H C :
  tf_shape X = [B; W; H; C] ->
  deconv X param name scope reg = OK (node, reg') ->
  exists b w h c kw kh c_out c_in s0 sw sh s3,
    get_shape X = [b; w; h; c] /\
    match if_dim c with
    | Some cv => c_in = cv /\
                 (kernel param = [kw; kh; c_out] \/ kernel param = [kw; kh; cv; c_out])
    | None => kernel param = [kw; kh; c_out; c_in]
    end /\
    v_shape (dc_kernel node) = [kw; kh; c_out; if bias param then c_in + 1 else c_in] /\
    default_stride param = (s0, sw, sh, s3) /\
    dc_strides node = (s0, sw, sh, s3) /\
    dc_padding node = default_pad param /\
    dc_output_shape node =
      [B; deconv_size (default_pad param) W sw kw;
          deconv_size (default_pad param) H sh kh; nth 2 (kernel param) 0] /\
    dc_set_shape node =
      match if_dim w, if_dim h with
      | Some w', Some h' =>
          if (deconv_size (default_pad param) w' sw kw =? 0)
             || (deconv_size (default_pad param) h' sh kh =? 0)
          then None
          else Some [b; Some (deconv_size (default_pad param) w' sw kw);
                        Some (deconv_size (default_pad param) h' sh kh); Some c_out]
      | _, _ => None
      end.
Proof.
  intros HS HD. unfold deconv in HD. cbv zeta in HD.
  fold (with_defaults param) in HD.
  rewrite with_defaults_kernel, with_defaults_bias, with_defaults_pad,
    with_defaults_stride, HS in HD.
  destruct (get_shape X) as [|b [|w [|h [|c [|? ?]]]]] eqn:EG; try discriminate HD.
  exists b, w, h, c.
  destruct (default_stride param) as [[[s0 sw] sh] s3] eqn:ES.
  simpl nth in HD. simpl List.length in HD.
  destruct (if_dim c) as [cv|] eqn:EC;
    destruct (kernel param) as [|kw [|kh [|k2 [|k3 [|? ?]]]]] eqn:EK;
    try discriminate HD;
    destruct (bias param) eqn:EB; simpl in HD; unfold bind, ret in HD; simpl in HD.
  all: try discriminate HD.
  all: try (destruct (Z.eqb_spec k2 cv) as [->|]; simpl in HD; [|discriminate HD]).
  all: match type of HD with
       | context [scoped_variable ?n ?s ?sh ?rg] =>
           destruct (scoped_variable n s sh rg) as [[v r]|] eqn:ESV; [|discriminate HD];
           apply scoped_variable_shape in ESV
       end.
  all: rewrite !if_dim_truthy in HD.
  all: destruct (if_dim w) as [w'|] eqn:EW; destruct (if_dim h) as [h'|] eqn:EH;
       destruct (default_pad param) eqn:EP; simpl in HD.
  all: rewrite ?if_dim_truthy, ?EW, ?EH in HD; simpl in HD.
  all: try (apply if_dim_some in EW as [-> ?]); try (apply if_dim_some in EH as [-> ?]).
  all: simpl in HD; inversion HD; subst node reg'; simpl.
  all: clear HD.
  all: do 8 eexists.
  all: split; [reflexivity|].
  all: split;
    [first [split; [reflexivity | first [left; reflexivity | right; reflexivity]]
           | reflexivity]|].
  all: split; [exact ESV|].
  all: split; [reflexivity|].
  all: split; [reflexivity|].
  all: split; [reflexivity|].
  all: split;
    [cbn; unfold deconv_size;
     repeat match goal with
            | |- _ :: _ = _ :: _ => f_equal
            end; try reflexivity; lia|].
  all: unfold deconv_size;
    repeat match goal with
           | |- context [?a =? 0] => destruct (a =? 0)
           end; reflexivity.
Qed.

Lemma deconv_succeeds {R} (X : Tensor R) param name scope reg b w h c kw kh c_out c_in :
  get_shape X = [b; w; h; c] ->
  match if_dim c with
  | Some cv => kernel param = [kw; kh; c_out] \/ kernel param = [kw; kh; cv; c_out]
  | None => kernel param = [kw; kh; c_out; c_in]
  end ->
  find_variable scope ("kernel_" ++ name)%string reg = None ->
  exists node reg', deconv X param name scope reg = OK (node, reg').
Proof.
  intros EG HK HF. unfold deconv. cbv zeta.
  fold (with_defaults param).
  rewrite with_defaults_kernel, with_defaults_bias, with_defaults_pad,
    with_defaults_stride, EG.
  simpl nth. simpl List.length.
  destruct (default_stride param) as [[[s0 sw] sh] s3].
  destruct (if_dim c) as [cv|]; [destruct HK as [HK|HK]|]; rewrite HK;
    destruct (bias param); simpl; unfold bind, ret; simpl;
    rewrite ?Z.eqb_refl; simpl;
    rewrite scoped_variable_fresh by exact HF;
    destruct (truthy w && truthy h); destruct (pad_mode_eqb (default_pad param) VALID);
    simpl; eauto.
Qed.

Lemma deconv_mismatch {R} (X : Tensor R) param name scope reg b w h c cv kw kh t2 t3 :
  get_shape X = [b; w; h; c] ->
  if_dim c = Some cv ->
  kernel param = [kw; kh; t2; t3] ->
  t2 <> cv ->
  deconv X param name scope reg = Raise (AssertionError msg_disagree).
Proof.
  intros EG EC HK HN. unfold deconv. cbv zeta.
  fold (with_defaults param).
  rewrite with_defaults_kernel, EG. simpl nth. simpl List.length.
  rewrite EC, HK. simpl. unfold bind, ret; simpl.
  destruct (Z.eqb_spec t2 cv); [contradiction | reflexivity].
Qed.

Lemma shape_compatible_rank4 {R} (X : Tensor R) b w h c :
  shape_compatible X -> get_shape X = [b; w; h; c] ->
  exists B W H C, tf_shape X = [B; W; H; C] /\
                  dim_compatible b B /\ dim_compatible w W /\
                  dim_compatible h H /\ dim_compatible c C.
Proof.
  unfold shape_compatible. intros HC EG. rewrite EG in HC.
  destruct (tf_shape X) as [|B [|W [|H' [|C [|? ?]]]]];
    repeat match goal with
           | HF : Forall2 _ _ _ |- _ => inversion HF; clear HF; subst
           end.
  exists B, W, H', C. auto.
Qed.

(** With a length-3 kernel tuple and a known, non-zero channel count the
    channel count of the input becomes the last entry of the kernel shape. *)
Lemma deconv_infers_channels {R} (X : Tensor R) param name scope reg b w h c kw kh c_out :
  shape_compatible X ->
  get_shape X = [b; w; h; Some c] -> c <> 0 ->
  kernel param = [kw; kh; c_out] -> bias param = false ->
  find_variable scope ("kernel_" ++ name)%string reg = None ->
  exists node reg',
    deconv X param name scope reg = OK (node, reg') /\
    v_shape (dc_kernel node) = [kw; kh; c_out; c].
Proof.
  intros HC EG Hc HK HB HF.
  assert (EC : if_dim (Some c) = Some c) by (apply if_dim_some; auto).
  destruct (deconv_succeeds X param name scope reg b w h (Some c) kw kh c_out 0 EG)
    as (node & reg' & HD); auto.
  { rewrite EC. left; exact HK. }
  exists node, reg'. split; [exact HD|].
  destruct (shape_compatible_rank4 X _ _ _ _ HC EG) as (B & W & H' & C & HS & _).
  destruct (deconv_inv X param name scope reg node reg' B W H' C HS HD)
    as (b' & w' & h' & c' & kw' & kh' & co' & ci' & s0 & sw & sh & s3
        & EG' & HCH & HV & _).
  rewrite EG in EG'. inversion EG'; subst b' w' h' c'.
  rewrite EC, HK in HCH. destruct HCH as [-> [E|E]]; [|discriminate E].
  inversion E; subst. rewrite HV, HB. reflexivity.
Qed.

(** C1 (the code departs from the claim).  The docstring of [deconv] and the
    claim read a length-4 kernel tuple as [(kw, kh, c_out, c_in)]; the
    known-channel branch unpacks it as [(kw, kh, c_in_, c_out)].  On an input
    with 4 channels the tuple [(3, 3, 8, 4)], whose [c_in = 4] agrees with the
    input, is rejected, and the tuple [(3, 3, 4, 8)], whose [c_in = 8] does
    not agree, is accepted and yields a kernel of shape [[3; 3; 8; 4]]. *)
Theorem deconv_checks_third_entry :
  deconv (blank [Some 1; Some 5; Some 5; Some 4] [1; 5; 5; 4]%nat)
         (mkSpec [3; 3; 8; 4] None None false) "0" "deconv" []
  = Raise (AssertionError msg_disagree)
  /\ exists node reg',
       deconv (blank [Some 1; Some 5; Some 5; Some 4] [1; 5; 5; 4]%nat)
              (mkSpec [3; 3; 4; 8] None None false) "0" "deconv" []
       = OK (node, reg')
       /\ v_shape (dc_kernel node) = [3; 3; 8; 4].
Proof.
  split; [reflexivity|].
  lazy. eexists; eexists; split; reflexivity.
Qed.

(** C3 (the code departs from the claim).  Whenever [deconv] returns, the
    run-time output size per spatial axis is [input_size * stride], plus
    [kernel_size - 1] under [VALID], and the same formula on the static sizes
    gives the same numbers whenever both static spatial sizes are known.  But
    the guard [if w and h:] tests the truth value of the sizes: with a
    statically known spatial shape that has a zero size no static shape is
    declared, where the claim has it set to the statically computed one.  The
    guard is tested again, on the sizes computed, before [set_shape]; a shape
    is declared when the static sizes and the sizes computed from them are
    all non-zero, and none when a static size is unknown. *)
Theorem deconv_output_size {R} (X : Tensor R) param name scope reg node reg' :
  shape_compatible X ->
  deconv X param name scope reg = OK (node, reg') ->
  exists b w h c B W H C s0 sw sh s3 c_out,
    get_shape X = [b; w; h; c] /\ tf_shape X = [B; W; H; C] /\
    default_stride param = (s0, sw, sh, s3) /\
    let pad_type := default_pad param in
    let kw := nth 0 (kernel param) 0 in
    let kh := nth 1 (kernel param) 0 in
    slice 1 3 (dc_output_shape node)
    = [deconv_size pad_type W sw kw; deconv_size pad_type H sh kh] /\
    (forall w' h', w = Some w' -> h = Some h' ->
       [deconv_size pad_type w' sw kw; deconv_size pad_type h' sh kh]
       = slice 1 3 (dc_output_shape node)) /\
    (forall w' h', w = Some w' -> h = Some h' -> w' = 0 \/ h' = 0 ->
       dc_set_shape node = None) /\
    (forall w' h', w = Some w' -> h = Some h' -> w' <> 0 -> h' <> 0 ->
       deconv_size pad_type w' sw kw <> 0 -> deconv_size pad_type h' sh kh <> 0 ->
       dc_set_shape node
       = Some [b; Some (deconv_size pad_type w' sw kw);
                  Some (deconv_size pad_type h' sh kh); Some c_out]) /\
    (w = None \/ h = None -> dc_set_shape node = None).
Proof.
  intros HC HD.
  assert (HR : exists b w h c, get_shape X = [b; w; h; c]).
  { unfold deconv in HD.
    destruct (get_shape X) as [|b [|w [|h [|c [|? ?]]]]]; try discriminate HD; eauto. }
  destruct HR as (b & w & h & c & EG).
  destruct (shape_compatible_rank4 X _ _ _ _ HC EG)
    as (B & W & H' & C & HS & Hb & Hw & Hh & Hc).
  destruct (deconv_inv X param name scope reg node reg' B W H' C HS HD)
    as (b' & w1 & h1 & c' & kw & kh & co & ci & s0 & sw & sh & s3
        & EG' & HCH & HV & ES & _ & _ & HO & HSS).
  rewrite EG in EG'. inversion EG'; subst b' w1 h1 c'.
  assert (Hk : nth 0 (kernel param) 0 = kw /\ nth 1 (kernel param) 0 = kh).
  { destruct (if_dim c); [destruct HCH as [_ [E|E]]|]; try rewrite E; try rewrite HCH;
      split; reflexivity. }
  destruct Hk as [Hkw Hkh].
  exists b, w, h, c, B, W, H', C, s0, sw, sh, s3, co.
  cbv zeta. rewrite Hkw, Hkh, HO.
  repeat match goal with |- _ /\ _ => split end; try assumption; try reflexivity.
  - intros w' h' -> ->. simpl in Hw, Hh. subst. reflexivity.
  - intros w' h' -> -> HZ. rewrite HSS. simpl.
    destruct HZ as [-> | ->]; simpl; [reflexivity|].
    destruct (w' =? 0); reflexivity.
  - intros w' h' -> -> Hw' Hh' HW HH. rewrite HSS.
    assert (E1 : if_dim (Some w') = Some w') by (apply if_dim_some; auto).
    assert (E2 : if_dim (Some h') = Some h') by (apply if_dim_some; auto).
    rewrite E1, E2.
    apply Z.eqb_neq in HW, HH. rewrite HW, HH. reflexivity.
  - intros [-> | ->]; rewrite HSS; simpl; [reflexivity | destruct (if_dim w); reflexivity].
Qed.

Lemma deconv_output_size_witness :
  shape_compatible (blank [Some 1; Some 0; Some 5; Some 3] [1; 0; 5; 3]%nat)
  /\ exists node reg',
       deconv (blank [Some 1; Some 0; Some 5; Some 3] [1; 0; 5; 3]%nat)
              (mkSpec [3; 3; 8] None None false) "0" "deconv" [] = OK (node, reg')
       /\ slice 1 3 (dc_output_shape node) = [0; 5]
       /\ dc_set_shape node = None.
Proof.
  assert (HC : shape_compatible (blank [Some 1; Some 0; Some 5; Some 3] [1; 0; 5; 3]%nat))
    by (repeat constructor).
  split; [exact HC|].
  destruct (deconv (blank [Some 1; Some 0; Some 5; Some 3] [1; 0; 5; 3]%nat)
                   (mkSpec [3; 3; 8] None None false) "0" "deconv" [])
    as [[node reg']|e] eqn:HD; [|lazy in HD; discriminate HD].
  exists node, reg'. split; [reflexivity|].
  destruct (deconv_output_size _ _ _ _ _ _ _ HC HD)
    as (b & w & h & c & B & W & H & C & s0 & sw & sh & s3 & co
        & EG & ES & ED & HO & _ & HZ & _).
  simpl in EG, ES, ED. inversion EG; inversion ES; inversion ED; subst.
  split; [exact HO|].
  apply (HZ 0 5); [reflexivity | reflexivity | left; reflexivity].
Defined.




(** ** The stack combinator *)

Section StackProperties.
Context {T P : Type}.
Variable func : T -> P -> nat -> string -> M T.
Local Open Scope nat_scope.

Lemma nth_error_middle (pre fs : list (T -> T)) (f : T -> T) :
  nth_error (pre ++ f :: fs) (List.length pre) = Some f.
Proof. induction pre; simpl; auto. Qed.

(** The loop from index [i] on, where the nonlinearities not yet used are
    [fs], one per remaining layer. *)
Lemma stack_loop_spec (name : string) (raw_output : bool) (params : list P) :
  forall (pre fs : list (T -> T)) (X : T) (reg : Registry),
    List.length fs = List.length params ->
    stack_loop func (List.length pre + List.length params) (pre ++ fs) name
               raw_output (List.length pre) params X reg
    = stack_spec func name raw_output (List.length pre) (combine params fs) X reg.
Proof.
  induction params as [|p rest IH]; intros pre fs X reg HL.
  - reflexivity.
  - destruct fs as [|f fs']; [discriminate HL|].
    simpl in HL. injection HL as HL.
    simpl. unfold bind.
    destruct (func X p (List.length pre) name reg) as [[X1 r1]|e]; [|reflexivity].
    rewrite nth_error_middle.
    destruct rest as [|p' rest'].
    + destruct fs'; [|discriminate HL]. simpl.
      replace (List.length pre + 1 <? List.length pre + 1) with false
        by (symmetry; apply Nat.ltb_irrefl).
      destruct raw_output; reflexivity.
    + destruct fs' as [|f' fs'']; [discriminate HL|].
      cbn [List.length combine].
      replace (List.length pre + 1 <? List.length pre + S (S (List.length rest')))
        with true by (symmetry; apply Nat.ltb_lt; lia).
      rewrite orb_true_r. unfold ret at 1.
      specialize (IH (pre ++ [f]) (f' :: fs'') (f X1) r1 HL).
      rewrite <- app_assoc in IH. simpl app in IH.
      rewrite length_app in IH. cbn [List.length combine] in IH.
      replace (List.length pre + 1 + S (List.length rest'))
        with (List.length pre + S (S (List.length rest'))) in IH by lia.
      replace (List.length pre + 1) with (S (List.length pre)) in IH by lia.
      exact IH.
Qed.

(** C5.  The stack that [make_stack] produces applies the layers in order
    and each layer's nonlinearity right after it, except that the final
    layer's nonlinearity is skipped exactly when [raw_output] holds; a
    single nonlinearity stands for that nonlinearity at every layer.  (A
    per-layer list has one entry per layer here.) *)
Theorem generic_stack_in_order (X : T) (params : list P) (nonlin : nonlin_arg T)
        (name : string) (raw_output : bool) (reg : Registry) :
  nonlin_fits nonlin (List.length params) ->
  make_stack func X params nonlin name raw_output reg
  = stack_spec func name raw_output 0
               (combine params (nonlin_list nonlin (List.length params))) X reg.
Proof.
  intros HF. unfold make_stack, generic_stack.
  fold (nonlin_list nonlin (List.length params)).
  apply (stack_loop_spec name raw_output params []).
  destruct nonlin as [f|fs]; simpl in *; [apply repeat_length | exact HF].
Qed.

End StackProperties.

(** The example of the specification: three layers, one shared
    nonlinearity, [raw_output]: the nonlinearity follows layers 1 and 2 and
    not layer 3. *)
Example stack_of_three :
  make_stack log_layer [] [1; 2; 3]%nat (Single log_nonlin) "fc" true []
  = OK ([1; 0; 2; 0; 3]%nat, [])
  /\ make_stack log_layer [] [1; 2; 3]%nat (Single log_nonlin) "fc" false []
     = OK ([1; 0; 2; 0; 3; 0]%nat, []).
Proof. split; reflexivity. Qed.

Lemma generic_stack_in_order_witness :
  nonlin_fits (PerLayer [log_nonlin; log_nonlin; log_nonlin]) 3
  /\ make_stack log_layer [] [1; 2; 3]%nat
                (PerLayer [log_nonlin; log_nonlin; log_nonlin]) "fc" true []
     = stack_spec log_layer "fc" true 0
                  (combine [1; 2; 3]%nat [log_nonlin; log_nonlin; log_nonlin]) [] [].
Proof.
  split; [reflexivity|].
  exact (generic_stack_in_order log_layer [] [1; 2; 3]%nat
           (PerLayer [log_nonlin; log_nonlin; log_nonlin]) "fc" true [] eq_refl).
Defined.

(** ** The engine's primitives *)

Section EngineFacts.
Context {R : Type} `{Scalar R}.
Local Open Scope nat_scope.

Lemma set_nth_length {A} (k : nat) (x : A) (l : list A) :
  List.length (set_nth k x l) = List.length l.
Proof. revert k; induction l; destruct k; simpl; auto. Qed.

Lemma nth_set_nth {A} (k : nat) (x d : A) (l : list A) :
  k < List.length l -> nth k (set_nth k x l) d = x.
Proof.
  revert k; induction l; destruct k; simpl; intros; try lia; auto.
  apply IHl. lia.
Qed.

Lemma set_nth_set_nth {A} (k : nat) (x y : A) (l : list A) :
  set_nth k x (set_nth k y l) = set_nth k x l.
Proof. revert k; induction l; destruct k; simpl; intros; f_equal; auto. Qed.

Lemma tile_ok (A : NDArray R) (m : list Z) :
  List.length m = rank A -> Forall (fun z => (0 <= z)%Z) m ->
  tile A m
  = OK (mkArr (zip_with (fun d z => d * Z.to_nat z) (dims A) m)
              (fun idx => at_ A (zip_with Nat.modulo idx (dims A)))).
Proof.
  intros HL HF. unfold tile. rewrite HL, Nat.eqb_refl. simpl negb.
  replace (existsb (fun z => (z <? 0)%Z) m) with false; [reflexivity|].
  symmetry. clear HL. induction HF as [|z m Hz HF IH]; simpl; [reflexivity|].
  rewrite IH, orb_false_r. apply Z.ltb_ge. exact Hz.
Qed.

Lemma concat2_ok (k : nat) (A B : NDArray R) :
  k < rank A -> set_nth k 0 (dims A) = set_nth k 0 (dims B) ->
  concat2 k A B
  = OK (mkArr (set_nth k (dim k A + dim k B) (dims A))
              (fun idx =>
                 let i := nth k idx 0 in
                 if i <? dim k A then at_ A idx
                 else at_ B (set_nth k (i - dim k A) idx))).
Proof.
  intros HK HE. unfold concat2.
  apply Nat.ltb_lt in HK. rewrite HK. simpl negb.
  destruct (list_eq_dec Nat.eq_dec (set_nth k 0 (dims A)) (set_nth k 0 (dims B)));
    [reflexivity | contradiction].
Qed.

Local Arguments Nat.min : simpl never.
Local Arguments Nat.modulo : simpl never.
Local Arguments Nat.sub : simpl never.
Local Arguments Nat.mul : simpl never.
Local Arguments Nat.add : simpl never.
Local Arguments Z.to_nat : simpl never.
Local Arguments Nat.ltb : simpl never.

Lemma concat3_ok (k : nat) (t1 x t2 : NDArray R) :
  k < rank x ->
  set_nth k 0 (dims t1) = set_nth k 0 (dims x) ->
  set_nth k 0 (dims t2) = set_nth k 0 (dims x) ->
  concat k [t1; x; t2]
  = OK (mkArr (set_nth k (dim k t1 + (dim k x + dim k t2)) (dims t1))
              (fun idx =>
                 let i := nth k idx 0 in
                 if i <? dim k t1 then at_ t1 idx
                 else
                   let idx' := set_nth k (i - dim k t1) idx in
                   let i' := nth k idx' 0 in
                   if i' <? dim k x then at_ x idx'
                   else at_ t2 (set_nth k (i' - dim k x) idx'))).
Proof.
  intros HK H1 H2.
  assert (HR2 : k < rank t2).
  { unfold rank in *. rewrite <- (set_nth_length k 0 (dims t2)), H2, set_nth_length.
    exact HK. }
  assert (HR1 : k < rank t1).
  { unfold rank in *. rewrite <- (set_nth_length k 0 (dims t1)), H1, set_nth_length.
    exact HK. }
  unfold concat. apply Nat.ltb_lt in HR2. rewrite HR2. unfold rbind.
  rewrite (concat2_ok k x t2) by (auto; congruence). 
  rewrite concat2_ok.
  - unfold dim. cbn [dims]. rewrite nth_set_nth by exact HK. reflexivity.
  - exact (proj1 (Nat.ltb_lt _ _) ltac:(apply Nat.ltb_lt; exact HR1)).
  - simpl dims. rewrite set_nth_set_nth. exact H1.
Qed.

Lemma in_range4 (b w h c : nat) (idx : list nat) :
  in_range [b; w; h; c] idx ->
  exists i0 i1 i2 i3, idx = [i0; i1; i2; i3] /\ i0 < b /\ i1 < w /\ i2 < h /\ i3 < c.
Proof.
  unfold in_range. intros HF.
  destruct idx as [|i0 [|i1 [|i2 [|i3 [|? ?]]]]];
    repeat match goal with
           | HF : Forall2 _ _ _ |- _ => inversion HF; clear HF; subst
           end.
  exists i0, i1, i2, i3. auto.
Qed.

Lemma pad_width (x : NDArray R) (b w h c : nat) (wb wa : Z) :
  dims x = [b; w; h; c] -> (0 <= wb)%Z -> (0 <= wa)%Z ->
  exists P,
    (t1 <-r tile (take_first 1 1 x) [1; wb; 1; 1]%Z ;;
     t2 <-r tile (take_last 1 1 x) [1; wa; 1; 1]%Z ;;
     concat 1 [t1; x; t2]) = OK P
    /\ arr_eq P (edge_pad 1 (Z.to_nat wb) (Z.to_nat wa) x).
Proof.
  intros HD Hb Ha.
  rewrite tile_ok; [| unfold rank, take_first; simpl; rewrite HD; reflexivity
                    | repeat constructor; lia].
  rewrite tile_ok; [| unfold rank, take_last; simpl; rewrite HD; reflexivity
                    | repeat constructor; lia].
  unfold rbind.
  rewrite concat3_ok;
    [| unfold rank; rewrite HD; simpl; lia
     | unfold take_first, dim; cbn [dims]; rewrite HD; cbn [set_nth zip_with nth];
       change (Z.to_nat 1) with 1; rewrite !Nat.mul_1_r; reflexivity
     | unfold take_last, dim; cbn [dims]; rewrite HD; cbn [set_nth zip_with nth];
       change (Z.to_nat 1) with 1; rewrite !Nat.mul_1_r; reflexivity].
  eexists; split; [reflexivity|].
  unfold arr_eq, edge_pad, take_first, take_last, dim. cbn [dims at_].
  rewrite HD. cbn [set_nth zip_with nth].
  change (Z.to_nat 1) with 1. rewrite !Nat.mul_1_r.
  split.
  - destruct w as [|w'];
      [change (Nat.min 1 0) with 0 | change (Nat.min 1 (S w')) with 1];
      simpl Nat.eqb; cbv iota; do 2 f_equal; lia.
  - intros idx HI. apply in_range4 in HI.
    destruct HI as (i0 & i1 & i2 & i3 & -> & H0 & H1 & H2 & H3).
    cbn [set_nth zip_with nth].
    destruct w as [|w'];
      [change (Nat.min 1 0) with 0 in * | change (Nat.min 1 (S w')) with 1 in *];
      [lia|].
    rewrite !Nat.mul_1_l, !Nat.mod_1_r, !(Nat.mod_small i0 b), !(Nat.mod_small i2 h),
      !(Nat.mod_small i3 c) by assumption.
    destruct (Nat.ltb_spec i1 (Z.to_nat wb));
      [| destruct (Nat.ltb_spec (i1 - Z.to_nat wb) (S w'))];
      do 3 f_equal; lia.
Qed.

Lemma pad_height (x : NDArray R) (b w h c : nat) (hb ha : Z) :
  dims x = [b; w; h; c] -> (0 <= hb)%Z -> (0 <= ha)%Z ->
  exists P,
    (t1 <-r tile (take_first 2 1 x) [1; 1; hb; 1]%Z ;;
     t2 <-r tile (take_last 2 1 x) [1; 1; ha; 1]%Z ;;
     concat 2 [t1; x; t2]) = OK P
    /\ arr_eq P (edge_pad 2 (Z.to_nat hb) (Z.to_nat ha) x).
Proof.
  intros HD Hb Ha.
  rewrite tile_ok; [| unfold rank, take_first; simpl; rewrite HD; reflexivity
                    | repeat constructor; lia].
  rewrite tile_ok; [| unfold rank, take_last; simpl; rewrite HD; reflexivity
                    | repeat constructor; lia].
  unfold rbind.
  rewrite concat3_ok;
    [| unfold rank; rewrite HD; simpl; lia
     | unfold take_first, dim; cbn [dims]; rewrite HD; cbn [set_nth zip_with nth];
       change (Z.to_nat 1) with 1; rewrite !Nat.mul_1_r; reflexivity
     | unfold take_last, dim; cbn [dims]; rewrite HD; cbn [set_nth zip_with nth];
       change (Z.to_nat 1) with 1; rewrite !Nat.mul_1_r; reflexivity].
  eexists; split; [reflexivity|].
  unfold arr_eq, edge_pad, take_first, take_last, dim. cbn [dims at_].
  rewrite HD. cbn [set_nth zip_with nth].
  change (Z.to_nat 1) with 1. rewrite !Nat.mul_1_r.
  split.
  - destruct h as [|h'];
      [change (Nat.min 1 0) with 0 | change (Nat.min 1 (S h')) with 1];
      simpl Nat.eqb; cbv iota; do 3 f_equal; lia.
  - intros idx HI. apply in_range4 in HI.
    destruct HI as (i0 & i1 & i2 & i3 & -> & H0 & H1 & H2 & H3).
    cbn [set_nth zip_with nth].
    destruct h as [|h'];
      [change (Nat.min 1 0) with 0 in * | change (Nat.min 1 (S h')) with 1 in *];
      [lia|].
    rewrite !Nat.mul_1_l, !Nat.mod_1_r, !(Nat.mod_small i0 b), !(Nat.mod_small i1 w),
      !(Nat.mod_small i3 c) by assumption.
    destruct (Nat.ltb_spec i2 (Z.to_nat hb));
      [| destruct (Nat.ltb_spec (i2 - Z.to_nat hb) (S h'))];
      do 4 f_equal; lia.
Qed.

Lemma arr_eq_refl (A : NDArray R) : arr_eq A A.
Proof. split; auto. Qed.

Lemma arr_eq_trans (A B C : NDArray R) : arr_eq A B -> arr_eq B C -> arr_eq A C.
Proof.
  intros [D1 E1] [D2 E2]. split; [congruence|].
  intros idx HI. rewrite E1 by exact HI. apply E2. rewrite <- D1. exact HI.
Qed.

Lemma in_range_set_nth (ds idx : list nat) (k m j : nat) :
  in_range (set_nth k m ds) idx ->
  (nth k idx 0 < m -> j < nth k ds 0) ->
  in_range ds (set_nth k j idx).
Proof.
  unfold in_range. revert idx k. induction ds as [|d ds IH]; intros idx k HF HJ.
  - destruct k; simpl in *; inversion HF; constructor.
  - destruct k; simpl in *; inversion HF; subst; simpl in *.
    + constructor; auto.
    + constructor; [assumption|]. apply IH; assumption.
Qed.

Lemma edge_pad_arr_eq (k before after : nat) (A B : NDArray R) :
  arr_eq A B -> arr_eq (edge_pad k before after A) (edge_pad k before after B).
Proof.
  intros [HD HE]. unfold arr_eq, edge_pad. cbn [dims at_]. rewrite <- HD.
  split; [reflexivity|].
  intros idx HI. apply HE.
  apply (in_range_set_nth _ _ _ _ _ HI).
  destruct (nth k (dims A) 0) as [|n]; simpl Nat.eqb; cbv iota; lia.
Qed.

End EngineFacts.

(** ** Convolution *)

Section ConvFacts.
Context {R : Type} `{Scalar R}.

Lemma half_bounds (k : Z) : 1 <= k -> 0 <= k / 2 /\ 0 <= k - k / 2 - 1.
Proof.
  intros Hk. pose proof (Z.div_mod k 2 ltac:(lia)) as E.
  pose proof (Z.mod_pos_bound k 2 ltac:(lia)) as B. lia.
Qed.

Lemma _constant_pad_ok (X : Tensor R) (kw kh : Z) (c_in c_out : option Z)
      (reg : Registry) (b w h c : nat) :
  List.length (get_shape X) = 4%nat ->
  dims (run X) = [b; w; h; c] ->
  1 <= kw -> 1 <= kh ->
  exists Xp,
    _constant_pad X [Some kw; Some kh; c_in; c_out] reg = OK (Xp, reg)
    /\ arr_eq (run Xp) (padded kw kh (run X)).
Proof.
  intros HS HD Hw Hh.
  destruct (half_bounds kw Hw) as [Hwb Hwa].
  destruct (half_bounds kh Hh) as [Hhb Hha].
  destruct (pad_width (run X) b w h c _ _ HD Hwb Hwa) as (P1 & E1 & A1).
  assert (HD1 : exists w1, dims P1 = [b; w1; h; c]).
  { destruct A1 as [D1 _]. rewrite D1. unfold edge_pad. cbn [dims]. rewrite HD.
    cbn [set_nth]. eauto. }
  destruct HD1 as (w1 & HD1).
  destruct (pad_height P1 b w1 h c _ _ HD1 Hhb Hha) as (P2 & E2 & A2).
  unfold _constant_pad. rewrite HS. cbn [Nat.eqb List.length firstn].
  unfold bind, assert_, ret, lift. cbv zeta.
  rewrite E1, E2.
  eexists. split; [reflexivity|]. cbn [run].
  eapply arr_eq_trans; [exact A2|]. apply edge_pad_arr_eq. exact A1.
Qed.

Lemma tile_inv (A P : NDArray R) (m : list Z) :
  tile A m = OK P -> List.length m = rank A /\ Forall (fun z => 0 <= z) m.
Proof.
  unfold tile. destruct (Nat.eqb_spec (List.length m) (rank A)) as [E|E];
    [|discriminate].
  simpl negb. cbv iota.
  destruct (existsb (fun z => z <? 0) m) eqn:EX; [discriminate|].
  intros _. split; [exact E|].
  apply Forall_forall. intros z Hz.
  destruct (Z.ltb_spec z 0) as [Hn|Hn]; [|exact Hn].
  exfalso. assert (existsb (fun z => z <? 0) m = true).
  { apply existsb_exists. exists z. split; [exact Hz | apply Z.ltb_lt; exact Hn]. }
  congruence.
Qed.

Lemma _constant_pad_inv (X Xp : Tensor R) (ker : list (option Z)) (reg reg' : Registry) :
  _constant_pad X ker reg = OK (Xp, reg') ->
  exists kw kh c_in c_out,
    ker = [Some kw; Some kh; c_in; c_out] /\ 1 <= kw /\ 1 <= kh
    /\ arr_eq (run Xp) (padded kw kh (run X)).
Proof.
  intros HP. pose proof HP as HP0. unfold _constant_pad in HP.
  destruct (Nat.eqb_spec (List.length (get_shape X)) 4) as [HS|]; [|discriminate HP].
  destruct ker as [|[kw|] [|[kh|] [|c_in [|c_out [|? ?]]]]]; try discriminate HP.
  cbn [List.length Nat.eqb firstn] in HP.
  unfold bind, assert_, ret, lift in HP. cbv zeta in HP.
  destruct (tile (take_first 1 1 (run X)) [1; kw / 2; 1; 1]) as [t1|] eqn:T1;
    [|discriminate HP].
  destruct (tile (take_last 1 1 (run X)) [1; kw - kw / 2 - 1; 1; 1]) as [t2|] eqn:T2;
    [|discriminate HP].
  destruct (tile_inv _ _ _ T1) as [L1 F1]. destruct (tile_inv _ _ _ T2) as [_ F2].
  assert (HD : exists b w h c, dims (run X) = [b; w; h; c]).
  { unfold rank, take_first in L1. cbn [dims] in L1.
    rewrite set_nth_length in L1. simpl in L1.
    destruct (dims (run X)) as [|b [|w [|h [|c [|? ?]]]]]; try discriminate L1.
    eauto. }
  destruct HD as (b & w & h & c & HD).
  assert (Hwb : 0 <= kw / 2) by (inversion F1 as [|? ? _ F]; inversion F; assumption).
  assert (Hwa : 0 <= kw - kw / 2 - 1)
    by (inversion F2 as [|? ? _ F]; inversion F; assumption).
  destruct (pad_width (run X) b w h c _ _ HD Hwb Hwa) as (P1 & E1 & A1).
  rewrite T1, T2 in E1. rewrite E1 in HP.
  destruct (tile (take_first 2 1 P1) [1; 1; kh / 2; 1]) as [t3|] eqn:T3;
    [|discriminate HP].
  destruct (tile (take_last 2 1 P1) [1; 1; kh - kh / 2 - 1; 1]) as [t4|] eqn:T4;
    [|discriminate HP].
  destruct (tile_inv _ _ _ T3) as [_ F3]. destruct (tile_inv _ _ _ T4) as [_ F4].
  assert (Hhb : 0 <= kh / 2)
    by (inversion F3 as [|? ? _ F]; inversion F as [|? ? _ F']; inversion F'; assumption).
  assert (Hha : 0 <= kh - kh / 2 - 1)
    by (inversion F4 as [|? ? _ F]; inversion F as [|? ? _ F']; inversion F'; assumption).
  assert (Hkw : 1 <= kw) by lia. assert (Hkh : 1 <= kh) by lia.
  destruct (_constant_pad_ok X kw kh c_in c_out reg b w h c HS HD Hkw Hkh)
    as (Xp' & EP & AP).
  rewrite EP in HP0. inversion HP0; subst Xp' reg'.
  exists kw, kh, c_in, c_out. auto.
Qed.

Lemma stride_eqb_eq (s t : Stride) : stride_eqb s t = true <-> s = t.
Proof.
  destruct s as [[[a b] c] d], t as [[[a' b'] c'] d']. unfold stride_eqb.
  rewrite !andb_true_iff, !Z.eqb_eq. split.
  - intros [[[-> ->] ->] ->]. reflexivity.
  - intros E. inversion E. auto.
Qed.

Lemma concat_ones_ok (X : Tensor R) (reg : Registry) (b w h c : nat) :
  dims (run X) = [b; w; h; c] ->
  exists Xb,
    concat_ones X reg = OK (Xb, reg)
    /\ get_shape Xb = concat_ones_shape (get_shape X)
    /\ dims (run Xb) = [b; w; h; (c + 1)%nat].
Proof.
  intros HD. unfold concat_ones, bind, lift, ret, concat, rbind.
  assert (E : Nat.ltb 3 (rank (ones (R:=R) (firstn 3 (dims (run X)) ++ [1%nat]))) = true).
  { rewrite HD. reflexivity. }
  rewrite E.
  rewrite concat2_ok.
  - eexists. split; [reflexivity|]. split; [reflexivity|].
    cbn [run dims]. unfold dim, ones. cbn [dims]. rewrite HD. reflexivity.
  - unfold rank. rewrite HD. simpl. lia.
  - unfold ones. cbn [dims]. rewrite HD. reflexivity.
Qed.

Lemma concat_ones_reg (X Xb : Tensor R) (reg r : Registry) :
  concat_ones X reg = OK (Xb, r) -> r = reg.
Proof.
  unfold concat_ones, bind, lift, ret.
  destruct (concat 3 [run X; ones (firstn 3 (dims (run X)) ++ [1%nat])]);
    intros E; inversion E; reflexivity.
Qed.

Lemma conv_constant_inv (X : Tensor R) param name scope reg node reg' :
  default_pad param = CONSTANT ->
  conv X param name scope reg = OK (node, reg') ->
  exists kw kh c_out Xin,
    kernel param = [kw; kh; c_out] /\ 1 <= kw /\ 1 <= kh
    /\ (if bias param then concat_ones X reg = OK (Xin, reg) else Xin = X)
    /\ arr_eq (run (cv_input node)) (padded kw kh (run Xin))
    /\ cv_padding node = VALID
    /\ cv_strides node = (1, 1, 1, 1)
    /\ default_stride param = (1, 1, 1, 1).
Proof.
  intros HP HC. unfold conv in HC. cbv zeta in HC.
  fold (with_defaults param) in HC.
  rewrite with_defaults_kernel, with_defaults_bias, with_defaults_pad,
    with_defaults_stride, HP in HC.
  unfold bind, assert_, ret, raise in HC.
  destruct (Nat.eqb (List.length (get_shape X)) 4); [|discriminate HC].
  destruct (kernel param) as [|kw [|kh [|c_out [|? ?]]]] eqn:EK; try discriminate HC.
  cbn [unpack3 ret] in HC. unfold ret in HC.
  exists kw, kh, c_out.
  assert (HB : exists c_in Xin,
             (if bias param then concat_ones X reg = OK (Xin, reg) else Xin = X)
             /\ match
                   (if stride_eqb (default_stride param) (1, 1, 1, 1)
                    then OK (tt, reg)
                    else Raise (AssertionError msg_stride))
                 with
                 | OK (_, r0) =>
                     match _constant_pad Xin [Some kw; Some kh; c_in; Some c_out] r0 with
                     | OK (Xp, r1) =>
                         match
                           match c_in with
                           | Some c =>
                               scoped_variable ("kernel_" ++ name) scope [kw; kh; c; c_out]
                           | None => fun _ : Registry => Raise ValueError
                           end r1
                         with
                         | OK (v, r2) =>
                             OK (mkConv Xp v (default_stride param) VALID
                                        ("conv_" ++ name)%string, r2)
                         | Raise e => Raise e
                         end
                     | Raise e => Raise e
                     end
                 | Raise e => Raise e
                 end = OK (node, reg')).
  { destruct (bias param).
    - destruct (nth 3 (get_shape X) None) as [c|]; [|discriminate HC].
      destruct (concat_ones X reg) as [[Xb r]|] eqn:EC; [|discriminate HC].
      pose proof (concat_ones_reg _ _ _ _ EC). subst r.
      exists (Some (c + 1)), Xb. split; [reflexivity|].
      change (pad_mode_eqb CONSTANT CONSTANT) with true in HC. cbv iota in HC.
      destruct (stride_eqb (default_stride param) (1, 1, 1, 1)); [|discriminate HC].
      destruct (_constant_pad Xb _ reg) as [[Xp r1]|]; [|discriminate HC].
      exact HC.
    - exists (nth 3 (get_shape X) None), X. split; [reflexivity|].
      change (pad_mode_eqb CONSTANT CONSTANT) with true in HC. cbv iota in HC.
      destruct (stride_eqb (default_stride param) (1, 1, 1, 1)); [|discriminate HC].
      destruct (_constant_pad X _ reg) as [[Xp r1]|]; [|discriminate HC].
      exact HC. }
  clear HC. destruct HB as (c_in & Xin & HB & HC). exists Xin.
  destruct (stride_eqb (default_stride param) (1, 1, 1, 1)) eqn:ES; [|discriminate HC].
  apply stride_eqb_eq in ES.
  destruct (_constant_pad Xin _ reg) as [[Xp r1]|] eqn:EP; [|discriminate HC].
  destruct (_constant_pad_inv _ _ _ _ _ EP) as (kw' & kh' & ci & co & EQ & Hkw & Hkh & HA).
  inversion EQ; subst kw' kh' ci co.
  destruct c_in as [c|]; [|discriminate HC].
  destruct (scoped_variable _ _ _ r1) as [[v r2]|]; [|discriminate HC].
  inversion HC; subst node reg'. cbn [cv_input cv_padding cv_strides].
  split; [reflexivity|]. split; [exact Hkw|]. split; [exact Hkh|].
  split; [exact HB|]. split; [exact HA|]. auto.
Qed.

Lemma conv_constant_stride_fails (X : Tensor R) param name scope reg :
  default_pad param = CONSTANT ->
  default_stride param <> (1, 1, 1, 1) ->
  exists e, conv X param name scope reg = Raise e.
Proof.
  intros HP HS. unfold conv. cbv zeta.
  fold (with_defaults param).
  rewrite with_defaults_kernel, with_defaults_bias, with_defaults_pad,
    with_defaults_stride, HP.
  unfold bind, assert_, ret, raise.
  assert (ES : stride_eqb (default_stride param) (1, 1, 1, 1) = false).
  { destruct (stride_eqb (default_stride param) (1, 1, 1, 1)) eqn:E; [|reflexivity].
    apply stride_eqb_eq in E. contradiction. }
  destruct (Nat.eqb (List.length (get_shape X)) 4); [|eauto].
  destruct (kernel param) as [|kw [|kh [|c_out [|? ?]]]]; cbn [unpack3]; unfold raise; eauto.
  unfold ret.
  destruct (bias param).
  - destruct (nth 3 (get_shape X) None) as [c|]; [|eauto].
    destruct (concat_ones X reg) as [[Xb r]|]; [|eauto].
    change (pad_mode_eqb CONSTANT CONSTANT) with true. cbv iota. rewrite ES. eauto.
  - change (pad_mode_eqb CONSTANT CONSTANT) with true. cbv iota. rewrite ES. eauto.
Qed.

Lemma conv_constant_stride_assertion (X : Tensor R) param name scope reg
      sb sw sh c_in kw kh c_out :
  default_pad param = CONSTANT ->
  default_stride param <> (1, 1, 1, 1) ->
  get_shape X = [sb; sw; sh; c_in] ->
  kernel param = [kw; kh; c_out] -> bias param = false ->
  conv X param name scope reg = Raise (AssertionError msg_stride).
Proof.
  intros HP HS EG EK EB. unfold conv. cbv zeta. fold (with_defaults param).
  rewrite with_defaults_kernel, with_defaults_bias, with_defaults_pad,
    with_defaults_stride, HP, EG, EK, EB.
  unfold bind, assert_, ret, raise. cbn [List.length Nat.eqb unpack3 nth]. unfold ret.
  change (pad_mode_eqb CONSTANT CONSTANT) with true. cbv iota.
  destruct (stride_eqb (default_stride param) (1, 1, 1, 1)) eqn:E; [|reflexivity].
  apply stride_eqb_eq in E. contradiction.
Qed.

(** The entries of an edge-padded axis: [before] copies of the first
    slice, the input, then copies of the last slice. *)
Lemma edge_pad_entries (k before after : nat) (A : NDArray R) (idx : list nat) :
  let i := nth k idx 0%nat in
  let n := nth k (dims A) 0%nat in
  at_ (edge_pad k before after A) idx
  = at_ A (set_nth k (if Nat.ltb i before then 0
                      else if Nat.ltb i (before + n) then i - before
                      else n - 1)%nat idx).
Proof.
  cbv zeta. unfold edge_pad. cbn [at_]. do 2 f_equal.
  destruct (Nat.ltb_spec (nth k idx 0%nat) before);
    [| destruct (Nat.ltb_spec (nth k idx 0%nat) (before + nth k (dims A) 0%nat))]; lia.
Qed.

Lemma edge_pad_dim (k before after : nat) (A : NDArray R) :
  (k < rank A)%nat -> (0 < nth k (dims A) 0)%nat ->
  nth k (dims (edge_pad k before after A)) 0%nat
  = (before + nth k (dims A) 0 + after)%nat.
Proof.
  intros HK HN. unfold edge_pad. cbn [dims]. rewrite nth_set_nth by exact HK.
  destruct (Nat.eqb_spec (nth k (dims A) 0%nat) 0); [lia | reflexivity].
Qed.

(** The errors of the engine's primitives and of the collaborators. *)
Lemma tile_raise (A : NDArray R) (m : list Z) (e : exn) :
  tile A m = Raise e -> e = ValueError.
Proof.
  unfold tile. destruct (negb _); [intros E; inversion E; reflexivity|].
  destruct (existsb _ _); intros E; inversion E; reflexivity.
Qed.

Lemma concat2_raise (k : nat) (A B : NDArray R) (e : exn) :
  concat2 k A B = Raise e -> e = ValueError.
Proof.
  unfold concat2. destruct (negb _); [intros E; inversion E; reflexivity|].
  destruct (negb _); intros E; inversion E; reflexivity.
Qed.

Lemma concat_raise (k : nat) (l : list (NDArray R)) (e : exn) :
  concat k l = Raise e -> e = ValueError.
Proof.
  induction l as [|A l IH]; simpl; [intros E; inversion E; reflexivity|].
  destruct l as [|B l'].
  - destruct (Nat.ltb k (rank A)); intros E; inversion E; reflexivity.
  - unfold rbind. destruct (concat k (B :: l')) as [C|e'].
    + apply concat2_raise.
    + intros E; inversion E; subst. apply IH. reflexivity.
Qed.

Lemma concat_ones_raise (X : Tensor R) (reg : Registry) (e : exn) :
  concat_ones X reg = Raise e -> e = ValueError.
Proof.
  unfold concat_ones, bind, lift, ret.
  destruct (concat 3 _) as [x|e'] eqn:EC; [discriminate|].
  intros E; inversion E; subst. apply (concat_raise _ _ _ EC).
Qed.

Lemma _constant_pad_raise (X : Tensor R) ker (reg : Registry) (e : exn) :
  _constant_pad X ker reg = Raise e ->
  e = AssertionError msg_rank \/ e = AssertionError msg_ker_len
  \/ e = TypeError \/ e = ValueError.
Proof.
  unfold _constant_pad, bind, assert_, ret, raise, lift.
  destruct (Nat.eqb (List.length (get_shape X)) 4);
    [|intros E; inversion E; auto].
  destruct (Nat.eqb (List.length ker) 4); [|intros E; inversion E; auto].
  destruct (firstn 2 ker) as [|[kw|] [|[kh|] [|? ?]]];
    try (intros E; inversion E; auto; fail).
  cbv zeta. unfold rbind.
  destruct (tile (take_first 1 1 (run X)) _) as [t1|e1] eqn:T1;
    [|intros E; inversion E; subst; apply tile_raise in T1; auto].
  destruct (tile (take_last 1 1 (run X)) _) as [t2|e2] eqn:T2;
    [|intros E; inversion E; subst; apply tile_raise in T2; auto].
  destruct (concat 1 _) as [P1|e3] eqn:C1;
    [|intros E; inversion E; subst; apply concat_raise in C1; auto].
  destruct (tile (take_first 2 1 P1) _) as [t3|e4] eqn:T3;
    [|intros E; inversion E; subst; apply tile_raise in T3; auto].
  destruct (tile (take_last 2 1 P1) _) as [t4|e5] eqn:T4;
    [|intros E; inversion E; subst; apply tile_raise in T4; auto].
  destruct (concat 2 _) as [P2|e6] eqn:C2;
    [|intros E; inversion E; subst; apply concat_raise in C2; auto].
  discriminate.
Qed.

Lemma scoped_variable_raise name scope shape reg e :
  scoped_variable name scope shape reg = Raise e -> e = ValueError.
Proof.
  unfold scoped_variable. destruct (find_variable scope name reg) as [v|]; [|discriminate].
  destruct (list_eq_dec Z.eq_dec (v_shape v) shape); intros E; inversion E; reflexivity.
Qed.

(** With the identity stride the assertion on the stride does not fire. *)
Lemma conv_stride_assertion_passes (X : Tensor R) param name scope reg :
  default_stride param = (1, 1, 1, 1) ->
  conv X param name scope reg <> Raise (AssertionError msg_stride).
Proof.
  intros HS HC. unfold conv in HC. cbv zeta in HC. fold (with_defaults param) in HC.
  rewrite with_defaults_kernel, with_defaults_bias, with_defaults_pad,
    with_defaults_stride, HS in HC.
  unfold bind, assert_, ret, raise in HC.
  change (stride_eqb (1, 1, 1, 1) (1, 1, 1, 1)) with true in HC. cbv iota in HC.
  destruct (Nat.eqb (List.length (get_shape X)) 4); [|discriminate HC].
  destruct (kernel param) as [|kw [|kh [|c_out [|? ?]]]]; try discriminate HC.
  cbn [unpack3] in HC. unfold ret in HC.
  assert (HV : forall c r,
             scoped_variable ("kernel_" ++ name) scope c r
             <> Raise (AssertionError msg_stride)).
  { intros c r E. apply scoped_variable_raise in E. discriminate E. }
  assert (HP : forall (Xi : Tensor R) k r,
             _constant_pad Xi k r <> Raise (AssertionError msg_stride)).
  { intros Xi k r E. apply _constant_pad_raise in E.
    destruct E as [E|[E|[E|E]]]; discriminate E. }
  destruct (bias param).
  - destruct (nth 3 (get_shape X) None) as [c|]; [|discriminate HC].
    destruct (concat_ones X reg) as [[Xb r]|e] eqn:EO.
    + destruct (pad_mode_eqb (default_pad param) CONSTANT).
      * destruct (_constant_pad Xb _ r) as [[Xp r1]|e] eqn:EP.
        -- destruct (scoped_variable _ _ _ r1) as [[v r2]|e] eqn:EV; [discriminate HC|].
           inversion HC; subst. exact (HV _ _ EV).
        -- inversion HC; subst. exact (HP _ _ _ EP).
      * destruct (scoped_variable _ _ _ r) as [[v r2]|e] eqn:EV; [discriminate HC|].
        inversion HC; subst. exact (HV _ _ EV).
    + inversion HC; subst. apply concat_ones_raise in EO. discriminate EO.
  - destruct (pad_mode_eqb (default_pad param) CONSTANT).
    + destruct (_constant_pad X _ reg) as [[Xp r1]|e] eqn:EP.
      * destruct (nth 3 (get_shape X) None) as [c|]; [|discriminate HC].
        destruct (scoped_variable _ _ _ r1) as [[v r2]|e] eqn:EV; [discriminate HC|].
        inversion HC; subst. exact (HV _ _ EV).
      * inversion HC; subst. exact (HP _ _ _ EP).
    + destruct (nth 3 (get_shape X) None) as [c|]; [|discriminate HC].
      destruct (scoped_variable _ _ _ reg) as [[v r2]|e] eqn:EV; [discriminate HC|].
      inversion HC; subst. exact (HV _ _ EV).
Qed.

(** C2.  Under pad mode [CONSTANT] and for a kernel of spatial size
    [kw x kh], every call of [conv] that returns has the identity stride and
    has handed to the underlying convolution, in [VALID] mode, the padding of
    its input (with its channel of ones, if [bias] is set): [kw // 2] copies
    of the first width slice before and [kw - kw // 2 - 1] copies of the last
    width slice after, then along the height axis [kh // 2] copies of the
    first and [kh - kh // 2 - 1] copies of the last height slice of the
    result, a total of [k - 1] per axis.  The padding itself, [_constant_pad],
    returns this tensor for every rank-4 tensor. *)
Theorem conv_constant_pads (X : Tensor R) param name scope reg kw kh c_out :
  default_pad param = CONSTANT ->
  kernel param = [kw; kh; c_out] -> 1 <= kw -> 1 <= kh ->
  (forall node reg',
     conv X param name scope reg = OK (node, reg') ->
     exists Xin,
       (if bias param then concat_ones X reg = OK (Xin, reg) else Xin = X)
       /\ arr_eq (run (cv_input node)) (padded kw kh (run Xin))
       /\ cv_padding node = VALID
       /\ cv_strides node = (1, 1, 1, 1)
       /\ default_stride param = (1, 1, 1, 1))
  /\ (forall (Xin : Tensor R) (b w h c : nat) (c_in c_out' : option Z),
        List.length (get_shape Xin) = 4%nat -> dims (run Xin) = [b; w; h; c] ->
        exists Xp,
          _constant_pad Xin [Some kw; Some kh; c_in; c_out'] reg = OK (Xp, reg)
          /\ arr_eq (run Xp) (padded kw kh (run Xin)))
  /\ (Z.to_nat (kw / 2) + Z.to_nat (kw - kw / 2 - 1) = Z.to_nat (kw - 1))%nat
  /\ (Z.to_nat (kh / 2) + Z.to_nat (kh - kh / 2 - 1) = Z.to_nat (kh - 1))%nat.
Proof.
  intros HP EK Hkw Hkh. split; [|split].
  - intros node reg' HD.
    destruct (conv_constant_inv X param name scope reg node reg' HP HD)
      as (kw' & kh' & co' & Xin & EK' & _ & _ & HB & HA & HV & HS' & HS).
    rewrite EK in EK'. inversion EK'; subst kw' kh' co'.
    exists Xin. auto.
  - intros Xin b w h c c_in c_out' HL HD.
    apply (_constant_pad_ok Xin kw kh c_in c_out' reg b w h c); assumption.
  - destruct (half_bounds kw Hkw). destruct (half_bounds kh Hkh). split; lia.
Qed.

(** C8.  Under pad mode [CONSTANT], a stride other than [(1, 1, 1, 1)]
    makes [conv] fail, by the assertion on the stride once the call reaches
    it.  With the identity stride the [CONSTANT] branch does not fail: the
    assertion on the stride does not fire, and the padding that follows it
    returns, for a rank-4 input and a kernel of positive sizes. *)
Theorem conv_constant_stride (X : Tensor R) param name scope reg :
  default_pad param = CONSTANT ->
  (default_stride param <> (1, 1, 1, 1) ->
   (exists e, conv X param name scope reg = Raise e)
   /\ (forall sb sw sh c_in kw kh c_out,
         get_shape X = [sb; sw; sh; c_in] ->
         kernel param = [kw; kh; c_out] -> bias param = false ->
         conv X param name scope reg = Raise (AssertionError msg_stride)))
  /\ (default_stride param = (1, 1, 1, 1) ->
      conv X param name scope reg <> Raise (AssertionError msg_stride)
      /\ (forall kw kh c_out (b w h c : nat),
            kernel param = [kw; kh; c_out] -> 1 <= kw -> 1 <= kh ->
            List.length (get_shape X) = 4%nat -> dims (run X) = [b; w; h; c] ->
            exists Xin,
              (if bias param then concat_ones X reg = OK (Xin, reg) else Xin = X)
              /\ forall c_in c_out',
                   exists Xp,
                     _constant_pad Xin [Some kw; Some kh; c_in; c_out'] reg
                     = OK (Xp, reg))).
Proof.
  intros HP. split.
  - intros HS. split.
    + apply conv_constant_stride_fails; assumption.
    + intros. eapply conv_constant_stride_assertion; eassumption.
  - intros HS. split; [apply conv_stride_assertion_passes; exact HS|].
    intros kw kh c_out b w h c EK Hkw Hkh HL HD.
    destruct (bias param).
    + destruct (concat_ones_ok X reg b w h c HD) as (Xb & EC & ESh & EDm).
      exists Xb. split; [exact EC|]. intros c_in c_out'.
      destruct (_constant_pad_ok Xb kw kh c_in c_out' reg b w h (c + 1)%nat)
        as (Xp & EP & _); auto.
      * rewrite ESh. unfold concat_ones_shape, slice.
        destruct (get_shape X) as [|? [|? [|? [|? [|? ?]]]]]; try discriminate HL.
        reflexivity.
      * eauto.
    + exists X. split; [reflexivity|]. intros c_in c_out'.
      destruct (_constant_pad_ok X kw kh c_in c_out' reg b w h c) as (Xp & EP & _); auto.
      eauto.
Qed.

End ConvFacts.

(** The example of the specification: a [1 x 5 x 5 x 1] input under a
    [3 x 3] kernel is padded to [1 x 7 x 7 x 1], each border entry being the
    nearest entry of the input. *)
Example conv_constant_5x5 :
  match conv (sample [Some 1; Some 5; Some 5; Some 1] [1; 5; 5; 1]%nat)
             (mkSpec [3; 3; 1] None (Some CONSTANT) false) "0" "conv" [] with
  | OK (node, _) =>
      dims (run (cv_input node)) = [1; 7; 7; 1]%nat
      /\ at_ (run (cv_input node)) [0; 0; 0; 0]%nat = EVar [0; 0; 0; 0]%nat
      /\ at_ (run (cv_input node)) [0; 1; 1; 0]%nat = EVar [0; 0; 0; 0]%nat
      /\ at_ (run (cv_input node)) [0; 3; 6; 0]%nat = EVar [0; 2; 4; 0]%nat
      /\ at_ (run (cv_input node)) [0; 6; 6; 0]%nat = EVar [0; 4; 4; 0]%nat
      /\ cv_padding node = VALID
  | Raise _ => False
  end.
Proof. lazy. repeat split. Qed.

Lemma conv_constant_pads_witness :
  default_pad (mkSpec [3; 3; 1] None (Some CONSTANT) false) = CONSTANT
  /\ 1 <= 3
  /\ exists node reg',
       conv (sample [Some 1; Some 5; Some 5; Some 1] [1; 5; 5; 1]%nat)
            (mkSpec [3; 3; 1] None (Some CONSTANT) false) "0" "conv" []
       = OK (node, reg')
       /\ arr_eq (run (cv_input node)) (padded 3 3 (symbolic [1; 5; 5; 1]%nat))
       /\ cv_padding node = VALID
       /\ cv_strides node = (1, 1, 1, 1).
Proof.
  split; [reflexivity|]. split; [lia|].
  destruct (conv (sample [Some 1; Some 5; Some 5; Some 1] [1; 5; 5; 1]%nat)
                 (mkSpec [3; 3; 1] None (Some CONSTANT) false) "0" "conv" [])
    as [[node reg']|e] eqn:HD; [|lazy in HD; discriminate HD].
  exists node, reg'. split; [reflexivity|].
  destruct (proj1 (conv_constant_pads
                     (sample [Some 1; Some 5; Some 5; Some 1] [1; 5; 5; 1]%nat)
                     (mkSpec [3; 3; 1] None (Some CONSTANT) false) "0" "conv" []
                     3 3 1 eq_refl eq_refl ltac:(lia) ltac:(lia)) node reg' HD)
    as (Xin & HB & HA & HV & HS & _).
  simpl in HB. subst Xin.
  split; [exact HA|]. split; assumption.
Defined.

Lemma conv_constant_stride_witness :
  default_pad (mkSpec [3; 3; 1] (Some (1, 2, 2, 1)) (Some CONSTANT) false) = CONSTANT
  /\ conv (sample [Some 1; Some 5; Some 5; Some 1] [1; 5; 5; 1]%nat)
          (mkSpec [3; 3; 1] (Some (1, 2, 2, 1)) (Some CONSTANT) false) "0" "conv" []
     = Raise (AssertionError msg_stride)
  /\ conv (sample [Some 1; Some 5; Some 5; Some 1] [1; 5; 5; 1]%nat)
          (mkSpec [3; 3; 1] None (Some CONSTANT) false) "0" "conv" []
     <> Raise (AssertionError msg_stride)
  /\ exists Xp,
       _constant_pad (sample [Some 1; Some 5; Some 5; Some 1] [1; 5; 5; 1]%nat)
                     [Some 3; Some 3; Some 1; Some 1] []
       = OK (Xp, []).
Proof.
  split; [reflexivity|]. split; [|split].
  - apply (proj1 (conv_constant_stride
                    (sample [Some 1; Some 5; Some 5; Some 1] [1; 5; 5; 1]%nat)
                    (mkSpec [3; 3; 1] (Some (1, 2, 2, 1)) (Some CONSTANT) false)
                    "0" "conv" [] eq_refl) ltac:(discriminate))
      with (sb := Some 1) (sw := Some 5) (sh := Some 5) (c_in := Some 1)
           (kw := 3) (kh := 3) (c_out := 1); reflexivity.
  - exact (proj1 (proj2 (conv_constant_stride
                           (sample [Some 1; Some 5; Some 5; Some 1] [1; 5; 5; 1]%nat)
                           (mkSpec [3; 3; 1] None (Some CONSTANT) false)
                           "0" "conv" [] eq_refl) eq_refl)).
  - destruct (proj2 (proj2 (conv_constant_stride
                              (sample [Some 1; Some 5; Some 5; Some 1] [1; 5; 5; 1]%nat)
                              (mkSpec [3; 3; 1] None (Some CONSTANT) false)
                              "0" "conv" [] eq_refl) eq_refl)
                    3 3 1 1%nat 5%nat 5%nat 1%nat eq_refl ltac:(lia) ltac:(lia)
                    eq_refl eq_refl)
      as (Xin & HB & HP).
    simpl in HB. subst Xin. exact (HP (Some 1) (Some 1)).
Defined.

(** ** Norm and normalization *)

Section NormalizeFacts.
Local Open Scope nat_scope.

Lemma reduce_sum_single {R} `{Scalar R} (A : NDArray R) (k : nat) :
  k < rank A -> reduce_sum A (Some [k]) true = OK (reduce_axis k A).
Proof.
  intros HK. unfold reduce_sum. cbn [forallb fold_left].
  apply Nat.ltb_lt in HK. rewrite HK. reflexivity.
Qed.

Lemma bcast_rev_keep (d1 d2 : list nat) :
  Forall2 (fun a b => b = a \/ b = 1) d1 d2 -> bcast_rev d1 d2 = Some d1.
Proof.
  induction 1 as [|a b d1 d2 HB HF IH]; [reflexivity|].
  simpl. rewrite IH.
  destruct (Nat.eqb_spec a b); [reflexivity|].
  destruct HB as [->| ->]; [contradiction|].
  destruct (Nat.eqb_spec a 1); [congruence | reflexivity].
Qed.

Lemma Forall2_set_nth_one (k : nat) (ds : list nat) :
  Forall2 (fun a b => b = a \/ b = 1) ds (set_nth k 1 ds).
Proof.
  revert k. induction ds as [|d ds IH]; intros k; destruct k; simpl; constructor; auto.
  clear. induction ds; constructor; auto.
Qed.

Lemma Forall2_rev_both {A B} (P : A -> B -> Prop) (l1 : list A) (l2 : list B) :
  Forall2 P l1 l2 -> Forall2 P (rev l1) (rev l2).
Proof.
  induction 1; simpl; [constructor|].
  apply Forall2_app; [assumption | constructor; [assumption | constructor]].
Qed.

Lemma bcast_dims_keep (k : nat) (ds : list nat) :
  bcast_dims ds (set_nth k 1 ds) = Some ds.
Proof.
  unfold bcast_dims.
  rewrite (bcast_rev_keep (rev ds) (rev (set_nth k 1 ds))).
  - simpl. rewrite rev_involutive. reflexivity.
  - apply Forall2_rev_both. apply Forall2_set_nth_one.
Qed.

Lemma bcast_index_self (ds idx : list nat) :
  in_range ds idx -> bcast_index ds idx = idx.
Proof.
  unfold in_range, bcast_index. intros HF.
  rewrite (Forall2_length HF), Nat.sub_diag. simpl skipn.
  induction HF as [|i d idx ds Hlt HF IH]; [reflexivity|].
  simpl. rewrite IH. destruct (Nat.eqb_spec d 1); [f_equal; lia | reflexivity].
Qed.

Lemma bcast_index_kept (ds idx : list nat) (k : nat) :
  in_range ds idx -> k < List.length ds ->
  bcast_index (set_nth k 1 ds) idx = set_nth k 0 idx.
Proof.
  unfold in_range, bcast_index. intros HF.
  rewrite set_nth_length, (Forall2_length HF), Nat.sub_diag. simpl skipn.
  revert k. induction HF as [|i d idx ds Hlt HF IH]; intros k HK; [simpl in HK; lia|].
  destruct k; simpl.
  - f_equal. clear - HF. induction HF as [|i d idx ds Hlt HF IH]; [reflexivity|].
    simpl. rewrite IH. destruct (Nat.eqb_spec d 1); [f_equal; lia | reflexivity].
  - rewrite IH by (simpl in HK; lia).
    destruct (Nat.eqb_spec d 1); [f_equal; lia | reflexivity].
Qed.

Local Open Scope Q_scope.

(** Sums of rationals, as the engine folds them. *)
Lemma qsum_acc (l : list Q) (a : Q) :
  fold_left Qplus l a == a + fold_left Qplus l 0.
Proof.
  revert a. induction l as [|x l IH]; intros a; simpl.
  - ring.
  - rewrite IH. rewrite (IH (0 + x)). ring.
Qed.

Lemma qsum_div (l : list Q) (s : Q) :
  fold_left Qplus (map (fun x => x / s) l) 0 == fold_left Qplus l 0 / s.
Proof.
  induction l as [|x l IH]; simpl.
  - unfold Qdiv. ring.
  - rewrite qsum_acc, IH, (qsum_acc l (0 + x)). unfold Qdiv. ring.
Qed.

Lemma sum_list_some (l : list Q) (a : Q) :
  fold_left (xq_lift2 Qplus) (map Some l) (Some a) = Some (fold_left Qplus l a).
Proof. revert a. induction l as [|x l IH]; intros a; simpl; auto. Qed.

(** Over exact rationals, [normalize] of a tensor of non-negative numbers
    sums to 1 along the axis wherever the sum of the input along the axis is
    not zero.  (Rounding and overflow are not part of these scalars.) *)
Lemma normalize_sums_to_one (X : NDArray xq) (k : nat) :
  (k < rank X)%nat ->
  (forall idx, in_range (dims X) idx -> exists q, at_ X idx = Some q /\ 0 <= q) ->
  exists N Sm,
    normalize X (AxisInt k) = OK N
    /\ reduce_sum N (Some [k]) true = OK Sm
    /\ dims Sm = set_nth k 1%nat (dims X)
    /\ forall idx,
         in_range (dims Sm) idx ->
         ~ xq_eq (at_ (reduce_axis k X) idx) (Some 0) ->
         xq_eq (at_ Sm idx) (Some 1).
Proof.
  intros HK HX.
  unfold normalize, _validate_axes. rewrite reduce_sum_single by exact HK.
  unfold rbind, broadcast2. cbn [dims reduce_axis]. rewrite bcast_dims_keep.
  eexists. eexists. split; [reflexivity|].
  rewrite reduce_sum_single by exact HK.
  split; [reflexivity|]. cbn [dims reduce_axis]. split; [reflexivity|].
  intros idx HI HS. cbn [at_] in *. unfold dim in *. cbn [dims] in *.
  set (n := nth k (dims X) 0%nat) in *.
  set (q := fun j => match at_ X (set_nth k j idx) with Some x => x | None => 0 end).
  assert (HQ : forall j, In j (seq 0 n) -> at_ X (set_nth k j idx) = Some (q j)).
  { intros j Hj. apply in_seq in Hj.
    destruct (HX (set_nth k j idx)) as (x & Ex & _).
    - apply (in_range_set_nth _ _ _ _ _ HI). intros _. fold n. lia.
    - unfold q. rewrite Ex. reflexivity. }
  set (sigma := fold_left Qplus (map q (seq 0 n)) 0).
  assert (HSum : fold_left radd (map (fun j => at_ X (set_nth k j idx)) (seq 0 n)) r0
                 = Some sigma).
  { rewrite (map_ext_in (fun j => at_ X (set_nth k j idx)) (fun j => Some (q j)) _ HQ).
    rewrite <- (map_map q Some). apply sum_list_some. }
  assert (HNZ : ~ sigma == 0).
  { intros E. apply HS. unfold reduce_axis, sum_list, dim. cbn [at_ dims].
    fold n. rewrite HSum. exact E. }
  unfold reduce_axis, sum_list, dim. cbn [at_ dims]. fold n.
  rewrite (map_ext_in _ (fun j => Some (q j / sigma))).
  - rewrite <- (map_map (fun j => q j / sigma) Some).
    change r0 with (Some 0). change radd with (xq_lift2 Qplus).
    rewrite sum_list_some. simpl.
    rewrite <- (map_map q (fun x => x / sigma)).
    rewrite qsum_div. fold sigma. field. exact HNZ.
  - intros j Hj. pose proof Hj as Hj'. apply in_seq in Hj'.
    assert (HR : in_range (dims X) (set_nth k j idx)).
    { apply (in_range_set_nth _ _ _ _ _ HI). intros _. fold n. lia. }
    rewrite bcast_index_self by exact HR.
    rewrite bcast_index_kept by (exact HR || exact HK).
    rewrite (map_ext _ (fun j' => at_ X (set_nth k j' idx)))
      by (intros j'; rewrite !set_nth_set_nth; reflexivity).
    rewrite HSum, (HQ j Hj). simpl.
    destruct (Qeq_bool sigma 0) eqn:EB; [|reflexivity].
    apply Qeq_bool_iff in EB. contradiction.
Qed.
End NormalizeFacts.

(** C9 (the code departs from the claim).  [normalize] divides by the sum
    along the axis without a guard for a zero sum: the tensor [[0, 0]] is
    non-negative, its normalization along axis 0 is [0 / 0] at both entries,
    not a number, and so is the sum of the result along the axis, where the
    docstring and the claim have 1. *)
Theorem normalize_zero_sum :
  (forall idx, in_range [2%nat] idx ->
     exists q, at_ (of_list1 (None : xq) [Some 0%Q; Some 0%Q]) idx = Some q /\ (0 <= q)%Q)
  /\ match normalize (of_list1 (None : xq) [Some 0%Q; Some 0%Q]) (AxisInt 0) with
     | OK N =>
         to_list1 N = [None; None]
         /\ match reduce_sum N (Some [0%nat]) true with
            | OK Sm => dims Sm = [1%nat] /\ at_ Sm [0%nat] = None
                       /\ ~ xq_eq (at_ Sm [0%nat]) (Some 1%Q)
            | Raise _ => False
            end
     | Raise _ => False
     end.
Proof.
  split.
  - intros idx HI. inversion HI as [|i d l l' Hi HF]; subst. inversion HF; subst.
    exists 0%Q. split; [|apply Qle_refl].
    destruct i as [|[|i]]; [reflexivity | reflexivity | lia].
  - vm_compute. repeat split. intros E; exact E.
Qed.

(** C7 (the code departs from the claim).  [norm] raises the entries to the
    power [p] without taking absolute values first.  For [X = [-1]] and
    [p = 1] it returns [-1], with or without the root, where the p-norm is
    [1]; for [X = [-2, 1]], [p = 3] and no root it returns [-7], where the
    sum of [|x|^3] is [9]. *)
Theorem norm_without_abs :
  match norm (of_list1 (None : xq) [Some ((-1) # 1)%Q]) AxisNone false (Some 1%Q) true,
        norm_spec (of_list1 (None : xq) [Some ((-1) # 1)%Q]) AxisNone false (Some 1%Q) true,
        norm (of_list1 (None : xq) [Some ((-1) # 1)%Q]) AxisNone false (Some 1%Q) false
  with
  | OK A, OK B, OK C =>
      dims A = [] /\ at_ A [] = Some ((-1) # 1)%Q /\ at_ B [] = Some 1%Q
      /\ at_ C [] = Some ((-1) # 1)%Q
  | _, _, _ => False
  end
  /\ match norm (of_list1 (None : xq) [Some ((-2) # 1)%Q; Some 1%Q])
                (AxisInt 0) false (Some (3 # 1)%Q) false,
           norm_spec (of_list1 (None : xq) [Some ((-2) # 1)%Q; Some 1%Q])
                     (AxisInt 0) false (Some (3 # 1)%Q) false
     with
     | OK A, OK B => at_ A [] = Some ((-7) # 1)%Q /\ at_ B [] = Some (9 # 1)%Q
     | _, _ => False
     end.
Proof. vm_compute. repeat split. Qed.

(** ** Spatial softmax *)

(** C4 (the code departs from the claim).  On an input with two channels
    the result, of shape [[1; 4]], lists the two [fx] values and then the two
    [fy] values: positions 0 and 2 read channel 0 and positions 1 and 3 read
    channel 1, where a per-channel packing of pairs has channel 0 at
    positions 0 and 1.  On an input that is not square the call fails. *)
Theorem spatial_softmax_packing :
  match spatial_softmax (sample [Some 1; Some 2; Some 2; Some 2] [1; 2; 2; 2]%nat) with
  | OK A => dims A = [1; 4]%nat
            /\ map (map channels) (to_list2 A) = [[[0]; [1]; [0]; [1]]]%nat
  | Raise _ => False
  end
  /\ spatial_softmax (sample [Some 1; Some 2; Some 3; Some 1] [1; 2; 3; 1]%nat)
     = Raise ValueError.
Proof. vm_compute. repeat split. Qed.

(** * Further properties *)

(** ** Convolution: the kernel variable *)

(** ** Variables of the registry *)

Lemma pad_mode_eqb_eq (a b : pad_mode) : pad_mode_eqb a b = true <-> a = b.
Proof. destruct a, b; simpl; split; intros E; try reflexivity; discriminate E. Qed.

Lemma find_variable_some scope name reg v :
  find_variable scope name reg = Some v -> v_scope v = scope /\ v_name v = name.
Proof.
  unfold find_variable. intros E. apply find_some in E as [_ E].
  apply andb_true_iff in E as [E1 E2].
  apply String.eqb_eq in E1, E2. auto.
Qed.

Lemma find_variable_head scope name shape reg :
  find_variable scope name (mkVar scope name shape :: reg) = Some (mkVar scope name shape).
Proof. unfold find_variable. simpl. rewrite !String.eqb_refl. reflexivity. Qed.

Lemma scoped_variable_inv name scope shape reg v reg' :
  scoped_variable name scope shape reg = OK (v, reg') ->
  v_scope v = scope /\ v_name v = name /\ v_shape v = shape
  /\ (reg' = reg \/ reg' = v :: reg)
  /\ find_variable scope name reg' = Some v.
Proof.
  unfold scoped_variable.
  destruct (find_variable scope name reg) as [v0|] eqn:EF.
  - destruct (list_eq_dec Z.eq_dec (v_shape v0) shape) as [ES|]; intros E; inversion E; subst.
    destruct (find_variable_some _ _ _ _ EF). auto 6.
  - intros E; inversion E; subst. cbn [v_scope v_name v_shape].
    repeat split; auto. apply find_variable_head.
Qed.

Lemma scoped_variable_found name scope shape reg v :
  find_variable scope name reg = Some v -> v_shape v = shape ->
  scoped_variable name scope shape reg = OK (v, reg).
Proof.
  unfold scoped_variable. intros -> ES.
  destruct (list_eq_dec Z.eq_dec (v_shape v) shape); [reflexivity | contradiction].
Qed.

Lemma scoped_variable_again name scope shape reg v reg' :
  scoped_variable name scope shape reg = OK (v, reg') ->
  scoped_variable name scope shape reg' = OK (v, reg').
Proof.
  intros E. destruct (scoped_variable_inv _ _ _ _ _ _ E) as (_ & _ & ES & _ & EF).
  apply scoped_variable_found; assumption.
Qed.

Section ConvKernel.
Context {R : Type} `{Scalar R}.

Lemma _constant_pad_pure (X Xp : Tensor R) ker (reg r : Registry) :
  _constant_pad X ker reg = OK (Xp, r) ->
  r = reg /\ forall reg2, _constant_pad X ker reg2 = OK (Xp, reg2).
Proof.
  unfold _constant_pad, bind, assert_, ret, raise, lift.
  destruct (Nat.eqb (List.length (get_shape X)) 4); [|discriminate].
  destruct (Nat.eqb (List.length ker) 4); [|discriminate].
  destruct (firstn 2 ker) as [|[kw|] [|[kh|] [|? ?]]]; try discriminate.
  cbv zeta.
  match goal with |- context [rbind ?a ?f] => destruct (rbind a f) as [P1|]; [|discriminate] end.
  match goal with |- context [rbind ?a ?f] => destruct (rbind a f) as [P2|]; [|discriminate] end.
  intros E; inversion E; subst. auto.
Qed.

Lemma concat_ones_pure (X Xb : Tensor R) (reg r : Registry) :
  concat_ones X reg = OK (Xb, r) ->
  r = reg /\ forall reg2, concat_ones X reg2 = OK (Xb, reg2).
Proof.
  unfold concat_ones, bind, lift, ret.
  destruct (concat 3 [run X; ones (firstn 3 (dims (run X)) ++ [1%nat])]);
    intros E; inversion E; auto.
Qed.


Ltac conv_cases HC :=
  unfold conv in HC; cbv zeta in HC;
  match type of HC with
  | context [_default_value_pad (_default_value_stride ?p _) _] =>
      fold (with_defaults p) in HC
  end;
  rewrite with_defaults_kernel, with_defaults_bias, with_defaults_pad,
    with_defaults_stride in HC;
  unfold bind, assert_, ret, raise in HC;
  destruct (Nat.eqb (List.length (get_shape _)) 4) eqn:ERank; [|discriminate HC].

(** The kernel of a call of [conv] that returns. *)
Lemma conv_kernel_inv (X : Tensor R) param name scope reg node reg' :
  conv X param name scope reg = OK (node, reg') ->
  exists kw kh c_out c,
    kernel param = [kw; kh; c_out]
    /\ nth 3 (get_shape X) None = Some c
    /\ v_scope (cv_kernel node) = scope
    /\ v_name (cv_kernel node) = ("kernel_" ++ name)%string
    /\ v_shape (cv_kernel node) = [kw; kh; (if bias param then c + 1 else c); c_out]
    /\ cv_name node = ("conv_" ++ name)%string
    /\ (reg' = reg \/ reg' = cv_kernel node :: reg).
Proof.
  intros HC. conv_cases HC.
  destruct (kernel param) as [|kw [|kh [|c_out [|? ?]]]] eqn:EK; try discriminate HC.
  cbn [unpack3] in HC. unfold ret in HC.
  exists kw, kh, c_out.
  destruct (bias param);
    destruct (nth 3 (get_shape X) None) as [c|] eqn:EC; try discriminate HC.
  - destruct (concat_ones X reg) as [[Xb r]|] eqn:EO; [|discriminate HC].
    apply concat_ones_pure in EO as [-> _].
    destruct (pad_mode_eqb (default_pad param) CONSTANT).
    + destruct (stride_eqb (default_stride param) (1, 1, 1, 1)); [|discriminate HC].
      destruct (_constant_pad Xb _ reg) as [[Xp r]|] eqn:EP; [|discriminate HC].
      apply _constant_pad_pure in EP as [-> _].
      destruct (scoped_variable _ _ _ reg) as [[v r]|] eqn:EV; [|discriminate HC].
      apply scoped_variable_inv in EV as (E1 & E2 & E3 & E4 & _).
      inversion HC; subst node reg'. exists c. cbn. auto 10.
    + destruct (scoped_variable _ _ _ reg) as [[v r]|] eqn:EV; [|discriminate HC].
      apply scoped_variable_inv in EV as (E1 & E2 & E3 & E4 & _).
      inversion HC; subst node reg'. exists c. cbn. auto 10.
  - destruct (pad_mode_eqb (default_pad param) CONSTANT).
    + destruct (stride_eqb (default_stride param) (1, 1, 1, 1)); [|discriminate HC].
      destruct (_constant_pad X _ reg) as [[Xp r]|] eqn:EP; [|discriminate HC].
      apply _constant_pad_pure in EP as [-> _].
      destruct (scoped_variable _ _ _ reg) as [[v r]|] eqn:EV; [|discriminate HC].
      apply scoped_variable_inv in EV as (E1 & E2 & E3 & E4 & _).
      inversion HC; subst node reg'. exists c. cbn. auto 10.
    + destruct (scoped_variable _ _ _ reg) as [[v r]|] eqn:EV; [|discriminate HC].
      apply scoped_variable_inv in EV as (E1 & E2 & E3 & E4 & _).
      inversion HC; subst node reg'. exists c. cbn. auto 10.
  - destruct (pad_mode_eqb (default_pad param) CONSTANT).
    + destruct (stride_eqb (default_stride param) (1, 1, 1, 1)); [|discriminate HC].
      destruct (_constant_pad X _ reg) as [[Xp r]|] eqn:EP; discriminate HC.
    + discriminate HC.
Qed.

(** X1.  Every call of [conv] that returns has read a kernel tuple
    [(kw, kh, c_out)] and a known channel count [c]; its kernel is the
    variable [kernel_<name>] of the given scope, of shape
    [[kw; kh; c; c_out]] (with [c + 1] in place of [c] under [bias]); the node
    is named [conv_<name>]; the registry is left as it was or gains this one
    variable. *)
Theorem conv_kernel_variable (X : Tensor R) param name scope reg node reg' :
  conv X param name scope reg = OK (node, reg') ->
  exists kw kh c_out c,
    kernel param = [kw; kh; c_out]
    /\ nth 3 (get_shape X) None = Some c
    /\ v_scope (cv_kernel node) = scope
    /\ v_name (cv_kernel node) = ("kernel_" ++ name)%string
    /\ v_shape (cv_kernel node) = [kw; kh; (if bias param then c + 1 else c); c_out]
    /\ cv_name node = ("conv_" ++ name)%string
    /\ (reg' = reg \/ reg' = cv_kernel node :: reg).
Proof. apply conv_kernel_inv. Qed.

(** X2.  A second call of [conv] with the same arguments, in the registry
    the first call left, returns the same node, kernel included, and leaves
    the registry as it is: the layer shares its weights. *)
Theorem conv_reuses_kernel (X : Tensor R) param name scope reg node reg' :
  conv X param name scope reg = OK (node, reg') ->
  conv X param name scope reg' = OK (node, reg').
Proof.
  intros HC. conv_cases HC.
  unfold conv. cbv zeta. fold (with_defaults param).
  rewrite with_defaults_kernel, with_defaults_bias, with_defaults_pad,
    with_defaults_stride.
  unfold bind, assert_, ret, raise. rewrite ERank.
  destruct (kernel param) as [|kw [|kh [|c_out [|? ?]]]] eqn:EK; try discriminate HC.
  cbn [unpack3] in *. unfold ret in *.
  destruct (bias param);
    destruct (nth 3 (get_shape X) None) as [c|] eqn:EC; try discriminate HC.
  - destruct (concat_ones X reg) as [[Xb r]|] eqn:EO; [|discriminate HC].
    apply concat_ones_pure in EO as [-> EO]. rewrite EO.
    destruct (pad_mode_eqb (default_pad param) CONSTANT).
    + destruct (stride_eqb (default_stride param) (1, 1, 1, 1)); [|discriminate HC].
      destruct (_constant_pad Xb _ reg) as [[Xp r]|] eqn:EP; [|discriminate HC].
      apply _constant_pad_pure in EP as [-> EP]. rewrite EP.
      destruct (scoped_variable _ _ _ reg) as [[v r]|] eqn:EV; [|discriminate HC].
      apply scoped_variable_again in EV.
      inversion HC; subst node reg'. rewrite EV. reflexivity.
    + destruct (scoped_variable _ _ _ reg) as [[v r]|] eqn:EV; [|discriminate HC].
      apply scoped_variable_again in EV.
      inversion HC; subst node reg'. rewrite EV. reflexivity.
  - destruct (pad_mode_eqb (default_pad param) CONSTANT).
    + destruct (stride_eqb (default_stride param) (1, 1, 1, 1)); [|discriminate HC].
      destruct (_constant_pad X _ reg) as [[Xp r]|] eqn:EP; [|discriminate HC].
      apply _constant_pad_pure in EP as [-> EP]. rewrite EP.
      destruct (scoped_variable _ _ _ reg) as [[v r]|] eqn:EV; [|discriminate HC].
      apply scoped_variable_again in EV.
      inversion HC; subst node reg'. rewrite EV. reflexivity.
    + destruct (scoped_variable _ _ _ reg) as [[v r]|] eqn:EV; [|discriminate HC].
      apply scoped_variable_again in EV.
      inversion HC; subst node reg'. rewrite EV. reflexivity.
  - destruct (pad_mode_eqb (default_pad param) CONSTANT).
    + destruct (stride_eqb (default_stride param) (1, 1, 1, 1)); [|discriminate HC].
      destruct (_constant_pad X _ reg) as [[Xp r]|] eqn:EP; discriminate HC.
    + discriminate HC.
Qed.

End ConvKernel.


Lemma conv_kernel_variable_witness :
  exists node reg',
    conv (sample [Some 1; Some 5; Some 5; Some 1] [1; 5; 5; 1]%nat)
         (mkSpec [3; 3; 8] None (Some CONSTANT) true) "0" "conv" [] = OK (node, reg')
    /\ v_name (cv_kernel node) = "kernel_0"%string
    /\ v_shape (cv_kernel node) = [3; 3; 2; 8]
    /\ reg' = [cv_kernel node].
Proof.
  destruct (conv (sample [Some 1; Some 5; Some 5; Some 1] [1; 5; 5; 1]%nat)
                 (mkSpec [3; 3; 8] None (Some CONSTANT) true) "0" "conv" [])
    as [[node reg']|e] eqn:HD; [|lazy in HD; discriminate HD].
  exists node, reg'. split; [reflexivity|].
  destruct (conv_kernel_variable _ _ _ _ _ _ _ HD)
    as (kw & kh & co & c & EK & EC & _ & EN & ES & _ & ER).
  simpl in EK, EC. inversion EK; inversion EC; subst.
  split; [exact EN|]. split; [exact ES|].
  destruct ER as [ER|ER]; [|exact ER].
  lazy in HD. inversion HD as [[E1 E2]]. rewrite <- E2 in ER. discriminate ER.
Defined.


Lemma conv_reuses_kernel_witness :
  exists node reg',
    conv (sample [Some 1; Some 5; Some 5; Some 1] [1; 5; 5; 1]%nat)
         (mkSpec [3; 3; 8] None None false) "0" "conv" [] = OK (node, reg')
    /\ conv (sample [Some 1; Some 5; Some 5; Some 1] [1; 5; 5; 1]%nat)
            (mkSpec [3; 3; 8] None None false) "0" "conv" reg' = OK (node, reg').
Proof.
  destruct (conv (sample [Some 1; Some 5; Some 5; Some 1] [1; 5; 5; 1]%nat)
                 (mkSpec [3; 3; 8] None None false) "0" "conv" [])
    as [[node reg']|e] eqn:HD; [|lazy in HD; discriminate HD].
  exists node, reg'. split; [reflexivity|].
  exact (conv_reuses_kernel _ _ _ _ _ _ _ HD).
Defined.


(** ** Convolution: bias channel, delegation, edge padding *)

(** Unfolds a call of [conv] in hypothesis [HC]. *)
Ltac conv_unfold HC :=
  unfold conv in HC; cbv zeta in HC;
  match type of HC with
  | context [_default_value_pad (_default_value_stride ?p _) _] =>
      fold (with_defaults p) in HC
  end;
  rewrite with_defaults_kernel, with_defaults_bias, with_defaults_pad,
    with_defaults_stride in HC;
  unfold bind, assert_, ret, raise in HC.

Section ConvPadding.
Context {R : Type} `{Scalar R}.

Lemma concat_ones_at (X : Tensor R) (reg : Registry) (b w h c : nat) :
  dims (run X) = [b; w; h; c] ->
  exists Xb,
    concat_ones X reg = OK (Xb, reg)
    /\ get_shape Xb = concat_ones_shape (get_shape X)
    /\ dims (run Xb) = [b; w; h; (c + 1)%nat]
    /\ forall idx, at_ (run Xb) idx
                   = if Nat.ltb (nth 3 idx 0%nat) c then at_ (run X) idx else r1.
Proof.
  intros HD. unfold concat_ones, bind, lift, ret, concat, rbind.
  assert (E : Nat.ltb 3 (rank (ones (R:=R) (firstn 3 (dims (run X)) ++ [1%nat]))) = true).
  { rewrite HD. reflexivity. }
  rewrite E.
  rewrite concat2_ok.
  - eexists. split; [reflexivity|]. split; [reflexivity|].
    cbn [run dims at_]. unfold dim, ones. cbn [dims at_]. rewrite HD.
    split; reflexivity.
  - unfold rank. rewrite HD. simpl. lia.
  - unfold ones. cbn [dims]. rewrite HD. reflexivity.
Qed.

(** X3.  The bias channel of [conv]: on a rank-4 array of [c] channels the
    concatenation with [tf.ones] returns, has [c + 1] channels, keeps the
    entries of the input on the channels below [c], holds [1] on channel [c],
    and declares the static channel count one larger. *)
Theorem concat_ones_entries (X : Tensor R) (reg : Registry) (b w h c : nat) :
  dims (run X) = [b; w; h; c] ->
  exists Xb,
    concat_ones X reg = OK (Xb, reg)
    /\ dims (run Xb) = [b; w; h; (c + 1)%nat]
    /\ (forall i0 i1 i2 i3, (i3 < c)%nat ->
          at_ (run Xb) [i0; i1; i2; i3] = at_ (run X) [i0; i1; i2; i3])
    /\ (forall i0 i1 i2, at_ (run Xb) [i0; i1; i2; c] = r1)
    /\ (forall sb sw sh sc, get_shape X = [sb; sw; sh; Some sc] ->
          get_shape Xb = [sb; sw; sh; Some (sc + 1)]).
Proof.
  intros HD. destruct (concat_ones_at X reg b w h c HD) as (Xb & EO & ES & ED & EA).
  exists Xb. split; [exact EO|]. split; [exact ED|]. split; [|split].
  - intros i0 i1 i2 i3 Hi. rewrite EA. cbn [nth].
    apply Nat.ltb_lt in Hi. rewrite Hi. reflexivity.
  - intros i0 i1 i2. rewrite EA. cbn [nth]. rewrite Nat.ltb_irrefl. reflexivity.
  - intros sb sw sh sc EG. rewrite ES, EG. cbn. repeat f_equal; lia.
Qed.

(** X4.  Under [SAME] and [VALID] (every pad mode but [CONSTANT]) every
    call of [conv] that returns has handed its input on unpadded (with its
    channel of ones under [bias]), with the stride and the pad mode of the
    layer, defaults filled in. *)
Theorem conv_delegates (X : Tensor R) param name scope reg node reg' :
  default_pad param <> CONSTANT ->
  conv X param name scope reg = OK (node, reg') ->
  exists Xin,
    (if bias param then concat_ones X reg = OK (Xin, reg) else Xin = X)
    /\ cv_input node = Xin
    /\ cv_strides node = default_stride param
    /\ cv_padding node = default_pad param.
Proof.
  intros HP HC.
  assert (E : pad_mode_eqb (default_pad param) CONSTANT = false).
  { destruct (pad_mode_eqb (default_pad param) CONSTANT) eqn:E; [|reflexivity].
    apply pad_mode_eqb_eq in E. contradiction. }
  conv_unfold HC.
  destruct (Nat.eqb (List.length (get_shape X)) 4); [|discriminate HC].
  rewrite E in HC.
  destruct (kernel param) as [|kw [|kh [|c_out [|? ?]]]] eqn:EK; try discriminate HC.
  cbn [unpack3] in HC. unfold ret in HC.
  destruct (bias param);
    destruct (nth 3 (get_shape X) None) as [c|] eqn:EC; try discriminate HC.
  - destruct (concat_ones X reg) as [[Xb r]|] eqn:EO; [|discriminate HC].
    pose proof (concat_ones_pure _ _ _ _ EO) as [-> _].
    destruct (scoped_variable _ _ _ reg) as [[v r]|] eqn:EV; [|discriminate HC].
    inversion HC; subst node reg'. exists Xb. cbn. auto.
  - destruct (scoped_variable _ _ _ reg) as [[v r]|] eqn:EV; [|discriminate HC].
    inversion HC; subst node reg'. exists X. cbn. auto.
Qed.

(** X5.  The failures of [conv] on its arguments: the rank assertion on
    an input that is not of rank 4; [ValueError] on a kernel tuple that is
    not of length 3; [TypeError] when [bias] is set and the channel count of
    the input is unknown ([None += 1]). *)
Theorem conv_rejects (X : Tensor R) param name scope reg :
  (List.length (get_shape X) <> 4%nat ->
   conv X param name scope reg = Raise (AssertionError msg_rank))
  /\ (List.length (get_shape X) = 4%nat -> List.length (kernel param) <> 3%nat ->
      conv X param name scope reg = Raise ValueError)
  /\ (List.length (get_shape X) = 4%nat -> List.length (kernel param) = 3%nat ->
      bias param = true -> nth 3 (get_shape X) None = None ->
      conv X param name scope reg = Raise TypeError).
Proof.
  unfold conv. cbv zeta. fold (with_defaults param).
  rewrite with_defaults_kernel, with_defaults_bias.
  unfold bind, assert_, ret, raise.
  split; [|split].
  - intros HR. apply Nat.eqb_neq in HR. rewrite HR. reflexivity.
  - intros -> HK. cbn [Nat.eqb].
    destruct (kernel param) as [|kw [|kh [|c_out [|? ?]]]]; try reflexivity.
    exfalso. apply HK. reflexivity.
  - intros -> HK -> ->. cbn [Nat.eqb].
    destruct (kernel param) as [|kw [|kh [|c_out [|? ?]]]]; try discriminate HK.
    reflexivity.
Qed.

Local Arguments Nat.min : simpl never.
Local Arguments Nat.sub : simpl never.
Local Arguments Nat.add : simpl never.
Local Arguments Z.to_nat : simpl never.
Local Arguments Z.div : simpl never.
Local Arguments Z.sub : simpl never.

Lemma padded_dims (kw kh : Z) (x : NDArray R) (b w h c : nat) :
  dims x = [b; w; h; c] ->
  dims (padded kw kh x)
  = [b;
     if Nat.eqb w 0 then 0%nat
     else (Z.to_nat (kw / 2) + w + Z.to_nat (kw - kw / 2 - 1))%nat;
     if Nat.eqb h 0 then 0%nat
     else (Z.to_nat (kh / 2) + h + Z.to_nat (kh - kh / 2 - 1))%nat;
     c].
Proof.
  intros HD. unfold padded, edge_pad. cbn [dims]. rewrite HD. reflexivity.
Qed.

Lemma padded_at (kw kh : Z) (x : NDArray R) (b w h c i0 i1 i2 i3 : nat) :
  dims x = [b; w; h; c] ->
  at_ (padded kw kh x) [i0; i1; i2; i3]
  = at_ x [i0; Nat.min (i1 - Z.to_nat (kw / 2)) (w - 1);
               Nat.min (i2 - Z.to_nat (kh / 2)) (h - 1); i3].
Proof.
  intros HD. unfold padded, edge_pad. cbn [dims at_]. rewrite HD. reflexivity.
Qed.

Lemma half_sum (k : Z) :
  1 <= k -> (Z.to_nat (k / 2) + Z.to_nat (k - k / 2 - 1) = Z.to_nat (k - 1))%nat.
Proof. intros Hk. destruct (half_bounds k Hk). lia. Qed.

(** X6.  The run-time shape [_constant_pad] produces for a [kw x kh]
    kernel ([kw, kh >= 1]): batch and channels as in the input, width
    [w + kw - 1] and height [h + kh - 1]; an empty axis stays empty. *)
Theorem _constant_pad_dims (X : Tensor R) (kw kh : Z) (c_in c_out : option Z)
        (reg : Registry) (b w h c : nat) :
  List.length (get_shape X) = 4%nat ->
  dims (run X) = [b; w; h; c] ->
  1 <= kw -> 1 <= kh ->
  exists Xp,
    _constant_pad X [Some kw; Some kh; c_in; c_out] reg = OK (Xp, reg)
    /\ dims (run Xp)
       = [b; if Nat.eqb w 0 then 0%nat else (w + Z.to_nat (kw - 1))%nat;
             if Nat.eqb h 0 then 0%nat else (h + Z.to_nat (kh - 1))%nat; c].
Proof.
  intros HS HD Hw Hh.
  destruct (_constant_pad_ok X kw kh c_in c_out reg b w h c HS HD Hw Hh)
    as (Xp & EP & [ED _]).
  exists Xp. split; [exact EP|].
  rewrite ED, (padded_dims kw kh _ b w h c HD).
  pose proof (half_sum kw Hw). pose proof (half_sum kh Hh).
  destruct (Nat.eqb w 0), (Nat.eqb h 0);
    repeat match goal with |- _ :: _ = _ :: _ => f_equal end; lia.
Qed.

(** X7.  The input sits unchanged inside the tensor [_constant_pad]
    returns, at offset [kw // 2] along the width and [kh // 2] along the
    height. *)
Theorem _constant_pad_interior (X : Tensor R) (kw kh : Z) (c_in c_out : option Z)
        (reg : Registry) (b w h c : nat) :
  List.length (get_shape X) = 4%nat ->
  dims (run X) = [b; w; h; c] ->
  1 <= kw -> 1 <= kh ->
  exists Xp,
    _constant_pad X [Some kw; Some kh; c_in; c_out] reg = OK (Xp, reg)
    /\ forall i0 i1 i2 i3,
         (i0 < b)%nat -> (i1 < w)%nat -> (i2 < h)%nat -> (i3 < c)%nat ->
         at_ (run Xp) [i0; (Z.to_nat (kw / 2) + i1)%nat; (Z.to_nat (kh / 2) + i2)%nat; i3]
         = at_ (run X) [i0; i1; i2; i3].
Proof.
  intros HS HD Hw Hh.
  destruct (_constant_pad_ok X kw kh c_in c_out reg b w h c HS HD Hw Hh)
    as (Xp & EP & [ED EA]).
  exists Xp. split; [exact EP|].
  intros i0 i1 i2 i3 H0 H1 H2 H3.
  rewrite EA.
  - rewrite (padded_at kw kh _ b w h c) by exact HD. repeat f_equal; lia.
  - rewrite ED, (padded_dims kw kh _ b w h c HD).
    destruct (Nat.eqb_spec w 0); [lia|]. destruct (Nat.eqb_spec h 0); [lia|].
    repeat constructor; lia.
Qed.

(** X8.  For a [1 x 1] kernel [_constant_pad] pads nothing: the result
    has the shape and the entries of the input. *)
Theorem _constant_pad_unit_kernel (X : Tensor R) (c_in c_out : option Z)
        (reg : Registry) (b w h c : nat) :
  List.length (get_shape X) = 4%nat ->
  dims (run X) = [b; w; h; c] ->
  exists Xp,
    _constant_pad X [Some 1; Some 1; c_in; c_out] reg = OK (Xp, reg)
    /\ arr_eq (run Xp) (run X).
Proof.
  intros HS HD.
  destruct (_constant_pad_ok X 1 1 c_in c_out reg b w h c HS HD) as (Xp & EP & HA);
    [lia | lia |].
  exists Xp. split; [exact EP|].
  eapply arr_eq_trans; [exact HA|].
  split.
  - rewrite (padded_dims 1 1 _ b w h c HD), HD.
    change (Z.to_nat (1 / 2)) with 0%nat. change (Z.to_nat (1 - 1 / 2 - 1)) with 0%nat.
    destruct w, h; cbn [Nat.eqb];
      repeat match goal with |- _ :: _ = _ :: _ => f_equal end; lia.
  - intros idx HI. rewrite (padded_dims 1 1 _ b w h c HD) in HI.
    apply in_range4 in HI. destruct HI as (i0 & i1 & i2 & i3 & -> & H0 & H1 & H2 & H3).
    rewrite (padded_at 1 1 _ b w h c) by exact HD.
    change (Z.to_nat (1 / 2)) with 0%nat in *.
    change (Z.to_nat (1 - 1 / 2 - 1)) with 0%nat in *.
    destruct (Nat.eqb_spec w 0); [lia|]. destruct (Nat.eqb_spec h 0); [lia|].
    repeat f_equal; lia.
Qed.

End ConvPadding.


Lemma concat_ones_entries_witness :
  exists Xb,
    concat_ones (sample [Some 1; Some 2; Some 2; Some 2] [1; 2; 2; 2]%nat) [] = OK (Xb, [])
    /\ dims (run Xb) = [1; 2; 2; 3]%nat
    /\ at_ (run Xb) [0; 1; 1; 1]%nat = EVar [0; 1; 1; 1]%nat
    /\ at_ (run Xb) [0; 1; 1; 2]%nat = ENat 1
    /\ get_shape Xb = [Some 1; Some 2; Some 2; Some 3].
Proof.
  destruct (concat_ones_entries
              (sample [Some 1; Some 2; Some 2; Some 2] [1; 2; 2; 2]%nat) []
              1 2 2 2 eq_refl) as (Xb & EO & ED & EA & E1 & ES).
  exists Xb. split; [exact EO|]. split; [exact ED|].
  split; [rewrite EA by lia; reflexivity|].
  split; [apply E1 | apply (ES (Some 1) (Some 2) (Some 2) 2); reflexivity].
Defined.


Lemma conv_delegates_witness :
  (default_pad (mkSpec [3; 3; 8] (Some (1, 2, 2, 1)) (Some VALID) false) <> CONSTANT)
  /\ exists node reg',
       conv (sample [Some 1; Some 5; Some 5; Some 1] [1; 5; 5; 1]%nat)
            (mkSpec [3; 3; 8] (Some (1, 2, 2, 1)) (Some VALID) false) "0" "conv" []
       = OK (node, reg')
       /\ cv_input node = sample [Some 1; Some 5; Some 5; Some 1] [1; 5; 5; 1]%nat
       /\ cv_strides node = (1, 2, 2, 1)
       /\ cv_padding node = VALID.
Proof.
  split; [discriminate|].
  destruct (conv (sample [Some 1; Some 5; Some 5; Some 1] [1; 5; 5; 1]%nat)
                 (mkSpec [3; 3; 8] (Some (1, 2, 2, 1)) (Some VALID) false) "0" "conv" [])
    as [[node reg']|e] eqn:HD; [|lazy in HD; discriminate HD].
  exists node, reg'. split; [reflexivity|].
  destruct (conv_delegates
              (sample [Some 1; Some 5; Some 5; Some 1] [1; 5; 5; 1]%nat)
              (mkSpec [3; 3; 8] (Some (1, 2, 2, 1)) (Some VALID) false) "0" "conv" []
              node reg' ltac:(discriminate) HD)
    as (Xin & HB & HI & HS & HP).
  simpl in HB. subst Xin.
  split; [exact HI|]. split; [exact HS | exact HP].
Defined.


Lemma conv_rejects_witness :
  conv (sample [Some 1; Some 5] [1; 5]%nat) (mkSpec [3; 3; 8] None None false)
       "0" "conv" [] = Raise (AssertionError msg_rank)
  /\ conv (sample [Some 1; Some 5; Some 5; Some 1] [1; 5; 5; 1]%nat)
          (mkSpec [3; 3] None None false) "0" "conv" [] = Raise ValueError
  /\ conv (sample [Some 1; Some 5; Some 5; None] [1; 5; 5; 1]%nat)
          (mkSpec [3; 3; 8] None None true) "0" "conv" [] = Raise TypeError.
Proof.
  split; [|split].
  - apply (proj1 (conv_rejects (sample [Some 1; Some 5] [1; 5]%nat)
                    (mkSpec [3; 3; 8] None None false) "0" "conv" [])).
    discriminate.
  - apply (proj1 (proj2 (conv_rejects
                           (sample [Some 1; Some 5; Some 5; Some 1] [1; 5; 5; 1]%nat)
                           (mkSpec [3; 3] None None false) "0" "conv" [])));
      [reflexivity | discriminate].
  - apply (proj2 (proj2 (conv_rejects
                           (sample [Some 1; Some 5; Some 5; None] [1; 5; 5; 1]%nat)
                           (mkSpec [3; 3; 8] None None true) "0" "conv" [])));
      reflexivity.
Defined.


Lemma _constant_pad_dims_witness :
  exists Xp,
    _constant_pad (sample [Some 1; Some 5; Some 5; Some 1] [1; 5; 5; 1]%nat)
                  [Some 3; Some 5; Some 1; Some 8] [] = OK (Xp, [])
    /\ dims (run Xp) = [1; 7; 9; 1]%nat.
Proof.
  destruct (_constant_pad_dims
              (sample [Some 1; Some 5; Some 5; Some 1] [1; 5; 5; 1]%nat)
              3 5 (Some 1) (Some 8) [] 1 5 5 1 eq_refl eq_refl
              ltac:(lia) ltac:(lia)) as (Xp & EP & ED).
  exists Xp. split; [exact EP | exact ED].
Defined.


Lemma _constant_pad_interior_witness :
  exists Xp,
    _constant_pad (sample [Some 1; Some 5; Some 5; Some 1] [1; 5; 5; 1]%nat)
                  [Some 3; Some 5; Some 1; Some 8] [] = OK (Xp, [])
    /\ at_ (run Xp) [0; 3; 5; 0]%nat = EVar [0; 2; 3; 0]%nat.
Proof.
  destruct (_constant_pad_interior
              (sample [Some 1; Some 5; Some 5; Some 1] [1; 5; 5; 1]%nat)
              3 5 (Some 1) (Some 8) [] 1 5 5 1 eq_refl eq_refl
              ltac:(lia) ltac:(lia)) as (Xp & EP & EA).
  exists Xp. split; [exact EP|].
  apply (EA 0 2 3 0)%nat; lia.
Defined.


Lemma _constant_pad_unit_kernel_witness :
  exists Xp,
    _constant_pad (sample [Some 1; Some 5; Some 5; Some 1] [1; 5; 5; 1]%nat)
                  [Some 1; Some 1; Some 1; Some 8] [] = OK (Xp, [])
    /\ arr_eq (run Xp) (symbolic [1; 5; 5; 1]%nat).
Proof.
  exact (_constant_pad_unit_kernel
           (sample [Some 1; Some 5; Some 5; Some 1] [1; 5; 5; 1]%nat)
           (Some 1) (Some 8) [] 1 5 5 1 eq_refl eq_refl).
Defined.


(** ** Transposed convolution: channels, defaults, failures *)

(** The kernel and the input shape of a call of [deconv] that returns. *)
Lemma deconv_kernel_inv {R} (X : Tensor R) param name scope reg node reg' :
  deconv X param name scope reg = OK (node, reg') ->
  exists b w h c kw kh c_out c_in,
    get_shape X = [b; w; h; c]
    /\ match if_dim c with
       | Some cv => c_in = cv /\
                    (kernel param = [kw; kh; c_out] \/ kernel param = [kw; kh; cv; c_out])
       | None => kernel param = [kw; kh; c_out; c_in]
       end
    /\ dc_kernel node
       = mkVar scope ("kernel_" ++ name)%string
               [kw; kh; c_out; if bias param then c_in + 1 else c_in]
    /\ dc_in_shape node
       = (if bias param then [b; w; h; option_map Z.succ c] else [b; w; h; c])
    /\ dc_name node = ("deconv_" ++ name)%string
    /\ (reg' = reg \/ reg' = dc_kernel node :: reg).
Proof.
  intros HD. unfold deconv in HD. cbv zeta in HD.
  fold (with_defaults param) in HD.
  rewrite with_defaults_kernel, with_defaults_bias, with_defaults_pad,
    with_defaults_stride in HD.
  destruct (get_shape X) as [|b [|w [|h [|c [|? ?]]]]] eqn:EG; try discriminate HD.
  exists b, w, h, c.
  destruct (default_stride param) as [[[s0 sw] sh] s3] eqn:ES.
  simpl nth in HD. simpl List.length in HD.
  destruct (if_dim c) as [cv|] eqn:EC;
    destruct (kernel param) as [|kw [|kh [|k2 [|k3 [|? ?]]]]] eqn:EK;
    try discriminate HD;
    destruct (bias param) eqn:EB; simpl in HD; unfold bind, ret in HD; simpl in HD.
  all: try discriminate HD.
  all: try (destruct (Z.eqb_spec k2 cv) as [->|]; simpl in HD; [|discriminate HD]).
  all: match type of HD with
       | context [scoped_variable ?n ?s ?sh ?rg] =>
           destruct (scoped_variable n s sh rg) as [[v r]|] eqn:ESV; [|discriminate HD];
           apply scoped_variable_inv in ESV;
           destruct ESV as (V1 & V2 & V3 & V4 & _)
       end.
  all: destruct (truthy w && truthy h);
    destruct (pad_mode_eqb (default_pad param) VALID); simpl in HD;
    match type of HD with
    | context [if ?g then _ else _] => destruct g
    | _ => idtac
    end; inversion HD; subst node reg'; clear HD; cbn.
  all: destruct v as [vs vn vsh]; cbn in V1, V2, V3; subst vs vn vsh.
  all: do 4 eexists.
  all: split; [reflexivity|].
  all: split;
    [first [split; [reflexivity | first [left; reflexivity | right; reflexivity]]
           | reflexivity]|].
  all: split; [reflexivity|].
  all: split; [reflexivity|].
  all: split; [reflexivity|].
  all: exact V4.
Qed.

(** X10.  The failures of [deconv] on its arguments: the rank assertion
    on an input that is not of rank 4; the assertion "Number of
    input_channels was not given and could not be inferred." when the
    channel count is unknown (or zero) and the kernel tuple is not of length
    4; [ValueError] when the channel count is known and the kernel tuple has
    neither length 3 nor length 4. *)
Theorem deconv_rejects {R} (X : Tensor R) param name scope reg :
  (List.length (get_shape X) <> 4%nat ->
   deconv X param name scope reg = Raise (AssertionError msg_rank))
  /\ (List.length (get_shape X) = 4%nat ->
      if_dim (nth 3 (get_shape X) None) = None ->
      List.length (kernel param) <> 4%nat ->
      deconv X param name scope reg = Raise (AssertionError msg_not_inferred))
  /\ (List.length (get_shape X) = 4%nat ->
      if_dim (nth 3 (get_shape X) None) <> None ->
      List.length (kernel param) <> 3%nat -> List.length (kernel param) <> 4%nat ->
      deconv X param name scope reg = Raise ValueError).
Proof.
  unfold deconv. cbv zeta. fold (with_defaults param).
  rewrite with_defaults_kernel.
  unfold bind, assert_, ret, raise.
  split; [|split].
  - intros HR. apply Nat.eqb_neq in HR. rewrite HR. reflexivity.
  - intros -> -> HK. cbn [Nat.eqb]. apply Nat.eqb_neq in HK. rewrite HK. reflexivity.
  - intros -> HC H3 H4. cbn [Nat.eqb].
    destruct (if_dim (nth 3 (get_shape X) None)) as [cv|]; [|contradiction].
    apply Nat.eqb_neq in H3. rewrite H3.
    destruct (kernel param) as [|k0 [|k1 [|k2 [|k3 [|? ?]]]]]; try reflexivity.
    exfalso. apply H4. reflexivity.
Qed.

(** X11.  With an unknown (or zero) static channel count, every call of
    [deconv] that returns has read a length-4 kernel tuple as
    [(kw, kh, c_out, c_in)]: its kernel is the variable [kernel_<name>] of
    shape [[kw; kh; c_out; c_in]] ([c_in + 1] under [bias]), the dynamic
    output shape has [c_out] channels, and the registry is left as it was or
    gains this variable. *)
Theorem deconv_given_channels {R} (X : Tensor R) param name scope reg node reg'
        b w h c :
  shape_compatible X ->
  get_shape X = [b; w; h; c] -> if_dim c = None ->
  deconv X param name scope reg = OK (node, reg') ->
  exists kw kh c_out c_in,
    kernel param = [kw; kh; c_out; c_in]
    /\ dc_kernel node
       = mkVar scope ("kernel_" ++ name)%string
               [kw; kh; c_out; if bias param then c_in + 1 else c_in]
    /\ nth 3 (dc_output_shape node) 0 = c_out
    /\ (reg' = reg \/ reg' = dc_kernel node :: reg).
Proof.
  intros HC EG EC HD.
  destruct (deconv_kernel_inv X param name scope reg node reg' HD)
    as (b' & w' & h' & c' & kw & kh & co & ci & EG' & HK & HV & _ & _ & HR).
  rewrite EG in EG'. inversion EG'; subst b' w' h' c'.
  rewrite EC in HK.
  exists kw, kh, co, ci. split; [exact HK|]. split; [exact HV|]. split; [|exact HR].
  destruct (shape_compatible_rank4 X _ _ _ _ HC EG) as (B & W & H' & C & HS & _).
  destruct (deconv_inv X param name scope reg node reg' B W H' C HS HD)
    as (b' & w' & h' & c' & kw' & kh' & co' & ci' & s0 & sw & sh & s3
        & _ & _ & _ & _ & _ & _ & HO & _).
  rewrite HO, HK. reflexivity.
Qed.

(** X12.  With a known, non-zero channel count [c] and a length-3 kernel
    tuple [(kw, kh, c_out)], every call of [deconv] that returns has as its
    kernel the variable [kernel_<name>] of shape [[kw; kh; c_out; c]],
    [c + 1] under [bias], where the input shape it records carries the
    channel of ones; the registry is left as it was or gains this
    variable. *)
Theorem deconv_kernel_shape {R} (X : Tensor R) param name scope reg node reg'
        b w h c kw kh c_out :
  get_shape X = [b; w; h; Some c] -> c <> 0 ->
  kernel param = [kw; kh; c_out] ->
  deconv X param name scope reg = OK (node, reg') ->
  dc_kernel node
  = mkVar scope ("kernel_" ++ name)%string
          [kw; kh; c_out; if bias param then c + 1 else c]
  /\ dc_in_shape node = [b; w; h; Some (if bias param then c + 1 else c)]
  /\ (reg' = reg \/ reg' = dc_kernel node :: reg).
Proof.
  intros EG Hc EK HD.
  assert (EC : if_dim (Some c) = Some c) by (apply if_dim_some; auto).
  destruct (deconv_kernel_inv X param name scope reg node reg' HD)
    as (b' & w' & h' & c' & kw' & kh' & co & ci & EG' & HK & HV & HI & _ & HR).
  rewrite EG in EG'. inversion EG'; subst b' w' h' c'.
  rewrite EC, EK in HK. destruct HK as [-> [E|E]]; [|discriminate E].
  inversion E; subst kw' kh' co.
  split; [exact HV|]. split; [|exact HR].
  rewrite HI. destruct (bias param); reflexivity.
Qed.

(** X13.  A [deconv] layer that gives neither [stride] nor [pad] runs with
    stride [(1, 1, 1, 1)] and pad mode [SAME], and asks for an output of the
    run-time batch, width and height of its input, with entry 2 of the kernel
    tuple as channel count. *)
Theorem deconv_defaults {R} (X : Tensor R) (ker : list Z) (bias_ : bool)
        name scope reg node reg' :
  shape_compatible X ->
  deconv X (mkSpec ker None None bias_) name scope reg = OK (node, reg') ->
  exists B W H C,
    tf_shape X = [B; W; H; C]
    /\ dc_strides node = (1, 1, 1, 1)
    /\ dc_padding node = SAME
    /\ dc_output_shape node = [B; W; H; nth 2 ker 0].
Proof.
  intros HC HD.
  assert (HR : exists b w h c, get_shape X = [b; w; h; c]).
  { unfold deconv in HD.
    destruct (get_shape X) as [|b [|w [|h [|c [|? ?]]]]]; try discriminate HD; eauto. }
  destruct HR as (b & w & h & c & EG).
  destruct (shape_compatible_rank4 X _ _ _ _ HC EG) as (B & W & H' & C & HS & _).
  destruct (deconv_inv X _ name scope reg node reg' B W H' C HS HD)
    as (b' & w' & h' & c' & kw & kh & co & ci & s0 & sw & sh & s3
        & _ & _ & _ & ES & ESt & EP & HO & _).
  cbn in ES, EP, HO. inversion ES; subst s0 sw sh s3.
  exists B, W, H', C. split; [exact HS|]. split; [exact ESt|]. split; [exact EP|].
  rewrite HO. unfold deconv_size. cbn. repeat f_equal; lia.
Qed.

(** X14.  A second call of [deconv] with the same arguments, in the
    registry the first call left, returns the same node, kernel included,
    and leaves the registry as it is. *)
Theorem deconv_reuses_kernel {R} (X : Tensor R) param name scope reg node reg' :
  deconv X param name scope reg = OK (node, reg') ->
  deconv X param name scope reg' = OK (node, reg').
Proof.
  intros HD. unfold deconv in *. cbv zeta in *.
  fold (with_defaults param) in *.
  rewrite with_defaults_kernel, with_defaults_bias, with_defaults_pad,
    with_defaults_stride in *.
  destruct (get_shape X) as [|b [|w [|h [|c [|? ?]]]]] eqn:EG; try discriminate HD.
  destruct (default_stride param) as [[[s0 sw] sh] s3] eqn:ES.
  simpl nth in *. simpl List.length in *.
  destruct (if_dim c) as [cv|] eqn:EC;
    destruct (kernel param) as [|kw [|kh [|k2 [|k3 [|? ?]]]]] eqn:EK;
    try discriminate HD;
    destruct (bias param) eqn:EB; simpl in *; unfold bind, ret in *; simpl in *.
  all: try discriminate HD.
  all: try (destruct (Z.eqb_spec k2 cv) as [->|]; simpl in *; [|discriminate HD]).
  all: match type of HD with
       | context [scoped_variable ?n ?s ?sh ?rg] =>
           destruct (scoped_variable n s sh rg) as [[v r]|] eqn:ESV; [|discriminate HD];
           apply scoped_variable_again in ESV
       end.
  all: destruct (truthy w && truthy h);
    destruct (pad_mode_eqb (default_pad param) VALID);
    simpl in *; inversion HD; subst; rewrite ESV; reflexivity.
Qed.


Lemma deconv_rejects_witness :
  deconv (blank [Some 1; Some 5] [1; 5]%nat) (mkSpec [3; 3; 8] None None false)
         "0" "deconv" [] = Raise (AssertionError msg_rank)
  /\ deconv (blank [Some 1; Some 5; Some 5; None] [1; 5; 5; 4]%nat)
            (mkSpec [3; 3; 8] None None false) "0" "deconv" []
     = Raise (AssertionError msg_not_inferred)
  /\ deconv (blank [Some 1; Some 5; Some 5; Some 4] [1; 5; 5; 4]%nat)
            (mkSpec [3; 3] None None false) "0" "deconv" [] = Raise ValueError.
Proof.
  split; [|split].
  - apply (proj1 (deconv_rejects (blank [Some 1; Some 5] [1; 5]%nat)
                    (mkSpec [3; 3; 8] None None false) "0" "deconv" [])).
    discriminate.
  - apply (proj1 (proj2 (deconv_rejects
                           (blank [Some 1; Some 5; Some 5; None] [1; 5; 5; 4]%nat)
                           (mkSpec [3; 3; 8] None None false) "0" "deconv" [])));
      [reflexivity | reflexivity | discriminate].
  - apply (proj2 (proj2 (deconv_rejects
                           (blank [Some 1; Some 5; Some 5; Some 4] [1; 5; 5; 4]%nat)
                           (mkSpec [3; 3] None None false) "0" "deconv" [])));
      [reflexivity | discriminate | discriminate | discriminate].
Defined.


Lemma deconv_given_channels_witness :
  shape_compatible (blank [Some 1; Some 5; Some 5; None] [1; 5; 5; 4]%nat)
  /\ exists node reg',
       deconv (blank [Some 1; Some 5; Some 5; None] [1; 5; 5; 4]%nat)
              (mkSpec [3; 3; 8; 4] None None false) "0" "deconv" []
       = OK (node, reg')
       /\ dc_kernel node = mkVar "deconv" "kernel_0" [3; 3; 8; 4]
       /\ nth 3 (dc_output_shape node) 0 = 8.
Proof.
  assert (HC : shape_compatible (blank [Some 1; Some 5; Some 5; None] [1; 5; 5; 4]%nat))
    by (repeat constructor).
  split; [exact HC|].
  destruct (deconv (blank [Some 1; Some 5; Some 5; None] [1; 5; 5; 4]%nat)
                   (mkSpec [3; 3; 8; 4] None None false) "0" "deconv" [])
    as [[node reg']|e] eqn:HD; [|lazy in HD; discriminate HD].
  exists node, reg'. split; [reflexivity|].
  destruct (deconv_given_channels
              (blank [Some 1; Some 5; Some 5; None] [1; 5; 5; 4]%nat)
              (mkSpec [3; 3; 8; 4] None None false) "0" "deconv" [] node reg'
              (Some 1) (Some 5) (Some 5) None HC eq_refl eq_refl HD)
    as (kw & kh & co & ci & EK & HV & HO & _).
  simpl in EK. injection EK as E1 E2 E3 E4. subst kw kh co ci.
  split; [exact HV | exact HO].
Defined.


Lemma deconv_kernel_shape_witness :
  4 <> 0
  /\ exists node reg',
       deconv (blank [Some 1; Some 5; Some 5; Some 4] [1; 5; 5; 4]%nat)
              (mkSpec [3; 3; 8] None None true) "0" "deconv" []
       = OK (node, reg')
       /\ dc_kernel node = mkVar "deconv" "kernel_0" [3; 3; 8; 5]
       /\ dc_in_shape node = [Some 1; Some 5; Some 5; Some 5].
Proof.
  split; [discriminate|].
  destruct (deconv (blank [Some 1; Some 5; Some 5; Some 4] [1; 5; 5; 4]%nat)
                   (mkSpec [3; 3; 8] None None true) "0" "deconv" [])
    as [[node reg']|e] eqn:HD; [|lazy in HD; discriminate HD].
  exists node, reg'. split; [reflexivity|].
  destruct (deconv_kernel_shape
              (blank [Some 1; Some 5; Some 5; Some 4] [1; 5; 5; 4]%nat)
              (mkSpec [3; 3; 8] None None true) "0" "deconv" [] node reg'
              (Some 1) (Some 5) (Some 5) 4 3 3 8
              eq_refl ltac:(discriminate) eq_refl HD)
    as (HV & HI & _).
  split; [exact HV | exact HI].
Defined.


Lemma deconv_defaults_witness :
  shape_compatible (blank [Some 1; Some 5; Some 5; Some 4] [1; 5; 5; 4]%nat)
  /\ exists node reg',
       deconv (blank [Some 1; Some 5; Some 5; Some 4] [1; 5; 5; 4]%nat)
              (mkSpec [3; 3; 8] None None false) "0" "deconv" [] = OK (node, reg')
       /\ dc_strides node = (1, 1, 1, 1)
       /\ dc_padding node = SAME
       /\ dc_output_shape node = [1; 5; 5; 8].
Proof.
  split; [repeat constructor|].
  destruct (deconv (blank [Some 1; Some 5; Some 5; Some 4] [1; 5; 5; 4]%nat)
                   (mkSpec [3; 3; 8] None None false) "0" "deconv" [])
    as [[node reg']|e] eqn:HD; [|lazy in HD; discriminate HD].
  exists node, reg'. split; [reflexivity|].
  assert (HC : shape_compatible
                 (blank [Some 1; Some 5; Some 5; Some 4] [1; 5; 5; 4]%nat))
    by (repeat constructor).
  destruct (deconv_defaults _ _ _ _ _ _ _ _ HC HD)
    as (B & W & H & C & ES & E1 & E2 & E3).
  simpl in ES. inversion ES; subst.
  split; [exact E1|]. split; [exact E2 | exact E3].
Defined.


Lemma deconv_reuses_kernel_witness :
  exists node reg',
    deconv (blank [Some 1; Some 5; Some 5; Some 4] [1; 5; 5; 4]%nat)
           (mkSpec [3; 3; 8] None None false) "0" "deconv" [] = OK (node, reg')
    /\ deconv (blank [Some 1; Some 5; Some 5; Some 4] [1; 5; 5; 4]%nat)
              (mkSpec [3; 3; 8] None None false) "0" "deconv" reg' = OK (node, reg').
Proof.
  destruct (deconv (blank [Some 1; Some 5; Some 5; Some 4] [1; 5; 5; 4]%nat)
                   (mkSpec [3; 3; 8] None None false) "0" "deconv" [])
    as [[node reg']|e] eqn:HD; [|lazy in HD; discriminate HD].
  exists node, reg'. split; [reflexivity|].
  exact (deconv_reuses_kernel _ _ _ _ _ _ _ HD).
Defined.


(** ** Gated convolution and affine layers *)

Lemma find_variable_other scope name v0 reg :
  v_name v0 <> name ->
  find_variable scope name (v0 :: reg) = find_variable scope name reg.
Proof.
  intros HN. unfold find_variable. cbn [find].
  apply String.eqb_neq in HN. rewrite HN, andb_false_r. reflexivity.
Qed.

Lemma append_suffix_neq (name a b : string) :
  a <> b -> (name ++ a)%string <> (name ++ b)%string.
Proof.
  intros HN. induction name as [|ch name IH]; simpl; [exact HN|].
  intros E. inversion E. contradiction.
Qed.

Section GatedFacts.
Context {R : Type} `{Scalar R}.

(** Two calls of [conv] on the same input and layer hand the same tensor,
    stride and pad mode to the engine, and kernels of the same shape. *)
Lemma conv_same_request (X : Tensor R) param n1 n2 scope r1 r2 f g r1' r2' :
  conv X param n1 scope r1 = OK (f, r1') ->
  conv X param n2 scope r2 = OK (g, r2') ->
  cv_input f = cv_input g /\ cv_strides f = cv_strides g
  /\ cv_padding f = cv_padding g
  /\ v_shape (cv_kernel f) = v_shape (cv_kernel g).
Proof.
  intros H1 H2. conv_unfold H1. conv_unfold H2.
  destruct (Nat.eqb (List.length (get_shape X)) 4); [|discriminate H1].
  destruct (kernel param) as [|kw [|kh [|c_out [|? ?]]]] eqn:EK; try discriminate H1.
  cbn [unpack3] in H1, H2. unfold ret in H1, H2.
  destruct (bias param);
    destruct (nth 3 (get_shape X) None) as [c|] eqn:EC; try discriminate H1.
  - destruct (concat_ones X r1) as [[Xb r]|] eqn:EO; [|discriminate H1].
    apply concat_ones_pure in EO as [-> EO]. rewrite (EO r2) in H2.
    destruct (pad_mode_eqb (default_pad param) CONSTANT).
    + destruct (stride_eqb (default_stride param) (1, 1, 1, 1)); [|discriminate H1].
      destruct (_constant_pad Xb _ r1) as [[Xp r]|] eqn:EP; [|discriminate H1].
      apply _constant_pad_pure in EP as [-> EP]. rewrite (EP r2) in H2.
      destruct (scoped_variable _ _ _ r1) as [[v r]|] eqn:EV; [|discriminate H1].
      destruct (scoped_variable _ _ _ r2) as [[v' r']|] eqn:EV'; [|discriminate H2].
      apply scoped_variable_shape in EV, EV'.
      inversion H1; inversion H2; subst. cbn. rewrite EV, EV'. auto.
    + destruct (scoped_variable _ _ _ r1) as [[v r]|] eqn:EV; [|discriminate H1].
      destruct (scoped_variable _ _ _ r2) as [[v' r']|] eqn:EV'; [|discriminate H2].
      apply scoped_variable_shape in EV, EV'.
      inversion H1; inversion H2; subst. cbn. rewrite EV, EV'. auto.
  - destruct (pad_mode_eqb (default_pad param) CONSTANT).
    + destruct (stride_eqb (default_stride param) (1, 1, 1, 1)); [|discriminate H1].
      destruct (_constant_pad X _ r1) as [[Xp r]|] eqn:EP; [|discriminate H1].
      apply _constant_pad_pure in EP as [-> EP]. rewrite (EP r2) in H2.
      destruct (scoped_variable _ _ _ r1) as [[v r]|] eqn:EV; [|discriminate H1].
      destruct (scoped_variable _ _ _ r2) as [[v' r']|] eqn:EV'; [|discriminate H2].
      apply scoped_variable_shape in EV, EV'.
      inversion H1; inversion H2; subst. cbn. rewrite EV, EV'. auto.
    + destruct (scoped_variable _ _ _ r1) as [[v r]|] eqn:EV; [|discriminate H1].
      destruct (scoped_variable _ _ _ r2) as [[v' r']|] eqn:EV'; [|discriminate H2].
      apply scoped_variable_shape in EV, EV'.
      inversion H1; inversion H2; subst. cbn. rewrite EV, EV'. auto.
  - destruct (pad_mode_eqb (default_pad param) CONSTANT).
    + destruct (stride_eqb (default_stride param) (1, 1, 1, 1)); [|discriminate H1].
      destruct (_constant_pad X _ r1) as [[Xp r]|] eqn:EP; discriminate H1.
    + discriminate H1.
Qed.

(** X15.  Every call of [gated_conv] that returns has built
    [tanh(conv_f) * sigmoid(conv_g)] from two convolutions of the same
    input, with the same stride and pad mode; their kernels are two distinct
    variables, [kernel_<name>_f] and [kernel_<name>_g], of the same shape,
    and the registry holds nothing new but these two. *)
Theorem gated_conv_two_kernels (X : Tensor R) param name scope reg G reg' :
  gated_conv X param name scope reg = OK (G, reg') ->
  exists f g kw kh c_out c,
    G = GMul (GTanh (GConv f)) (GSigmoid (GConv g))
    /\ kernel param = [kw; kh; c_out]
    /\ nth 3 (get_shape X) None = Some c
    /\ cv_kernel f
       = mkVar scope ("kernel_" ++ name ++ "_f")%string
               [kw; kh; (if bias param then c + 1 else c); c_out]
    /\ cv_kernel g
       = mkVar scope ("kernel_" ++ name ++ "_g")%string
               [kw; kh; (if bias param then c + 1 else c); c_out]
    /\ cv_kernel f <> cv_kernel g
    /\ cv_input f = cv_input g
    /\ cv_strides f = cv_strides g
    /\ cv_padding f = cv_padding g
    /\ (forall v, In v reg' -> In v reg \/ v = cv_kernel f \/ v = cv_kernel g).
Proof.
  intros HG. unfold gated_conv, bind, ret in HG.
  destruct (conv X param (name ++ "_f") scope reg) as [[f r1]|] eqn:Hf; [|discriminate HG].
  destruct (conv X param (name ++ "_g") scope r1) as [[g r2]|] eqn:Hg; [|discriminate HG].
  inversion HG; subst G reg'. clear HG.
  destruct (conv_kernel_inv _ _ _ _ _ _ _ Hf)
    as (kw & kh & co & c & EK & EC & S1 & N1 & Sh1 & _ & R1).
  destruct (conv_kernel_inv _ _ _ _ _ _ _ Hg)
    as (kw' & kh' & co' & c' & EK' & EC' & S2 & N2 & Sh2 & _ & R2).
  rewrite EK in EK'. inversion EK'; subst kw' kh' co'.
  rewrite EC in EC'. inversion EC'; subst c'.
  destruct (conv_same_request _ _ _ _ _ _ _ _ _ _ _ Hf Hg) as (EI & ES & EP & _).
  exists f, g, kw, kh, co, c.
  split; [reflexivity|]. split; [exact EK|]. split; [exact EC|].
  split; [destruct (cv_kernel f); cbn in *; subst; reflexivity|].
  split; [destruct (cv_kernel g); cbn in *; subst; reflexivity|].
  split.
  { intros E. rewrite E in N1. rewrite N2 in N1.
    revert N1. apply (append_suffix_neq "kernel_").
    apply append_suffix_neq. discriminate. }
  split; [exact EI|]. split; [exact ES|]. split; [exact EP|].
  intros v Hv.
  destruct R2 as [-> | ->]; [|destruct Hv as [<-|Hv]; [auto|]];
    (destruct R1 as [-> | ->]; [auto | destruct Hv as [<-|Hv]; auto]).
Qed.

End GatedFacts.

(** X16.  [affine] on a rank-2 input with known second dimension [d]
    creates (the names being free) the weight [w_<name>] of shape
    [[d; dim_out]] and then the bias [b_<name>] of shape [[dim_out]], and
    returns the node [affine_<name>] over the input and these two. *)
Theorem affine_variables {R} (X : Tensor R) dim_out name scope reg sb d :
  get_shape X = [sb; Some d] ->
  find_variable scope ("w_" ++ name)%string reg = None ->
  find_variable scope ("b_" ++ name)%string reg = None ->
  affine X dim_out name scope reg
  = OK (mkAffine X (mkVar scope ("w_" ++ name)%string [d; dim_out])
                 (mkVar scope ("b_" ++ name)%string [dim_out])
                 ("affine_" ++ name)%string,
        mkVar scope ("b_" ++ name)%string [dim_out]
        :: mkVar scope ("w_" ++ name)%string [d; dim_out] :: reg).
Proof.
  intros EG HW HB. unfold affine, bind, assert_, ret. rewrite EG. cbn [List.length Nat.eqb nth].
  rewrite scoped_variable_fresh by exact HW.
  rewrite scoped_variable_fresh; [reflexivity|].
  rewrite find_variable_other; [exact HB|]. cbn. discriminate.
Qed.

(** X17.  A second call of [affine] with the same arguments, in the
    registry the first call left, returns the same node and leaves the
    registry as it is; with another [dim_out] under the same name it fails
    with [ValueError], the shape of the weight being fixed. *)
Theorem affine_reuses_variables {R} (X : Tensor R) dim_out name scope reg node reg' :
  affine X dim_out name scope reg = OK (node, reg') ->
  affine X dim_out name scope reg' = OK (node, reg')
  /\ forall dim_out', dim_out' <> dim_out ->
       affine X dim_out' name scope reg' = Raise ValueError.
Proof.
  intros HA. unfold affine, bind, assert_, ret, raise in *.
  destruct (Nat.eqb (List.length (get_shape X)) 2); [|discriminate HA].
  destruct (nth 1 (get_shape X) None) as [d|]; [|discriminate HA].
  destruct (scoped_variable ("w_" ++ name) scope [d; dim_out] reg) as [[W r1]|] eqn:EW;
    [|discriminate HA].
  destruct (scoped_variable ("b_" ++ name) scope [dim_out] r1) as [[b r2]|] eqn:EB;
    [|discriminate HA].
  inversion HA; subst node reg'. clear HA.
  destruct (scoped_variable_inv _ _ _ _ _ _ EW) as (_ & _ & SW & _ & FW).
  destruct (scoped_variable_inv _ _ _ _ _ _ EB) as (_ & NB & SB & RB & FB).
  assert (FW2 : find_variable scope ("w_" ++ name) r2 = Some W).
  { destruct RB as [->| ->]; [exact FW|].
    rewrite find_variable_other; [exact FW|]. rewrite NB. cbn. discriminate. }
  split.
  - rewrite (scoped_variable_found _ _ _ _ _ FW2 SW).
    rewrite (scoped_variable_found _ _ _ _ _ FB SB). reflexivity.
  - intros d' Hd. unfold scoped_variable at 1. rewrite FW2.
    destruct (list_eq_dec Z.eq_dec (v_shape W) [d; d']) as [E|]; [|reflexivity].
    rewrite SW in E. inversion E. congruence.
Qed.


Lemma gated_conv_two_kernels_witness :
  exists f g reg',
    gated_conv (sample [Some 1; Some 5; Some 5; Some 1] [1; 5; 5; 1]%nat)
               (mkSpec [3; 3; 8] None None false) "0" "gated_conv" []
    = OK (GMul (GTanh (GConv f)) (GSigmoid (GConv g)), reg')
    /\ cv_kernel f = mkVar "gated_conv" "kernel_0_f" [3; 3; 1; 8]
    /\ cv_kernel g = mkVar "gated_conv" "kernel_0_g" [3; 3; 1; 8]
    /\ cv_input f = cv_input g.
Proof.
  destruct (gated_conv (sample [Some 1; Some 5; Some 5; Some 1] [1; 5; 5; 1]%nat)
                       (mkSpec [3; 3; 8] None None false) "0" "gated_conv" [])
    as [[G reg']|e] eqn:HG; [|lazy in HG; discriminate HG].
  destruct (gated_conv_two_kernels
              (sample [Some 1; Some 5; Some 5; Some 1] [1; 5; 5; 1]%nat)
              (mkSpec [3; 3; 8] None None false) "0" "gated_conv" [] G reg' HG)
    as (f & g & kw & kh & co & c & EG & EK & EC & Hf & Hg & _ & HI & _).
  simpl in EK, EC. injection EK as E1 E2 E3. injection EC as E4.
  subst kw kh co c G.
  exists f, g, reg'. split; [reflexivity|].
  split; [exact Hf|]. split; [exact Hg | exact HI].
Defined.


Lemma affine_variables_witness :
  affine (blank [Some 2; Some 3] [2; 3]%nat) 4 "0" "affine" []
  = OK (mkAffine (blank [Some 2; Some 3] [2; 3]%nat)
                 (mkVar "affine" "w_0" [3; 4]) (mkVar "affine" "b_0" [4]) "affine_0",
        [mkVar "affine" "b_0" [4]; mkVar "affine" "w_0" [3; 4]]).
Proof.
  exact (affine_variables (blank [Some 2; Some 3] [2; 3]%nat) 4 "0" "affine" []
           (Some 2) 3 eq_refl eq_refl eq_refl).
Defined.


Lemma affine_reuses_variables_witness :
  exists node reg',
    affine (blank [Some 2; Some 3] [2; 3]%nat) 4 "0" "affine" [] = OK (node, reg')
    /\ affine (blank [Some 2; Some 3] [2; 3]%nat) 4 "0" "affine" reg' = OK (node, reg')
    /\ affine (blank [Some 2; Some 3] [2; 3]%nat) 7 "0" "affine" reg' = Raise ValueError.
Proof.
  destruct (affine (blank [Some 2; Some 3] [2; 3]%nat) 4 "0" "affine" [])
    as [[node reg']|e] eqn:HA; [|lazy in HA; discriminate HA].
  exists node, reg'. split; [reflexivity|].
  destruct (affine_reuses_variables _ _ _ _ _ _ _ HA) as [H1 H2].
  split; [exact H1 | apply H2; discriminate].
Defined.


(** ** The stack combinator: composition *)

Section StackComposition.
Context {T P : Type}.
Variable func : T -> P -> nat -> string -> M T.
Local Open Scope nat_scope.

Lemma stack_loop_app n nonlin name raw (p1 p2 : list P) :
  forall i (X : T) reg,
    stack_loop func n nonlin name raw i (p1 ++ p2) X reg
    = (X1 <- stack_loop func n nonlin name raw i p1 X ;;
       stack_loop func n nonlin name raw (i + List.length p1) p2 X1) reg.
Proof.
  induction p1 as [|p rest IH]; intros i X reg.
  - simpl. unfold bind, ret. rewrite Nat.add_0_r. reflexivity.
  - simpl. unfold bind in *.
    destruct (func X p i name reg) as [[X1 r1]|e]; [|reflexivity].
    replace (i + S (List.length rest)) with (S i + List.length rest) by lia.
    destruct (negb raw || (i + 1 <? n)).
    + destruct (nth_error nonlin i) as [f|]; [|reflexivity].
      unfold ret. apply IH.
    + unfold ret. apply IH.
Qed.

Lemma stack_loop_ext (g : T -> P -> nat -> string -> M T) n1 n2 (l1 l2 : list (T -> T)) name raw1 raw2 (ps : list P) :
  forall i (X : T) reg,
    (forall j, i <= j < i + List.length ps ->
       negb raw1 || (j + 1 <? n1) = negb raw2 || (j + 1 <? n2)
       /\ (negb raw1 || (j + 1 <? n1) = true -> nth_error l1 j = nth_error l2 j)) ->
    stack_loop g n1 l1 name raw1 i ps X reg
    = stack_loop g n2 l2 name raw2 i ps X reg.
Proof.
  induction ps as [|p rest IH]; intros i X reg HJ; [reflexivity|].
  simpl. unfold bind.
  destruct (g X p i name reg) as [[X1 r1]|e]; [|reflexivity].
  destruct (HJ i) as [EC EN]; [simpl; lia|].
  rewrite <- EC.
  destruct (negb raw1 || (i + 1 <? n1)).
  - rewrite <- EN by reflexivity.
    destruct (nth_error l1 i) as [f|]; [|reflexivity].
    unfold ret. apply IH. intros j Hj. apply HJ. simpl. lia.
  - unfold ret. apply IH. intros j Hj. apply HJ. simpl. lia.
Qed.

Lemma stack_loop_shift k m (l : list (T -> T)) name raw (ps : list P) :
  forall j (X : T) reg,
    stack_loop (fun X p i nm => func X p (k + i) nm) m (skipn k l) name raw j ps X reg
    = stack_loop func (k + m) l name raw (k + j) ps X reg.
Proof.
  induction ps as [|p rest IH]; intros j X reg; [reflexivity|].
  simpl. unfold bind.
  destruct (func X p (k + j) name reg) as [[X1 r1]|e]; [|reflexivity].
  replace (k + j + 1 <? k + m) with (j + 1 <? m).
  2:{ destruct (Nat.ltb_spec (j + 1) m), (Nat.ltb_spec (k + j + 1) (k + m)); auto; lia. }
  rewrite nth_error_skipn.
  replace (S (k + j)) with (k + S j) by lia.
  destruct (negb raw || (j + 1 <? m)).
  - destruct (nth_error l (k + j)) as [f|]; [|reflexivity].
    unfold ret. apply IH.
  - unfold ret. apply IH.
Qed.

Lemma nth_error_repeat_lt (f : T -> T) n j : j < n -> nth_error (repeat f n) j = Some f.
Proof.
  revert j. induction n as [|n IH]; intros j Hj; [lia|].
  destruct j; simpl; [reflexivity | apply IH; lia].
Qed.

Lemma nonlin_list_prefix (nonlin : nonlin_arg T) n1 n2 j :
  j < n1 -> n1 <= n2 ->
  nth_error (nonlin_list nonlin n2) j = nth_error (nonlin_list nonlin n1) j.
Proof.
  intros H1 H2. destruct nonlin as [f|fs]; simpl; [|reflexivity].
  rewrite !nth_error_repeat_lt by lia. reflexivity.
Qed.

Lemma nonlin_list_from (nonlin : nonlin_arg T) k m j :
  j < m ->
  nth_error (nonlin_list (nonlin_from k nonlin) m) j
  = nth_error (skipn k (nonlin_list nonlin (k + m))) j.
Proof.
  intros Hj. destruct nonlin as [f|fs]; simpl; [|reflexivity].
  rewrite nth_error_skipn, !nth_error_repeat_lt by lia. reflexivity.
Qed.

(** The loop over the first layers of a longer stack is the stack over
    those layers, with every nonlinearity applied. *)
Lemma stack_prefix (X : T) (p1 p2 : list P) (nonlin : nonlin_arg T) name raw reg :
  p2 <> [] \/ raw = false ->
  stack_loop func (List.length (p1 ++ p2)) (nonlin_list nonlin (List.length (p1 ++ p2)))
             name raw 0 p1 X reg
  = make_stack func X p1 nonlin name false reg.
Proof.
  intros HP. unfold make_stack, generic_stack.
  fold (nonlin_list nonlin (List.length p1)).
  apply stack_loop_ext. intros j Hj. rewrite length_app. split.
  - simpl. destruct HP as [HP| ->]; [|reflexivity].
    destruct p2; [contradiction|]. simpl.
    replace (j + 1 <? List.length p1 + S (List.length p2)) with true
      by (symmetry; apply Nat.ltb_lt; lia).
    apply orb_true_r.
  - intros _. apply nonlin_list_prefix; lia.
Qed.

Lemma stack_suffix (X : T) (p1 p2 : list P) (nonlin : nonlin_arg T) name raw reg :
  stack_loop func (List.length (p1 ++ p2)) (nonlin_list nonlin (List.length (p1 ++ p2)))
             name raw (List.length p1) p2 X reg
  = make_stack (fun X p i nm => func X p (List.length p1 + i) nm) X p2
               (nonlin_from (List.length p1) nonlin) name raw reg.
Proof.
  unfold make_stack, generic_stack.
  fold (nonlin_list (nonlin_from (List.length p1) nonlin) (List.length p2)).
  rewrite length_app.
  rewrite <- (Nat.add_0_r (List.length p1)) at 3.
  rewrite <- stack_loop_shift.
  apply stack_loop_ext. intros j Hj. split; [reflexivity|].
  intros _. symmetry. apply nonlin_list_from. lia.
Qed.

(** X18.  A stack over [p1 ++ p2] is the stack over [p1], every
    nonlinearity applied, followed by the stack over [p2] on its result, with
    the layer indices and the nonlinearities counted on from [len(p1)]
    ([p2] not empty, or no [raw_output]). *)
Theorem generic_stack_app (X : T) (p1 p2 : list P) (nonlin : nonlin_arg T)
        (name : string) (raw_output : bool) (reg : Registry) :
  p2 <> [] \/ raw_output = false ->
  make_stack func X (p1 ++ p2) nonlin name raw_output reg
  = (X1 <- make_stack func X p1 nonlin name false ;;
     make_stack (fun X p i nm => func X p (List.length p1 + i) nm) X1 p2
                (nonlin_from (List.length p1) nonlin) name raw_output) reg.
Proof.
  intros HP. unfold make_stack at 1, generic_stack at 1.
  fold (nonlin_list nonlin (List.length (p1 ++ p2))).
  rewrite stack_loop_app. unfold bind.
  rewrite stack_prefix by exact HP.
  destruct (make_stack func X p1 nonlin name false reg) as [[X1 r1]|e]; [|reflexivity].
  simpl plus. apply stack_suffix.
Qed.

(** X19.  The error of the first layer that fails is the error of the
    stack, whatever follows it and whatever [raw_output] is. *)
Theorem generic_stack_layer_error (X X1 : T) (p1 rest : list P) (p : P)
        (nonlin : nonlin_arg T) (name : string) (raw_output : bool)
        (reg reg1 : Registry) (e : exn) :
  make_stack func X p1 nonlin name false reg = OK (X1, reg1) ->
  func X1 p (List.length p1) name reg1 = Raise e ->
  make_stack func X (p1 ++ p :: rest) nonlin name raw_output reg = Raise e.
Proof.
  intros H1 HE. unfold make_stack at 1, generic_stack at 1.
  fold (nonlin_list nonlin (List.length (p1 ++ p :: rest))).
  rewrite stack_loop_app. unfold bind.
  rewrite stack_prefix by (left; discriminate).
  rewrite H1. simpl. unfold bind. rewrite HE. reflexivity.
Qed.

Lemma stack_loop_raw n (l : list (T -> T)) name (f : T -> T) (ps : list P) :
  nth_error l (n - 1) = Some f ->
  forall i (X : T) reg,
    ps <> [] -> i + List.length ps = n ->
    stack_loop func n l name false i ps X reg
    = (Y <- stack_loop func n l name true i ps X ;; ret (f Y)) reg.
Proof.
  intros HF. induction ps as [|p rest IH]; intros i X reg HN HL; [contradiction|].
  simpl in HL. simpl. unfold bind in *.
  destruct (func X p i name reg) as [[X1 r1]|e]; [|reflexivity].
  destruct rest as [|p' rest'].
  - simpl in HL. replace (i + 1 <? n) with false by (symmetry; apply Nat.ltb_ge; lia).
    simpl. replace i with (n - 1) by lia. rewrite HF. reflexivity.
  - replace (i + 1 <? n) with true by (symmetry; apply Nat.ltb_lt; simpl in HL; lia).
    simpl orb.
    destruct (nth_error l i) as [g|]; [|reflexivity].
    unfold ret at 1 3. apply IH; [discriminate | simpl in *; lia].
Qed.

(** X20.  [raw_output] withholds the last nonlinearity and nothing else:
    the stack without [raw_output] is the stack with it, followed by the
    nonlinearity of the last layer. *)
Theorem generic_stack_raw_output (X : T) (params : list P) (nonlin : nonlin_arg T)
        (name : string) (reg : Registry) (f : T -> T) :
  params <> [] ->
  nth_error (nonlin_list nonlin (List.length params)) (List.length params - 1) = Some f ->
  make_stack func X params nonlin name false reg
  = (Y <- make_stack func X params nonlin name true ;; ret (f Y)) reg.
Proof.
  intros HN HF. unfold make_stack, generic_stack.
  fold (nonlin_list nonlin (List.length params)).
  apply stack_loop_raw; auto.
Qed.

End StackComposition.


Lemma generic_stack_app_witness :
  make_stack log_layer [] ([1; 2]%nat ++ [3%nat])%list (Single log_nonlin) "fc" true []
  = OK ([1; 0; 2; 0; 3]%nat, [])
  /\ make_stack log_layer [] [1; 2]%nat (Single log_nonlin) "fc" false []
     = OK ([1; 0; 2; 0]%nat, [])
  /\ make_stack (fun X p i nm => log_layer X p (2 + i) nm) [1; 0; 2; 0]%nat [3%nat]
                (Single log_nonlin) "fc" true []
     = OK ([1; 0; 2; 0; 3]%nat, []).
Proof.
  split; [|split; reflexivity].
  assert (HP : [3%nat] <> [] \/ true = false) by (left; discriminate).
  exact (eq_trans
           (generic_stack_app log_layer [] [1; 2]%nat [3%nat] (Single log_nonlin)
              "fc" true [] HP) eq_refl).
Defined.


Lemma generic_stack_layer_error_witness :
  make_stack (fun X p i nm => if Nat.eqb p 0 then raise TypeError else log_layer X p i nm)
             [] [1; 2; 0; 4]%nat (Single log_nonlin) "fc" true []
  = Raise TypeError.
Proof.
  apply (generic_stack_layer_error
           (fun X p i nm => if Nat.eqb p 0 then raise TypeError else log_layer X p i nm)
           [] [1; 0; 2; 0]%nat [1; 2]%nat [4%nat] 0%nat (Single log_nonlin) "fc" true
           [] []); reflexivity.
Defined.


Lemma generic_stack_raw_output_witness :
  make_stack log_layer [] [1; 2; 3]%nat (Single log_nonlin) "fc" true []
  = OK ([1; 0; 2; 0; 3]%nat, [])
  /\ make_stack log_layer [] [1; 2; 3]%nat (Single log_nonlin) "fc" false []
     = OK (log_nonlin [1; 0; 2; 0; 3]%nat, []).
Proof.
  split; [reflexivity|].
  assert (HN : [1; 2; 3]%nat <> []) by discriminate.
  exact (eq_trans
           (generic_stack_raw_output log_layer [] [1; 2; 3]%nat (Single log_nonlin)
              "fc" [] log_nonlin HN eq_refl) eq_refl).
Defined.

(** ** The stack combinator: per-layer lists of another length *)

Section StackLengths.
Context {T P : Type}.
Variable func : T -> P -> nat -> string -> M T.
Local Open Scope nat_scope.

(** A list too short for the layers from index [i] on makes the loop
    fail. *)
Lemma stack_loop_short (name : string) (raw : bool) (fs : list (T -> T))
      (params : list P) :
  forall (i : nat) (X : T) (reg : Registry),
    List.length fs < nonlin_needed (i + List.length params) raw ->
    i <= List.length fs ->
    exists e, stack_loop func (i + List.length params) fs name raw i params X reg = Raise e.
Proof.
  induction params as [|p rest IH]; intros i X reg HN Hi.
  - unfold nonlin_needed in HN. simpl in HN. destruct raw; lia.
  - simpl. unfold bind.
    destruct (func X p i name reg) as [[X1 r1]|e]; [|eauto].
    simpl List.length in *.
    replace (i + S (List.length rest)) with (S i + List.length rest) in * by lia.
    destruct (negb raw || (i + 1 <? S i + List.length rest)) eqn:EC.
    + destruct (nth_error fs i) as [f|] eqn:EN; [|unfold raise; eauto].
      unfold ret. apply IH; [exact HN|].
      assert (i < List.length fs) by (apply nth_error_Some; congruence). lia.
    + exfalso. unfold nonlin_needed in HN. destruct raw; simpl in EC; [|discriminate EC].
      apply Nat.ltb_ge in EC. lia.
Qed.

(** With a list long enough, a failure of the stack is the failure of a
    layer call of the run: the layers before it have returned. *)
Lemma stack_error_layer (fs : list (T -> T)) (name : string) (X : T) (reg : Registry)
      (e : exn) (params : list P) :
  forall raw : bool,
    nonlin_needed (List.length params) raw <= List.length fs ->
    make_stack func X params (PerLayer fs) name raw reg = Raise e ->
    exists p1 p rest X1 reg1,
      params = p1 ++ p :: rest
      /\ make_stack func X p1 (PerLayer fs) name false reg = OK (X1, reg1)
      /\ func X1 p (List.length p1) name reg1 = Raise e.
Proof.
  induction params as [|p q IH] using rev_ind; intros raw HL HE.
  - discriminate HE.
  - unfold make_stack at 1, generic_stack at 1 in HE.
    change fs with (nonlin_list (PerLayer fs) (List.length (q ++ [p]))) in HE.
    rewrite stack_loop_app in HE. unfold bind in HE.
    rewrite stack_prefix in HE by (left; discriminate).
    rewrite length_app in HL. cbn [List.length] in HL.
    destruct (make_stack func X q (PerLayer fs) name false reg) as [[X1 r1]|e1] eqn:EQ.
    + exists q, p, [], X1, r1. split; [reflexivity|]. split; [exact EQ|].
      simpl in HE. unfold bind in HE.
      destruct (func X1 p (List.length q) name r1) as [[Y r2]|e2]; [|congruence].
      exfalso.
      destruct (negb raw || (List.length q + 1 <? List.length (q ++ [p]))) eqn:EC.
      * destruct (nth_error fs (List.length q)) as [f|] eqn:EN; [discriminate HE|].
        apply nth_error_None in EN.
        rewrite length_app in EC. cbn [List.length] in EC.
        unfold nonlin_needed in HL. destruct raw; simpl in EC.
        -- apply Nat.ltb_lt in EC. lia.
        -- lia.
      * discriminate HE.
    + inversion HE; subst e1.
      destruct (IH false) as (p1 & p' & rest & X1 & r1 & -> & H1 & H2).
      * unfold nonlin_needed in *. destruct raw; lia.
      * exact EQ.
      * exists p1, p', (rest ++ [p]), X1, r1.
        split; [rewrite <- app_assoc; reflexivity|]. split; assumption.
Qed.

Lemma nonlin_needed_cond (n j : nat) (raw : bool) :
  j < n -> negb raw || (j + 1 <? n) = true -> j < nonlin_needed n raw.
Proof.
  intros Hj HC. unfold nonlin_needed. destruct raw; simpl in HC; [|exact Hj].
  apply Nat.ltb_lt in HC. lia.
Qed.

Lemma stack_loop_long (X : T) (params : list P) (fs fs' : list (T -> T)) name raw reg :
  (forall j, j < nonlin_needed (List.length params) raw ->
             nth_error fs j = nth_error fs' j) ->
  stack_loop func (List.length params) fs name raw 0 params X reg
  = stack_loop func (List.length params) fs' name raw 0 params X reg.
Proof.
  intros HE. apply stack_loop_ext. intros j Hj. split; [reflexivity|].
  intros HC. apply HE. apply nonlin_needed_cond; [lia | exact HC].
Qed.

(** C6, amended.  A per-layer list makes the stack fail exactly when it is
    shorter than the number of nonlinearities the stack applies: [n], or
    [n - 1] under [raw_output].  With a shorter list every call fails, and
    it fails with [IndexError] when the layer calls up to the first missing
    entry return.  With a list at least that long, and so with every longer
    list, the stack is the layers in order, each followed by its
    nonlinearity; the entries beyond those it applies are not read, whatever
    they are, and the only failure is the failure of a layer call of the
    run. *)
Theorem generic_stack_list_length (X : T) (params : list P) (fs : list (T -> T))
        (name : string) (raw_output : bool) (reg : Registry) :
  (List.length fs < nonlin_needed (List.length params) raw_output ->
   (exists e, make_stack func X params (PerLayer fs) name raw_output reg = Raise e)
   /\ (forall p1 p rest X1 reg1 Y r,
         params = p1 ++ p :: rest -> List.length p1 = List.length fs ->
         make_stack func X p1 (PerLayer fs) name false reg = OK (X1, reg1) ->
         func X1 p (List.length p1) name reg1 = OK (Y, r) ->
         make_stack func X params (PerLayer fs) name raw_output reg = Raise IndexError))
  /\ (nonlin_needed (List.length params) raw_output <= List.length fs ->
      make_stack func X params (PerLayer fs) name raw_output reg
      = stack_spec func name raw_output 0 (combine params (fs ++ [fun x => x])) X reg
      /\ (forall fs',
            firstn (nonlin_needed (List.length params) raw_output) fs'
            = firstn (nonlin_needed (List.length params) raw_output) fs ->
            make_stack func X params (PerLayer fs') name raw_output reg
            = make_stack func X params (PerLayer fs) name raw_output reg)
      /\ (forall e,
            make_stack func X params (PerLayer fs) name raw_output reg = Raise e ->
            exists p1 p rest X1 reg1,
              params = p1 ++ p :: rest
              /\ make_stack func X p1 (PerLayer fs) name false reg = OK (X1, reg1)
              /\ func X1 p (List.length p1) name reg1 = Raise e)).
Proof.
  split.
  - intros HL. split.
    + unfold make_stack, generic_stack.
      apply (stack_loop_short name raw_output fs params 0 X reg); [exact HL | lia].
    + intros p1 p rest X1 reg1 Y r -> HL1 H1 HF.
      unfold make_stack at 1, generic_stack at 1.
      change fs with (nonlin_list (PerLayer fs) (List.length (p1 ++ p :: rest))).
      rewrite stack_loop_app. unfold bind.
      rewrite stack_prefix by (left; discriminate).
      rewrite H1. simpl. unfold bind. rewrite HF.
      rewrite length_app in *. cbn [List.length] in *.
      assert (EC : negb raw_output
                   || (List.length p1 + 1 <? List.length p1 + S (List.length rest)) = true).
      { unfold nonlin_needed in HL. destruct raw_output; simpl; [|reflexivity].
        apply Nat.ltb_lt. lia. }
      rewrite EC.
      replace (nth_error fs (List.length p1)) with (@None (T -> T));
        [reflexivity|].
      symmetry. apply nth_error_None. lia.
  - intros HL.
    assert (HS : make_stack func X params (PerLayer fs) name raw_output reg
                 = stack_spec func name raw_output 0
                              (combine params (fs ++ [fun x => x])) X reg).
    { unfold make_stack, generic_stack.
      rewrite (combine_firstn_l params (fs ++ [fun x => x])).
      transitivity (stack_loop func (List.length params)
                      (firstn (List.length params) (fs ++ [fun x => x]))
                      name raw_output 0 params X reg).
      - apply stack_loop_long. intros j Hj.
        rewrite nth_error_firstn.
        assert (Hn : nonlin_needed (List.length params) raw_output <= List.length params)
          by (unfold nonlin_needed; destruct raw_output; lia).
        replace (j <? List.length params) with true
          by (symmetry; apply Nat.ltb_lt; lia).
        rewrite nth_error_app1 by lia. reflexivity.
      - apply (stack_loop_spec func name raw_output params []
                 (firstn (List.length params) (fs ++ [fun x => x])) X reg).
        rewrite length_firstn, length_app. simpl.
        unfold nonlin_needed in HL. destruct raw_output; lia. }
    split; [exact HS|]. split.
    + intros fs' HE. unfold make_stack, generic_stack.
      apply stack_loop_long. intros j Hj.
      assert (E : nth_error (firstn (nonlin_needed (List.length params) raw_output) fs') j
                  = nth_error (firstn (nonlin_needed (List.length params) raw_output) fs) j)
        by (rewrite HE; reflexivity).
      rewrite !nth_error_firstn in E.
      replace (j <? nonlin_needed (List.length params) raw_output) with true in E
        by (symmetry; apply Nat.ltb_lt; exact Hj).
      exact E.
    + intros e HE.
      exact (stack_error_layer fs name X reg e params raw_output HL HE).
Qed.

End StackLengths.

(** C6, as stated, fails: a per-layer list longer than the layer list, and
    under [raw_output] a list one shorter, build the stack without error. *)
Lemma generic_stack_other_lengths_accepted :
  (List.length [log_nonlin; log_nonlin] <> List.length [1%nat]
   /\ make_stack log_layer [] [1%nat] (PerLayer [log_nonlin; log_nonlin]) "fc" false []
      = OK ([1; 0]%nat, []))
  /\ (List.length [log_nonlin] <> List.length [1; 2]%nat
      /\ make_stack log_layer [] [1; 2]%nat (PerLayer [log_nonlin]) "fc" true []
         = OK ([1; 0; 2]%nat, [])).
Proof. repeat split; try discriminate; reflexivity. Qed.

Lemma generic_stack_list_length_witness :
  make_stack log_layer [] [1; 2]%nat (PerLayer [log_nonlin]) "fc" false []
  = Raise IndexError
  /\ make_stack log_layer [] [1; 2]%nat
                (PerLayer [log_nonlin; log_nonlin; (fun l => l ++ [7])%nat]) "fc" false []
     = make_stack log_layer [] [1; 2]%nat (PerLayer [log_nonlin; log_nonlin]) "fc" false []
  /\ make_stack log_layer [] [1; 2]%nat (PerLayer [log_nonlin; log_nonlin]) "fc" false []
     = OK ([1; 0; 2; 0]%nat, []).
Proof.
  split; [|split].
  - exact (proj2 (proj1 (generic_stack_list_length log_layer [] [1; 2]%nat
                           [log_nonlin] "fc" false [])
                        ltac:(simpl; lia))
                 [1%nat] 2%nat [] [1; 0]%nat [] [1; 0; 2]%nat []
                 eq_refl eq_refl eq_refl eq_refl).
  - exact (proj1 (proj2 (proj2 (generic_stack_list_length log_layer [] [1; 2]%nat
                                  [log_nonlin; log_nonlin] "fc" false [])
                               ltac:(simpl; lia)))
                 [log_nonlin; log_nonlin; (fun l => l ++ [7])%nat] eq_refl).
  - exact (eq_trans
             (proj1 (proj2 (generic_stack_list_length log_layer [] [1; 2]%nat
                              [log_nonlin; log_nonlin] "fc" false [])
                           ltac:(simpl; lia)))
             eq_refl).
Defined.


(** ** Spatial softmax: shapes *)

Section SoftmaxFacts.
Context {R : Type} `{Scalar R}.
Local Open Scope nat_scope.

Lemma linspace_length (a b : R) (n : nat) : List.length (linspace a b n) = n.
Proof.
  destruct n as [|[|n]]; [reflexivity | reflexivity |].
  unfold linspace. rewrite length_map, length_seq. reflexivity.
Qed.

Lemma reshape_vec_ok (v : list R) (ds : list nat) :
  fold_right Nat.mul 1 ds = List.length v ->
  reshape_vec v ds = OK (mkArr ds (fun idx => nth (flat_index ds idx) v r0)).
Proof. intros E. unfold reshape_vec. rewrite E, Nat.eqb_refl. reflexivity. Qed.

Lemma reduce_sum_drop (A : NDArray R) (k : nat) :
  k < rank A -> reduce_sum A (Some [k]) false = OK (squeeze_axis k (reduce_axis k A)).
Proof.
  intros HK. unfold reduce_sum. cbn [forallb fold_left].
  apply Nat.ltb_lt in HK. rewrite HK. reflexivity.
Qed.

Lemma bcast_dims3 (b n c m : nat) :
  bcast_dims [b; n; c] [1; m; 1]
  = if Nat.eqb n m then Some [b; n; c]
    else if Nat.eqb n 1 then Some [b; m; c]
    else if Nat.eqb m 1 then Some [b; n; c]
    else None.
Proof.
  unfold bcast_dims. cbn [rev app bcast_rev].
  destruct (Nat.eqb_spec b 1) as [->|Hb];
    destruct (Nat.eqb_spec n m) as [->|Hn];
    destruct (Nat.eqb_spec c 1) as [->|Hc];
    cbn [Nat.eqb option_map rev app]; try reflexivity;
    destruct (Nat.eqb_spec n 1) as [->|Hn1];
    cbn [Nat.eqb option_map rev app]; try reflexivity;
    destruct (Nat.eqb_spec m 1) as [->|Hm1];
    cbn [Nat.eqb option_map rev app]; try reflexivity.
Qed.

Lemma bcast_dims_mid (b n c : nat) : bcast_dims [b; n; c] [b; 1; c] = Some [b; n; c].
Proof. exact (bcast_dims_keep 1 [b; n; c]). Qed.

(** X21.  [spatial_softmax] fails, with the engine's [ValueError], on every
    input whose width and height differ and are both other than 1: the
    sums over the width axis are multiplied by the coordinate map of the
    width, which has the wrong length. *)
Theorem spatial_softmax_rejects_non_square (X : Tensor R) sb sc (sw sh : Z)
        (b c : nat) :
  get_shape X = [sb; Some sw; Some sh; sc] ->
  dims (run X) = [b; Z.to_nat sw; Z.to_nat sh; c] ->
  Z.to_nat sw <> Z.to_nat sh -> Z.to_nat sw <> 1 -> Z.to_nat sh <> 1 ->
  spatial_softmax X = Raise ValueError.
Proof.
  intros EG HD Hne Hw Hh. unfold spatial_softmax. rewrite EG.
  set (w := Z.to_nat sw) in *. set (h := Z.to_nat sh) in *.
  unfold rbind at 1.
  rewrite !reshape_vec_ok by (rewrite linspace_length; simpl; lia).
  unfold rbind at 1. unfold rbind at 1.
  rewrite !reduce_sum_drop by (unfold rank, amap; cbn [dims]; rewrite HD; simpl; lia).
  unfold rbind at 1. unfold rbind at 1.
  rewrite reduce_sum_single
    by (unfold rank, squeeze_axis, reduce_axis, amap; cbn [dims]; rewrite HD; simpl; lia).
  unfold rbind at 1.
  unfold broadcast2 at 1. cbn [dims reduce_axis squeeze_axis amap]. rewrite HD.
  cbn [set_nth remove_nth]. 
  rewrite bcast_dims_mid.
  unfold rbind at 1.
  rewrite reduce_sum_single by (unfold rank, squeeze_axis, reduce_axis, amap; cbn [dims]; rewrite ?HD; simpl; lia).
  unfold rbind at 1.
  unfold broadcast2 at 1. cbn [dims reduce_axis squeeze_axis amap]. rewrite ?HD.
  cbn [set_nth remove_nth].
  rewrite bcast_dims_mid.
  unfold rbind at 1.
  unfold broadcast2 at 1. cbn [dims reduce_axis squeeze_axis amap]. rewrite ?HD.
  cbn [set_nth remove_nth]. rewrite bcast_dims3.
  destruct (Nat.eqb_spec h w); [congruence|].
  destruct (Nat.eqb_spec h 1); [congruence|].
  destruct (Nat.eqb_spec w 1); [congruence|].
  reflexivity.
Qed.

(** X22.  On a square input of shape [[b; n; n; c]], [spatial_softmax]
    returns an array of shape [[b; 2c]]. *)
Theorem spatial_softmax_shape (X : Tensor R) sb sc (sn : Z) (b c : nat) :
  get_shape X = [sb; Some sn; Some sn; sc] ->
  dims (run X) = [b; Z.to_nat sn; Z.to_nat sn; c] ->
  exists A, spatial_softmax X = OK A /\ dims A = [b; c + c].
Proof.
  intros EG HD. unfold spatial_softmax. rewrite EG.
  set (n := Z.to_nat sn) in *.
  unfold rbind at 1.
  rewrite !reshape_vec_ok by (rewrite linspace_length; simpl; lia).
  unfold rbind at 1. unfold rbind at 1.
  rewrite !reduce_sum_drop by (unfold rank, amap; cbn [dims]; rewrite HD; simpl; lia).
  unfold rbind at 1. unfold rbind at 1.
  rewrite reduce_sum_single
    by (unfold rank, squeeze_axis, reduce_axis, amap; cbn [dims]; rewrite HD; simpl; lia).
  unfold rbind at 1.
  unfold broadcast2 at 1. cbn [dims reduce_axis squeeze_axis amap]. rewrite HD.
  cbn [set_nth remove_nth]. 
  rewrite bcast_dims_mid.
  unfold rbind at 1.
  rewrite reduce_sum_single by (unfold rank, squeeze_axis, reduce_axis, amap; cbn [dims]; rewrite ?HD; simpl; lia).
  unfold rbind at 1.
  unfold broadcast2 at 1. cbn [dims reduce_axis squeeze_axis amap]. rewrite ?HD.
  cbn [set_nth remove_nth].
  rewrite bcast_dims_mid.
  unfold rbind at 1.
  unfold broadcast2 at 1. cbn [dims reduce_axis squeeze_axis amap]. rewrite ?HD.
  cbn [set_nth remove_nth]. rewrite bcast_dims3, Nat.eqb_refl.
  unfold rbind.
  rewrite reduce_sum_drop
    by (unfold rank, squeeze_axis, reduce_axis, amap; cbn [dims]; rewrite ?HD; simpl; lia).
  unfold broadcast2. cbn [dims reduce_axis squeeze_axis amap]. rewrite ?HD.
  cbn [set_nth remove_nth]. rewrite bcast_dims3, Nat.eqb_refl.
  rewrite reduce_sum_drop
    by (unfold rank, squeeze_axis, reduce_axis, amap; cbn [dims]; rewrite ?HD; simpl; lia).
  unfold concat, rbind.
  cbn [rank squeeze_axis reduce_axis dims set_nth remove_nth List.length].
  change (Nat.ltb 1 2) with true. cbv iota.
  rewrite concat2_ok.
  - eexists. split; [reflexivity|]. reflexivity.
  - unfold rank. simpl. lia.
  - reflexivity.
Qed.

End SoftmaxFacts.


Lemma spatial_softmax_rejects_non_square_witness :
  spatial_softmax (sample [Some 1; Some 2; Some 3; Some 1]%Z [1; 2; 3; 1]%nat)
  = Raise ValueError.
Proof.
  apply (spatial_softmax_rejects_non_square
           (sample [Some 1; Some 2; Some 3; Some 1]%Z [1; 2; 3; 1]%nat)
           (Some 1%Z) (Some 1%Z) 2%Z 3%Z 1%nat 1%nat eq_refl eq_refl);
    discriminate.
Defined.


Lemma spatial_softmax_shape_witness :
  exists A,
    spatial_softmax (sample [Some 1; Some 3; Some 3; Some 2]%Z [1; 3; 3; 2]%nat) = OK A
    /\ dims A = [1; 4]%nat.
Proof.
  exact (spatial_softmax_shape
           (sample [Some 1; Some 3; Some 3; Some 2]%Z [1; 3; 3; 2]%nat)
           (Some 1%Z) (Some 2%Z) 3%Z 1%nat 2%nat eq_refl eq_refl).
Defined.


(** ** Normalization: entries *)

Section NormalizeMore.
Local Open Scope nat_scope.

(** The entries of [normalize] along one axis. *)
Lemma normalize_at {R} `{Scalar R} (X : NDArray R) (k : nat) :
  k < rank X ->
  exists N,
    normalize X (AxisInt k) = OK N
    /\ dims N = dims X
    /\ forall idx,
         in_range (dims X) idx ->
         at_ N idx
         = rdiv (at_ X idx)
                (sum_list (map (fun j => at_ X (set_nth k j idx)) (seq 0 (dim k X)))).
Proof.
  intros HK.
  unfold normalize, _validate_axes. rewrite reduce_sum_single by exact HK.
  unfold rbind, broadcast2. cbn [dims reduce_axis]. rewrite bcast_dims_keep.
  eexists. split; [reflexivity|]. split; [reflexivity|].
  intros idx HI. cbn [at_].
  rewrite bcast_index_self by exact HI.
  rewrite bcast_index_kept by (exact HI || exact HK).
  f_equal. unfold reduce_axis. cbn [at_]. f_equal.
  apply map_ext. intros j. rewrite set_nth_set_nth. reflexivity.
Qed.

(** X23.  For an axis [k] of the tensor, [normalize] returns a tensor of
    the same shape whose entry at an index is the entry of the input divided
    by the sum of the input along axis [k] through that index; for an axis
    the tensor does not have it fails with the engine's [ValueError]. *)
Theorem normalize_entries {R} `{Scalar R} (X : NDArray R) (k : nat) :
  (k < rank X ->
   exists N,
     normalize X (AxisInt k) = OK N
     /\ dims N = dims X
     /\ forall idx,
          in_range (dims X) idx ->
          at_ N idx
          = rdiv (at_ X idx)
                 (sum_list (map (fun j => at_ X (set_nth k j idx)) (seq 0 (dim k X)))))
  /\ (rank X <= k -> normalize X (AxisInt k) = Raise ValueError).
Proof.
  split; [apply normalize_at|].
  intros HK. unfold normalize, _validate_axes, reduce_sum. cbn [forallb].
  replace (Nat.ltb k (rank X)) with false by (symmetry; apply Nat.ltb_ge; exact HK).
  reflexivity.
Qed.

End NormalizeMore.


Lemma normalize_entries_witness :
  (exists N,
     normalize (symbolic [2; 2]%nat) (AxisInt 1) = OK N
     /\ dims N = [2; 2]%nat
     /\ at_ N [1; 0]%nat
        = EDiv (EVar [1; 0]%nat)
               (EAdd (EAdd (ENat 0) (EVar [1; 0]%nat)) (EVar [1; 1]%nat)))
  /\ normalize (symbolic [2; 2]%nat) (AxisInt 2) = Raise ValueError.
Proof.
  destruct (normalize_entries (symbolic [2; 2]%nat) 2) as [_ HE].
  destruct (normalize_entries (symbolic [2; 2]%nat) 1) as [HN _].
  split; [|apply HE; unfold rank; simpl; lia].
  destruct HN as (N & EN & ED & EA); [unfold rank; simpl; lia|].
  exists N. split; [exact EN|]. split; [exact ED|].
  rewrite EA by (repeat constructor). reflexivity.
Defined.


(** ** Norm with an even power *)

Section NormEven.

Lemma arr_ext_refl {R} (A : NDArray R) : arr_ext A A.
Proof. split; reflexivity. Qed.

Lemma reduce_axis_ext {R} `{Scalar R} (k : nat) (A B : NDArray R) :
  arr_ext A B -> arr_ext (reduce_axis k A) (reduce_axis k B).
Proof.
  intros [HD HE]. unfold arr_ext, reduce_axis, dim. cbn [dims at_]. rewrite HD.
  split; [reflexivity|]. intros idx. f_equal. apply map_ext. intros j. apply HE.
Qed.

Lemma squeeze_axis_ext {R} `{Scalar R} (k : nat) (A B : NDArray R) :
  arr_ext A B -> arr_ext (squeeze_axis k A) (squeeze_axis k B).
Proof.
  intros [HD HE]. unfold arr_ext, squeeze_axis. cbn [dims at_]. rewrite HD.
  split; [reflexivity|]. intros idx. apply HE.
Qed.

Lemma fold_ext {R} (f : NDArray R -> nat -> NDArray R) (l : list nat) :
  (forall k A B, arr_ext A B -> arr_ext (f A k) (f B k)) ->
  forall A B, arr_ext A B -> arr_ext (fold_left f l A) (fold_left f l B).
Proof.
  intros Hf. induction l as [|k l IH]; intros A B HAB; simpl; auto.
Qed.

Lemma reduce_sum_ext {R} `{Scalar R} (A B : NDArray R) axes keep_dims :
  arr_ext A B ->
  match reduce_sum A axes keep_dims, reduce_sum B axes keep_dims with
  | OK A', OK B' => arr_ext A' B'
  | Raise e, Raise e' => e = e'
  | _, _ => False
  end.
Proof.
  intros HAB. pose proof HAB as [HD _]. unfold reduce_sum, rank. rewrite HD.
  set (ax := match axes with Some l => l | None => seq 0 (List.length (dims B)) end).
  destruct (forallb (fun k => Nat.ltb k (List.length (dims B))) ax); simpl; [|reflexivity].
  assert (HS : arr_ext (fold_left (fun acc k => reduce_axis k acc) ax A)
                       (fold_left (fun acc k => reduce_axis k acc) ax B)).
  { apply fold_ext; [|exact HAB]. intros k A0 B0. apply reduce_axis_ext. }
  destruct keep_dims; [exact HS|].
  apply fold_ext; [|exact HS]. intros k A0 B0. apply squeeze_axis_ext.
Qed.

Lemma amap_ext {R} `{Scalar R} (f g : R -> R) (A B : NDArray R) :
  (forall x, f x = g x) -> arr_ext A B -> arr_ext (amap f A) (amap g B).
Proof.
  intros Hfg [HD HE]. unfold arr_ext, amap. cbn [dims at_].
  split; [exact HD|]. intros idx. rewrite HE. apply Hfg.
Qed.

Lemma Qred_int (z : Z) : Qred (z # 1) = (z # 1)%Q.
Proof.
  unfold Qred. cbn [Qnum Qden].
  pose proof (Z.ggcd_gcd z 1) as HG.
  pose proof (Z.ggcd_correct_divisors z 1) as HC.
  destruct (Z.ggcd z 1) as [g [aa bb]]. cbn [fst snd] in *.
  rewrite Z.gcd_1_r in HG. subst g. destruct HC as [Ha Hb].
  assert (Ea : aa = z) by lia. assert (Eb : bb = 1%Z) by lia.
  rewrite Ea, Eb. reflexivity.
Qed.

Lemma Qabs_square (x : Q) : (Qabs x * Qabs x = x * x)%Q.
Proof.
  destruct x as [n d]. unfold Qabs, Qmult. cbn [Qnum Qden].
  rewrite Z.abs_square. reflexivity.
Qed.

Lemma Qabs_mult_eq (a b : Q) : Qabs (a * b) = (Qabs a * Qabs b)%Q.
Proof.
  destruct a as [n d], b as [n' d']. unfold Qabs, Qmult. cbn [Qnum Qden].
  rewrite Z.abs_mul. reflexivity.
Qed.

Lemma pow_pos_abs (x : Q) (m : positive) :
  pow_pos Qmult (Qabs x) m = Qabs (pow_pos Qmult x m).
Proof.
  induction m as [m IH|m IH|]; cbn [pow_pos]; cbv zeta;
    rewrite ?IH, ?Qabs_mult_eq; reflexivity.
Qed.

Lemma pow_pos_even (x : Q) (m : positive) :
  pow_pos Qmult (Qabs x) (m~0) = pow_pos Qmult x (m~0).
Proof.
  cbn [pow_pos]. cbv zeta. rewrite pow_pos_abs, Qabs_square. reflexivity.
Qed.

Lemma Qabs_zero_bool (x : Q) : Qeq_bool (Qabs x) 0 = Qeq_bool x 0.
Proof.
  destruct x as [n d]. unfold Qeq_bool, Qabs. cbn [Qnum Qden].
  destruct n; reflexivity.
Qed.

Lemma xq_pow_even (x : xq) (m : positive) :
  xq_pow (option_map Qabs x) (Some (inject_Z (Zpos m~0)))
  = xq_pow x (Some (inject_Z (Zpos m~0))).
Proof.
  destruct x as [q|]; [|reflexivity].
  unfold xq_pow, inject_Z. cbn [option_map]. rewrite Qred_int. cbn [Qden Qnum].
  change (Pos.eqb 1 1) with true. cbn [negb].
  change (Z.ltb (Zpos m~0) 0) with false. cbn [andb].
  unfold Qpower, Qpower_positive. rewrite pow_pos_even. reflexivity.
Qed.

(** X25.  For a power [p] under which the absolute value makes no
    difference, [|x|^p = x^p] for every scalar [x], the missing absolute
    value changes nothing: [norm] agrees with the p-norm on every tensor, for
    every axis argument and both flags, whatever the scalars.  Over the
    rationals every even integer [p = 2m], the default [p = 2] among them, is
    such a power. *)
Theorem norm_even_power {R} `{Scalar R} (X : NDArray R) (axis : axis_arg)
        (keep_dims root : bool) (p : R) :
  ((forall x : R, rpow (rabs x) p = rpow x p) ->
   match norm X axis keep_dims p root, norm_spec X axis keep_dims p root with
   | OK A, OK B => arr_ext A B
   | Raise e, Raise e' => e = e'
   | _, _ => False
   end)
  /\ (forall (x : xq) (m : positive),
        rpow (rabs x) (Some (inject_Z (Zpos m~0)))
        = rpow x (Some (inject_Z (Zpos m~0)))).
Proof.
  split; [|exact xq_pow_even].
  intros HP. unfold norm, norm_spec, rbind. cbv zeta.
  set (A0 := amap (fun x : R => rpow x p) X).
  set (B0 := amap (fun x : R => rpow (rabs x) p) X).
  assert (HAB : arr_ext A0 B0).
  { apply amap_ext; [intros x; symmetry; apply HP | apply arr_ext_refl]. }
  pose proof (reduce_sum_ext A0 B0 (_validate_axes axis) keep_dims HAB) as HR.
  destruct (reduce_sum A0 (_validate_axes axis) keep_dims) as [A|e];
    destruct (reduce_sum B0 (_validate_axes axis) keep_dims) as [B|e'];
    try contradiction; [|exact HR].
  destruct root; simpl negb; cbv iota.
  - apply amap_ext; [reflexivity | exact HR].
  - exact HR.
Qed.

End NormEven.

Lemma norm_even_power_witness :
  norm (of_list1 (None : xq) [Some ((-3) # 1)%Q; Some (4 # 1)%Q]) AxisNone false
       (Some (2 # 1)%Q) false
  = OK (mkArr [] (fun _ => Some (25 # 1)%Q))
  /\ match norm (of_list1 (None : xq) [Some ((-3) # 1)%Q; Some (4 # 1)%Q]) AxisNone false
                (Some (2 # 1)%Q) false,
           norm_spec (of_list1 (None : xq) [Some ((-3) # 1)%Q; Some (4 # 1)%Q]) AxisNone
                     false (Some (2 # 1)%Q) false with
     | OK A, OK B => arr_ext A B
     | Raise e, Raise e' => e = e'
     | _, _ => False
     end.
Proof.
  split; [reflexivity|].
  exact (proj1 (norm_even_power
                  (of_list1 (None : xq) [Some ((-3) # 1)%Q; Some (4 # 1)%Q])
                  AxisNone false false (Some (2 # 1)%Q))
               (fun x => proj2 (norm_even_power
                                  (of_list1 (None : xq) [Some ((-3) # 1)%Q; Some (4 # 1)%Q])
                                  AxisNone false false (Some (2 # 1)%Q)) x 1%positive)).
Defined.


(** ** Norm on non-negative tensors *)

Section ReduceFacts.
Context {R : Type} `{Scalar R}.
Local Open Scope nat_scope.

Lemma reduce_axis_eq (k : nat) (A B : NDArray R) :
  arr_eq A B -> arr_eq (reduce_axis k A) (reduce_axis k B).
Proof.
  intros [HD HE]. unfold arr_eq, reduce_axis, dim. cbn [dims at_]. rewrite <- HD.
  split; [reflexivity|]. intros idx HI. f_equal. apply map_ext_in.
  intros j Hj. apply in_seq in Hj. apply HE.
  apply (in_range_set_nth _ _ _ _ _ HI). intros _. lia.
Qed.

Lemma in_range_insert (ds idx : list nat) (k : nat) :
  in_range (remove_nth k ds) idx -> k < List.length ds -> 0 < nth k ds 0 ->
  in_range ds (insert_nth k 0 idx).
Proof.
  unfold in_range. revert idx k. induction ds as [|d ds IH]; intros idx k HI HK HP.
  - simpl in HK. lia.
  - destruct k; simpl in *.
    + constructor; assumption.
    + destruct ds as [|d' ds']; [simpl in HK; lia|].
      inversion HI; subst. simpl. constructor; [assumption|].
      apply IH; [assumption | simpl in *; lia | assumption].
Qed.

Lemma squeeze_axis_eq (k : nat) (A B : NDArray R) :
  arr_eq A B -> k < rank A -> 0 < dim k A ->
  arr_eq (squeeze_axis k A) (squeeze_axis k B).
Proof.
  intros [HD HE] HK HP. unfold arr_eq, squeeze_axis. cbn [dims at_]. rewrite <- HD.
  split; [reflexivity|]. intros idx HI. apply HE.
  apply in_range_insert; assumption.
Qed.

Lemma reduce_fold_eq (axes : list nat) :
  forall A B : NDArray R,
    arr_eq A B ->
    arr_eq (fold_left (fun acc k => reduce_axis k acc) axes A)
           (fold_left (fun acc k => reduce_axis k acc) axes B).
Proof.
  induction axes as [|k l IH]; intros A B HAB; simpl; [exact HAB|].
  apply IH. apply reduce_axis_eq. exact HAB.
Qed.

Lemma nth_set_nth_other {A} (k j : nat) (x d : A) (l : list A) :
  j <> k -> nth j (set_nth k x l) d = nth j l d.
Proof.
  revert k j. induction l as [|a l IH]; intros k j HN; destruct k, j; simpl;
    try reflexivity; try lia.
  apply IH. lia.
Qed.

Lemma reduce_fold_rank (axes : list nat) :
  forall A : NDArray R,
    rank (fold_left (fun acc k => reduce_axis k acc) axes A) = rank A.
Proof.
  induction axes as [|k l IH]; intros A; simpl; [reflexivity|].
  rewrite IH. unfold rank, reduce_axis. cbn [dims]. apply set_nth_length.
Qed.

Lemma reduce_fold_keeps_one (axes : list nat) (j : nat) :
  forall A : NDArray R,
    dim j A = 1 -> dim j (fold_left (fun acc k => reduce_axis k acc) axes A) = 1.
Proof.
  induction axes as [|k l IH]; intros A HA; simpl; [exact HA|].
  apply IH. unfold dim, reduce_axis in *. cbn [dims].
  destruct (Nat.eq_dec j k) as [->|HN].
  - destruct (Nat.lt_ge_cases k (List.length (dims A))) as [HL|HL].
    + apply nth_set_nth. exact HL.
    + rewrite nth_overflow in HA by exact HL. discriminate HA.
  - rewrite nth_set_nth_other by exact HN. exact HA.
Qed.

Lemma reduce_fold_one (axes : list nat) (j : nat) :
  forall A : NDArray R,
    In j axes -> j < rank A ->
    dim j (fold_left (fun acc k => reduce_axis k acc) axes A) = 1.
Proof.
  induction axes as [|k l IH]; intros A HI HJ; [contradiction|].
  simpl. destruct (Nat.eq_dec k j) as [->|HN].
  - apply reduce_fold_keeps_one. unfold dim, reduce_axis. cbn [dims].
    apply nth_set_nth. exact HJ.
  - destruct HI as [E|HI]; [contradiction|].
    apply IH; [exact HI|].
    unfold rank, reduce_axis in *. cbn [dims]. rewrite set_nth_length. exact HJ.
Qed.

Lemma remove_nth_length {A} (k : nat) (l : list A) :
  k < List.length l -> List.length (remove_nth k l) = List.length l - 1.
Proof.
  revert k. induction l as [|a l IH]; intros k HK; [simpl in HK; lia|].
  destruct k; simpl; [lia|]. simpl in HK. rewrite IH by lia. lia.
Qed.

Lemma nth_remove_nth_before {A} (k j : nat) (d : A) (l : list A) :
  j < k -> nth j (remove_nth k l) d = nth j l d.
Proof.
  revert k j. induction l as [|a l IH]; intros k j HJ; destruct k, j; simpl;
    try reflexivity; try lia.
  apply IH. lia.
Qed.

Lemma squeeze_fold_eq (l : list nat) :
  StronglySorted (fun a b => b < a) l ->
  forall A B : NDArray R,
    arr_eq A B ->
    (forall j, In j l -> j < rank A /\ dim j A = 1) ->
    arr_eq (fold_left (fun acc k => squeeze_axis k acc) l A)
           (fold_left (fun acc k => squeeze_axis k acc) l B).
Proof.
  induction 1 as [|k l HS IH HF]; intros A B HAB HJ; simpl; [exact HAB|].
  destruct (HJ k (or_introl eq_refl)) as [HK HD].
  apply IH.
  - apply squeeze_axis_eq; [exact HAB | exact HK | lia].
  - intros j Hj. rewrite Forall_forall in HF. specialize (HF j Hj).
    destruct (HJ j (or_intror Hj)) as [HK' HD'].
    unfold rank, dim, squeeze_axis in *. cbn [dims].
    rewrite remove_nth_length by exact HK.
    rewrite nth_remove_nth_before by exact HF. split; [lia | exact HD'].
Qed.

Lemma sorted_filter (f : nat -> bool) (l : list nat) :
  StronglySorted (fun a b => b < a) l ->
  StronglySorted (fun a b => b < a) (filter f l).
Proof.
  induction 1 as [|a l HS IH HF]; simpl; [constructor|].
  destruct (f a); [|exact IH].
  constructor; [exact IH|].
  rewrite Forall_forall in *. intros x Hx. apply filter_In in Hx as [Hx _]. auto.
Qed.

Lemma sorted_app (l1 l2 : list nat) :
  StronglySorted (fun a b => b < a) l1 ->
  StronglySorted (fun a b => b < a) l2 ->
  (forall a b, In a l1 -> In b l2 -> b < a) ->
  StronglySorted (fun a b => b < a) (l1 ++ l2).
Proof.
  induction 1 as [|a l HS IH HF]; intros H2 HC; simpl; [exact H2|].
  constructor.
  - apply IH; [exact H2|]. intros x y Hx Hy. apply HC; [right; exact Hx | exact Hy].
  - rewrite Forall_forall in *. intros x Hx. apply in_app_or in Hx as [Hx|Hx].
    + apply HF. exact Hx.
    + apply HC; [left; reflexivity | exact Hx].
Qed.

Lemma sort_desc_sorted (l : list nat) :
  StronglySorted (fun a b => b < a) (sort_desc l)
  /\ forall j, In j (sort_desc l) -> In j l.
Proof.
  induction l as [|k l [IHs IHi]]; [split; [constructor | auto]|].
  unfold sort_desc in *. cbn [fold_right].
  set (acc := fold_right _ [] l) in *.
  split.
  - apply sorted_app.
    + apply sorted_filter. exact IHs.
    + constructor; [apply sorted_filter; exact IHs|].
      rewrite Forall_forall. intros x Hx. apply filter_In in Hx as [_ Hx].
      apply Nat.ltb_lt in Hx. exact Hx.
    + intros a b Ha Hb. apply filter_In in Ha as [_ Ha]. apply Nat.ltb_lt in Ha.
      destruct Hb as [<-|Hb]; [exact Ha|].
      apply filter_In in Hb as [_ Hb]. apply Nat.ltb_lt in Hb. lia.
  - intros j Hj. apply in_app_or in Hj as [Hj|[<-|Hj]].
    + right. apply IHi. apply filter_In in Hj as [Hj _]. exact Hj.
    + left. reflexivity.
    + right. apply IHi. apply filter_In in Hj as [Hj _]. exact Hj.
Qed.

(** [reduce_sum] reads its argument at valid indices only. *)
Lemma reduce_sum_eq (A B : NDArray R) axes keep_dims :
  arr_eq A B ->
  match reduce_sum A axes keep_dims, reduce_sum B axes keep_dims with
  | OK A', OK B' => arr_eq A' B'
  | Raise e, Raise e' => e = e'
  | _, _ => False
  end.
Proof.
  intros HAB. pose proof HAB as [HD _]. unfold reduce_sum, rank. rewrite <- HD.
  set (ax := match axes with Some l => l | None => seq 0 (List.length (dims A)) end).
  destruct (forallb (fun k => Nat.ltb k (List.length (dims A))) ax) eqn:EF; simpl;
    [|reflexivity].
  assert (HS : arr_eq (fold_left (fun acc k => reduce_axis k acc) ax A)
                      (fold_left (fun acc k => reduce_axis k acc) ax B))
    by (apply reduce_fold_eq; exact HAB).
  destruct keep_dims; [exact HS|].
  destruct (sort_desc_sorted ax) as [Hs Hi].
  apply squeeze_fold_eq; [exact Hs | exact HS |].
  intros j Hj. apply Hi in Hj.
  rewrite forallb_forall in EF. pose proof (EF j Hj) as HL. apply Nat.ltb_lt in HL.
  split.
  - rewrite reduce_fold_rank. exact HL.
  - apply reduce_fold_one; [exact Hj | exact HL].
Qed.

Lemma amap_eq (f g : R -> R) (A B : NDArray R) :
  arr_eq A B ->
  (forall idx, in_range (dims A) idx -> f (at_ A idx) = g (at_ A idx)) ->
  arr_eq (amap f A) (amap g B).
Proof.
  intros [HD HE] Hfg. unfold arr_eq, amap. cbn [dims at_].
  split; [exact HD|]. intros idx HI. rewrite <- HE by exact HI. apply Hfg. exact HI.
Qed.

End ReduceFacts.

Lemma Qabs_nonneg_eq (q : Q) : (0 <= q)%Q -> Qabs q = q.
Proof.
  destruct q as [n d]. unfold Qle, Qabs. cbn [Qnum Qden]. intros Hq.
  rewrite Z.abs_eq by lia. reflexivity.
Qed.

(** X26.  On a tensor whose entries are their own absolute values [norm]
    is the p-norm, whatever the scalars, the power, the axes and the flags:
    both fail alike, or return arrays with the same shape and entries.  Over
    the rationals the non-negative numbers are their own absolute values. *)
Theorem norm_nonnegative {R} `{Scalar R} (X : NDArray R) (axis : axis_arg)
        (keep_dims root : bool) (p : R) :
  ((forall idx, in_range (dims X) idx -> rabs (at_ X idx) = at_ X idx) ->
   match norm X axis keep_dims p root, norm_spec X axis keep_dims p root with
   | OK A, OK B => arr_eq A B
   | Raise e, Raise e' => e = e'
   | _, _ => False
   end)
  /\ (forall q : Q, (0 <= q)%Q -> rabs (Some q : xq) = Some q).
Proof.
  split; [|intros q Hq; cbn; rewrite Qabs_nonneg_eq by exact Hq; reflexivity].
  intros HX. unfold norm, norm_spec, rbind. cbv zeta.
  set (A0 := amap (fun x : R => rpow x p) X).
  set (B0 := amap (fun x : R => rpow (rabs x) p) X).
  assert (HAB : arr_eq A0 B0).
  { apply amap_eq; [apply arr_eq_refl|].
    intros idx HI. rewrite (HX idx HI). reflexivity. }
  pose proof (reduce_sum_eq A0 B0 (_validate_axes axis) keep_dims HAB) as HR.
  destruct (reduce_sum A0 (_validate_axes axis) keep_dims) as [A|e];
    destruct (reduce_sum B0 (_validate_axes axis) keep_dims) as [B|e'];
    try contradiction; [|exact HR].
  destruct root; simpl negb; cbv iota.
  - apply amap_eq; [exact HR | reflexivity].
  - exact HR.
Qed.


Lemma norm_nonnegative_witness :
  (forall idx, in_range [2%nat] idx ->
     rabs (at_ (of_list1 (None : xq) [Some 1%Q; Some (2 # 1)%Q]) idx)
     = at_ (of_list1 (None : xq) [Some 1%Q; Some (2 # 1)%Q]) idx)
  /\ norm (of_list1 (None : xq) [Some 1%Q; Some (2 # 1)%Q]) AxisNone false
          (Some 1%Q) true
     = OK (mkArr [] (fun _ => Some (3 # 1)%Q))
  /\ match norm (of_list1 (None : xq) [Some 1%Q; Some (2 # 1)%Q]) AxisNone false
                (Some 1%Q) true,
           norm_spec (of_list1 (None : xq) [Some 1%Q; Some (2 # 1)%Q]) AxisNone false
                     (Some 1%Q) true with
     | OK A, OK B => arr_eq A B
     | Raise e, Raise e' => e = e'
     | _, _ => False
     end.
Proof.
  assert (HX : forall idx, in_range [2%nat] idx ->
                 rabs (at_ (of_list1 (None : xq) [Some 1%Q; Some (2 # 1)%Q]) idx)
                 = at_ (of_list1 (None : xq) [Some 1%Q; Some (2 # 1)%Q]) idx).
  { intros idx HI. inversion HI as [|i d l l' Hi HF]; subst. inversion HF; subst.
    destruct i as [|[|i]]; [| |lia];
      apply (proj2 (norm_nonnegative (of_list1 (None : xq) [Some 1%Q; Some (2 # 1)%Q])
                      AxisNone false true (Some 1%Q))); discriminate. }
  split; [exact HX|]. split; [reflexivity|].
  exact (proj1 (norm_nonnegative (of_list1 (None : xq) [Some 1%Q; Some (2 # 1)%Q])
                  AxisNone false true (Some 1%Q)) HX).
Defined.

